(** * bitbucket-hg-exporter: the crawl-and-rewrite engine

    A shallow embedding of [bitbucket_hg_exporter/__main__.py]: the rewrite
    rule engine ([rewrite_url]), the storage-path computation of
    [get_and_save_json], the crawl tree and its position tuple, the
    class-level [DummyResponse] cache, the link rewriter
    ([make_urls_relative], [fix_stupid_bitbucket_urls]) and the comment
    hierarchy reconstruction ([flatten_comments] and the placement loop of
    the project-confirmation step).

    Python strings are modelled as [string] (bytes), Python dicts whose
    iteration order is observable as association lists in insertion order,
    the file system and the [DummyResponse] cache as finite maps. *)

From Stdlib Require Import String Ascii ZArith List Bool Lia DecimalString.
From stdpp Require Import base option list gmap strings.

Import ListNotations.
Set Warnings "-register-all".
Local Open Scope string_scope.
Local Open Scope list_scope.

(* ===================================================================== *)
(** * Part I: the embedding *)
(* ===================================================================== *)

(** ** Python strings *)

Module PyStr.

(** The double quote character, and a string holding it alone. *)
Definition dquote_char : ascii := ascii_of_nat 34.
Definition dq : string := String dquote_char EmptyString.
Definition bslash_char : ascii := ascii_of_nat 92.
Definition bs : string := String bslash_char EmptyString.
Definition newline_char : ascii := ascii_of_nat 10.

Definition len (s : string) : nat := String.length s.

(** [s.startswith(p)] *)
Fixpoint startswith (p s : string) : bool :=
  match p, s with
  | EmptyString, _ => true
  | String a p', String b s' => if Ascii.eqb a b then startswith p' s' else false
  | String _ _, EmptyString => false
  end.

(** [s[n:]] and [s[:n]] *)
Fixpoint drop (n : nat) (s : string) : string :=
  match n, s with
  | O, _ => s
  | S n', String _ s' => drop n' s'
  | S _, EmptyString => EmptyString
  end.

Fixpoint take (n : nat) (s : string) : string :=
  match n, s with
  | O, _ => EmptyString
  | S n', String c s' => String c (take n' s')
  | S _, EmptyString => EmptyString
  end.

(** [s.endswith(p)] *)
Definition endswith (p s : string) : bool :=
  (len p <=? len s)%nat && String.eqb (drop (len s - len p) s) p.

(** [p in s] *)
Fixpoint contains (p s : string) : bool :=
  startswith p s ||
  match s with
  | EmptyString => false
  | String _ s' => contains p s'
  end.

(** [s.replace(old, new)] for a non-empty [old]: occurrences are found left
    to right and do not overlap.  [skip] counts the characters of a matched
    occurrence that are still to be dropped. *)
Fixpoint replace_from (old new s : string) (skip : nat) : string :=
  match s with
  | EmptyString => EmptyString
  | String c s' =>
      match skip with
      | S k => replace_from old new s' k
      | O =>
          if startswith old s
          then new ++ replace_from old new s' (len old - 1)
          else String c (replace_from old new s' 0)
      end
  end.

(** [s.replace("", new)] puts [new] before every character and at the end. *)
Fixpoint intersperse (new s : string) : string :=
  match s with
  | EmptyString => new
  | String c s' => new ++ String c (intersperse new s')
  end.

Definition replace (old new s : string) : string :=
  match old with
  | EmptyString => intersperse new s
  | String _ _ => replace_from old new s 0
  end.

(** [s.split(sep)[0]] for a one-character separator. *)
Fixpoint before_char (sep : ascii) (s : string) : string :=
  match s with
  | EmptyString => EmptyString
  | String c s' => if Ascii.eqb c sep then EmptyString else String c (before_char sep s')
  end.

(** The part of [s] after the first [sep], if [sep] occurs. *)
Fixpoint after_char (sep : ascii) (s : string) : option string :=
  match s with
  | EmptyString => None
  | String c s' => if Ascii.eqb c sep then Some s' else after_char sep s'
  end.

(** [s.split(sep)] for a one-character separator. *)
Fixpoint split_char (sep : ascii) (s : string) : list string :=
  match s with
  | EmptyString => [EmptyString]
  | String c s' =>
      if Ascii.eqb c sep then EmptyString :: split_char sep s'
      else match split_char sep s' with
           | [] => [String c EmptyString]
           | h :: t => String c h :: t
           end
  end.

(** [sep.join(l)] *)
Fixpoint join (sep : string) (l : list string) : string :=
  match l with
  | [] => EmptyString
  | [x] => x
  | x :: l' => x ++ sep ++ join sep l'
  end.

(** [str(z)] for an integer. *)
Definition of_Z (z : Z) : string := NilZero.string_of_int (Z.to_int z).

End PyStr.

(** ** Regular expressions

    The source matches endpoints and scans response bodies with Python's
    [re].  The patterns are kept as the strings the source writes; [compile]
    parses the syntax they use, and [exec] is a backtracking matcher with
    Python's priorities (left alternative first, greedy and lazy
    repetition), so that captured groups are the ones [re] reports. *)

Module Re.

Inductive regex : Type :=
| Eps
| Chr (c : ascii)
| Dot
| Digit
| Cls (neg : bool) (items : list (ascii * ascii))
| Eol
| Seq (r1 r2 : regex)
| Alt (r1 r2 : regex)
| Star (greedy : bool) (r : regex)
| Plus (greedy : bool) (r : regex)
| Opt (greedy : bool) (r : regex)
| Grp (n : nat) (r : regex)
| NLook (r : regex).

(** Captured groups, most recent first. *)
Definition caps := list (nat * string).

Fixpoint group (n : nat) (cs : caps) : string :=
  match cs with
  | [] => EmptyString
  | (i, s) :: cs' => if Nat.eqb i n then s else group n cs'
  end.

Definition is_digit (c : ascii) : bool :=
  (48 <=? nat_of_ascii c)%nat && (nat_of_ascii c <=? 57)%nat.

Definition is_alnum (c : ascii) : bool :=
  let n := nat_of_ascii c in
  is_digit c || ((65 <=? n)%nat && (n <=? 90)%nat) || ((97 <=? n)%nat && (n <=? 122)%nat).

Definition in_range (c : ascii) (r : ascii * ascii) : bool :=
  (nat_of_ascii (fst r) <=? nat_of_ascii c)%nat && (nat_of_ascii c <=? nat_of_ascii (snd r))%nat.

Section Exec.
Context {R : Type}.

(** Repetition of [step]: at most [n] further iterations, each of which has
    to consume input. *)
Fixpoint iter (step : string -> caps -> (string -> caps -> option R) -> option R)
    (greedy : bool) (n : nat) (s : string) (cs : caps)
    (k : string -> caps -> option R) : option R :=
  let more (_ : unit) :=
    match n with
    | O => None
    | S n' =>
        step s cs (fun s' cs' =>
          if (PyStr.len s' <? PyStr.len s)%nat then iter step greedy n' s' cs' k else None)
    end in
  if greedy
  then match more tt with Some x => Some x | None => k s cs end
  else match k s cs with Some x => Some x | None => more tt end.

End Exec.

(** [exec r s cs k]: match [r] at the head of [s], then continue with [k] on
    the rest; the first success in priority order is the result. *)
Fixpoint exec (R : Type) (r : regex) (s : string) (cs : caps)
    (k : string -> caps -> option R) {struct r} : option R :=
  match r with
  | Eps => k s cs
  | Chr c =>
      match s with
      | String c' s' => if Ascii.eqb c c' then k s' cs else None
      | EmptyString => None
      end
  | Dot =>
      match s with
      | String c' s' => if Ascii.eqb c' PyStr.newline_char then None else k s' cs
      | EmptyString => None
      end
  | Digit =>
      match s with
      | String c' s' => if is_digit c' then k s' cs else None
      | EmptyString => None
      end
  | Cls neg items =>
      match s with
      | String c' s' => if xorb neg (existsb (in_range c') items) then k s' cs else None
      | EmptyString => None
      end
  | Eol =>
      match s with
      | EmptyString => k s cs
      | String c' EmptyString => if Ascii.eqb c' PyStr.newline_char then k s cs else None
      | _ => None
      end
  | Seq a b => exec R a s cs (fun s' cs' => exec R b s' cs' k)
  | Alt a b =>
      match exec R a s cs k with
      | Some x => Some x
      | None => exec R b s cs k
      end
  | Star g a => iter (exec R a) g (PyStr.len s) s cs k
  | Plus g a => exec R a s cs (fun s' cs' => iter (exec R a) g (PyStr.len s') s' cs' k)
  | Opt g a =>
      if g
      then match exec R a s cs k with Some x => Some x | None => k s cs end
      else match k s cs with Some x => Some x | None => exec R a s cs k end
  | Grp n a =>
      exec R a s cs (fun s' cs' => k s' ((n, PyStr.take (PyStr.len s - PyStr.len s') s) :: cs'))
  | NLook a =>
      match exec unit a s cs (fun _ _ => Some tt) with
      | Some _ => None
      | None => k s cs
      end
  end.

(** [pattern.match(s)]: the groups and the rest of the input. *)
Definition match_at (r : regex) (s : string) : option (caps * string) :=
  exec (caps * string) r s [] (fun s' cs => Some (cs, s')).

(** One scan of the input as [findall] and [sub] make it: the characters
    outside every match, and the matches (whole text and groups). *)
Inductive seg : Type :=
| Lit (c : ascii)
| Hit (whole : string) (cs : caps).

Fixpoint scan (r : regex) (s : string) (skip : nat) : list seg :=
  match s with
  | EmptyString =>
      match skip with
      | O => match match_at r EmptyString with
             | Some (cs, _) => [Hit EmptyString cs]
             | None => []
             end
      | S _ => []
      end
  | String c s' =>
      match skip with
      | S k => scan r s' k
      | O =>
          match match_at r s with
          | Some (cs, rest) =>
              let n := (PyStr.len s - PyStr.len rest)%nat in
              Hit (PyStr.take n s) cs ::
              match n with
              | O => Lit c :: scan r s' 0
              | S n' => scan r s' n'
              end
          | None => Lit c :: scan r s' 0
          end
      end
  end.

Definition is_hit (x : seg) : bool :=
  match x with Hit _ _ => true | Lit _ => false end.

(** Truth value of [pattern.findall(s)]: some match exists. *)
Definition found (r : regex) (s : string) : bool := existsb is_hit (scan r s 0).

(** [pattern.findall(s)] for a pattern with one capturing group. *)
Definition findall1 (r : regex) (s : string) : list string :=
  omap (fun x => match x with Hit _ cs => Some (group 1 cs) | Lit _ => None end) (scan r s 0).

(** [re.sub(pattern, repl, s)] with a function [repl] of the match. *)
Definition sub (r : regex) (repl : string -> caps -> string) (s : string) : string :=
  fold_right (fun x acc =>
    match x with
    | Lit c => String c acc
    | Hit w cs => (repl w cs ++ acc)%string
    end) EmptyString (scan r s 0).

(** *** The pattern syntax *)

Definition is_quant (c : ascii) : bool :=
  Ascii.eqb c "*" || Ascii.eqb c "+" || Ascii.eqb c "?".

(** A quantifier after an atom, with its lazy form. *)
Definition p_quant (a : regex) (s : string) : regex * string :=
  match s with
  | String q s1 =>
      if is_quant q then
        let '(g, s2) :=
          match s1 with
          | String "?" s2 => (false, s2)
          | _ => (true, s1)
          end in
        if Ascii.eqb q "*" then (Star g a, s2)
        else if Ascii.eqb q "+" then (Plus g a, s2)
        else (Opt g a, s2)
      else (a, s)
  | EmptyString => (a, s)
  end.

(** The items of a character class up to the closing bracket. *)
Fixpoint p_class (fuel : nat) (s : string) (acc : list (ascii * ascii))
    : option (list (ascii * ascii) * string) :=
  match fuel with
  | O => None
  | S f =>
      match s with
      | String "]" s1 => Some (rev acc, s1)
      | String "\" (String c s1) => p_class f s1 ((c, c) :: acc)
      | String a (String "-" (String b s1)) =>
          if Ascii.eqb b "]" then p_class f (String "-" (String b s1)) ((a, a) :: acc)
          else p_class f s1 ((a, b) :: acc)
      | String a s1 => p_class f s1 ((a, a) :: acc)
      | EmptyString => None
      end
  end.

(** Alternatives, sequences and atoms; [n] is the number of capturing groups
    opened so far.  [None] is a pattern outside the syntax handled here. *)
Fixpoint p_alt (fuel : nat) (s : string) (n : nat) : option (regex * string * nat) :=
  match fuel with
  | O => None
  | S f =>
      match p_seq f s n with
      | Some (r1, String "|" s1, n1) =>
          match p_alt f s1 n1 with
          | Some (r2, s2, n2) => Some (Alt r1 r2, s2, n2)
          | None => None
          end
      | other => other
      end
  end
with p_seq (fuel : nat) (s : string) (n : nat) : option (regex * string * nat) :=
  match fuel with
  | O => None
  | S f =>
      match s with
      | EmptyString => Some (Eps, s, n)
      | String c _ =>
          if Ascii.eqb c "|" || Ascii.eqb c ")" then Some (Eps, s, n)
          else
            match p_atom f s n with
            | Some (a, s1, n1) =>
                let '(a', s2) := p_quant a s1 in
                match p_seq f s2 n1 with
                | Some (Eps, s3, n2) => Some (a', s3, n2)
                | Some (r, s3, n2) => Some (Seq a' r, s3, n2)
                | None => None
                end
            | None => None
            end
      end
  end
with p_atom (fuel : nat) (s : string) (n : nat) : option (regex * string * nat) :=
  match fuel with
  | O => None
  | S f =>
      match s with
      | String "(" (String "?" (String ":" s1)) =>
          match p_alt f s1 n with
          | Some (r, String ")" s2, n1) => Some (r, s2, n1)
          | _ => None
          end
      | String "(" (String "?" (String "!" s1)) =>
          match p_alt f s1 n with
          | Some (r, String ")" s2, n1) => Some (NLook r, s2, n1)
          | _ => None
          end
      | String "(" (String "?" _) => None
      | String "(" s1 =>
          match p_alt f s1 (S n) with
          | Some (r, String ")" s2, n1) => Some (Grp (S n) r, s2, n1)
          | _ => None
          end
      | String "[" (String "^" s1) =>
          match p_class f s1 [] with
          | Some (items, s2) => Some (Cls true items, s2, n)
          | None => None
          end
      | String "[" s1 =>
          match p_class f s1 [] with
          | Some (items, s2) => Some (Cls false items, s2, n)
          | None => None
          end
      | String "." s1 => Some (Dot, s1, n)
      | String "$" s1 => Some (Eol, s1, n)
      | String "\" (String c s1) =>
          if Ascii.eqb c "d" then Some (Digit, s1, n)
          else if is_alnum c then None
          else Some (Chr c, s1, n)
      | String c s1 =>
          if is_quant c || Ascii.eqb c "^" || Ascii.eqb c "{" || Ascii.eqb c "\" then None
          else Some (Chr c, s1, n)
      | EmptyString => None
      end
  end.

(** [re.compile(p)] *)
Definition compile (p : string) : option regex :=
  match p_alt (3 * PyStr.len p + 3) p 0 with
  | Some (r, EmptyString, _) => Some r
  | _ => None
  end.

End Re.

(** ** Python values and dictionaries *)

Module Py.

(** The values query parameters and rule tables hold: [None], a string, an
    integer, or a list of strings (what [parse_qs] returns for a key). *)
Inductive value : Type :=
| VNone
| VStr (s : string)
| VInt (z : Z)
| VList (l : list string).

Fixpoint strs_eqb (a b : list string) : bool :=
  match a, b with
  | [], [] => true
  | x :: a', y :: b' => String.eqb x y && strs_eqb a' b'
  | _, _ => false
  end.

(** [a == b] *)
Definition value_eqb (a b : value) : bool :=
  match a, b with
  | VNone, VNone => true
  | VStr x, VStr y => String.eqb x y
  | VInt x, VInt y => Z.eqb x y
  | VList x, VList y => strs_eqb x y
  | _, _ => false
  end.

(** A [dict] in insertion order. *)
Definition dict : Type := list (string * value).

(** [d.get(k)] *)
Fixpoint get (k : string) (d : dict) : option value :=
  match d with
  | [] => None
  | (k', v) :: d' => if String.eqb k k' then Some v else get k d'
  end.

(** [k in d] *)
Definition mem (k : string) (d : dict) : bool :=
  match get k d with Some _ => true | None => false end.

(** [d[k] = v]: an existing key keeps its place, a new one goes last. *)
Fixpoint set (k : string) (v : value) (d : dict) : dict :=
  match d with
  | [] => [(k, v)]
  | (k', v') :: d' => if String.eqb k k' then (k, v) :: d' else (k', v') :: set k v d'
  end.

(** [del d[k]] *)
Definition del (k : string) (d : dict) : dict :=
  List.filter (fun kv => negb (String.eqb k (fst kv))) d.

End Py.

(** ** [urllib.parse]: the functions the crawler calls *)

Module Url.

Definition hex_digit (n : nat) : ascii :=
  if (n <? 10)%nat then ascii_of_nat (48 + n) else ascii_of_nat (55 + n).

(** Characters [quote] never escapes. *)
Definition always_safe (c : ascii) : bool :=
  Re.is_alnum c || Ascii.eqb c "_" || Ascii.eqb c "." || Ascii.eqb c "-" || Ascii.eqb c "~".

(** [quote_plus(s)] *)
Fixpoint quote_plus (s : string) : string :=
  match s with
  | EmptyString => EmptyString
  | String c s' =>
      if always_safe c then String c (quote_plus s')
      else if Ascii.eqb c " " then String "+" (quote_plus s')
      else
        let n := nat_of_ascii c in
        String "%" (String (hex_digit (n / 16)) (String (hex_digit (n mod 16)) (quote_plus s')))
  end.

(** One [key=value] pair per element of a list value, one for any other. *)
Definition encode_item (kv : string * Py.value) : list string :=
  let k := quote_plus (fst kv) in
  let pair (v : string) := (k ++ "=" ++ quote_plus v)%string in
  match snd kv with
  | Py.VStr s => [pair s]
  | Py.VList l => map pair l
  | Py.VInt z => [pair (PyStr.of_Z z)]
  | Py.VNone => [pair "None"]
  end.

(** [urlencode(d, doseq=True)] *)
Definition urlencode (d : Py.dict) : string :=
  PyStr.join "&" (concat (map encode_item d)).

Definition hex_value (c : ascii) : option nat :=
  let n := nat_of_ascii c in
  if Re.is_digit c then Some (n - 48)
  else if (65 <=? n)%nat && (n <=? 70)%nat then Some (n - 55)
  else if (97 <=? n)%nat && (n <=? 102)%nat then Some (n - 87)
  else None.

(** [unquote_to_bytes(s)]: [%XX] becomes the byte it names. *)
Fixpoint unquote_to_bytes (s : string) : string :=
  match s with
  | String "%" (String a (String b s') as t) =>
      match hex_value a, hex_value b with
      | Some x, Some y => String (ascii_of_nat (16 * x + y)) (unquote_to_bytes s')
      | _, _ => String "%" (unquote_to_bytes t)
      end
  | String c s' => String c (unquote_to_bytes s')
  | EmptyString => EmptyString
  end.

(** Strings are UTF-8 text.  [b.decode('utf-8', 'replace')], written back
    as UTF-8: a well-formed sequence is kept, and every ill-formed one (a
    byte that starts no sequence, or the start of a sequence up to the byte
    that cannot continue it) becomes U+FFFD. *)
Definition between (lo hi : nat) (c : ascii) : bool :=
  let n := nat_of_ascii c in (lo <=? n)%nat && (n <=? hi)%nat.

Definition is_continuation : ascii → bool := between 128 191.

(** The second byte of a sequence of three or four, by its first byte. *)
Definition is_second (lead : ascii) : ascii → bool :=
  let n := nat_of_ascii lead in
  if (n =? 224)%nat then between 160 191
  else if (n =? 237)%nat then between 128 159
  else if (n =? 240)%nat then between 144 191
  else if (n =? 244)%nat then between 128 143
  else between 128 191.

Definition replacement_character : string :=
  String (ascii_of_nat 239) (String (ascii_of_nat 191) (String (ascii_of_nat 189) EmptyString)).

Fixpoint decode_replace (s : string) : string :=
  match s with
  | EmptyString => EmptyString
  | String c s1 =>
      if between 0 127 c then String c (decode_replace s1)
      else if between 194 223 c then
        match s1 with
        | String c1 s2 =>
            if is_continuation c1 then String c (String c1 (decode_replace s2))
            else replacement_character ++ decode_replace s1
        | EmptyString => replacement_character
        end
      else if between 224 239 c then
        match s1 with
        | String c1 s2 =>
            if is_second c c1 then
              match s2 with
              | String c2 s3 =>
                  if is_continuation c2
                  then String c (String c1 (String c2 (decode_replace s3)))
                  else replacement_character ++ decode_replace s2
              | EmptyString => replacement_character
              end
            else replacement_character ++ decode_replace s1
        | EmptyString => replacement_character
        end
      else if between 240 244 c then
        match s1 with
        | String c1 s2 =>
            if is_second c c1 then
              match s2 with
              | String c2 s3 =>
                  if is_continuation c2 then
                    match s3 with
                    | String c3 s4 =>
                        if is_continuation c3
                        then String c (String c1 (String c2 (String c3 (decode_replace s4))))
                        else replacement_character ++ decode_replace s3
                    | EmptyString => replacement_character
                    end
                  else replacement_character ++ decode_replace s2
              | EmptyString => replacement_character
              end
            else replacement_character ++ decode_replace s1
        | EmptyString => replacement_character
        end
      else replacement_character ++ decode_replace s1
  end.

(** [unquote(s)]: each run of ASCII characters is unquoted to bytes and
    decoded; the characters between the runs stay. *)
Fixpoint unquote_runs (run s : string) : string :=
  match s with
  | EmptyString => decode_replace (unquote_to_bytes run)
  | String c s' =>
      if between 0 127 c then unquote_runs (run ++ String c EmptyString) s'
      else decode_replace (unquote_to_bytes run) ++ String c (unquote_runs EmptyString s')
  end.

Definition unquote (s : string) : string := unquote_runs EmptyString s.

(** [parse_qs]'s accumulation: a repeated key extends its list. *)
Definition add_value (k v : string) (d : Py.dict) : Py.dict :=
  match Py.get k d with
  | Some (Py.VList l) => Py.set k (Py.VList (l ++ [v])) d
  | _ => Py.set k (Py.VList [v]) d
  end.

(** [parse_qs(query)]: fields without [=] and fields with an empty value are
    dropped; [+] is a space; names and values are unquoted. *)
Definition parse_qs (query : string) : Py.dict :=
  fold_left (fun d field =>
    match PyStr.after_char "=" field with
    | None => d
    | Some v =>
        match v with
        | EmptyString => d
        | String _ _ =>
            add_value (unquote (PyStr.replace "+" " " (PyStr.before_char "=" field)))
                      (unquote (PyStr.replace "+" " " v)) d
        end
    end) (PyStr.split_char "&" query) [].

(** The first steps of [urlsplit]: control characters and spaces before the
    URL are stripped, and tabs and line ends are removed wherever they are. *)
Definition is_c0_or_space (c : ascii) : bool := (nat_of_ascii c <=? 32)%nat.

Fixpoint lstrip_c0 (s : string) : string :=
  match s with
  | EmptyString => EmptyString
  | String c s' => if is_c0_or_space c then lstrip_c0 s' else s
  end.

Definition is_unsafe (c : ascii) : bool :=
  let n := nat_of_ascii c in
  (n =? 9)%nat || (n =? 10)%nat || (n =? 13)%nat.

Fixpoint remove_unsafe (s : string) : string :=
  match s with
  | EmptyString => EmptyString
  | String c s' => if is_unsafe c then remove_unsafe s' else String c (remove_unsafe s')
  end.

(** The scheme of a URL: letters, digits, [+], [-] and [.] up to the first
    colon, the first of them a letter; [urlsplit] returns it in lower case,
    and [urlunsplit] writes it back so. *)
Definition is_alpha (c : ascii) : bool :=
  let n := nat_of_ascii c in
  ((65 <=? n)%nat && (n <=? 90)%nat) || ((97 <=? n)%nat && (n <=? 122)%nat).

Definition is_scheme_char (c : ascii) : bool :=
  Re.is_alnum c || Ascii.eqb c "+" || Ascii.eqb c "-" || Ascii.eqb c ".".

Definition lower (c : ascii) : ascii :=
  let n := nat_of_ascii c in
  if (65 <=? n)%nat && (n <=? 90)%nat then ascii_of_nat (n + 32) else c.

(** The lowered scheme and what follows its colon, when the text up to the
    first colon is made of scheme characters. *)
Fixpoint split_scheme (s : string) : option (string * string) :=
  match s with
  | EmptyString => None
  | String c s' =>
      if Ascii.eqb c ":" then Some (EmptyString, s')
      else if is_scheme_char c then
        match split_scheme s' with
        | Some (scheme, rest) => Some (String (lower c) scheme, rest)
        | None => None
        end
      else None
  end.

Definition lower_scheme (url : string) : string :=
  match url with
  | EmptyString => url
  | String c _ =>
      if is_alpha c then
        match split_scheme url with
        | Some (scheme, rest) => (scheme ++ String ":" rest)%string
        | None => url
        end
      else url
  end.

(** [full_url_to_query(url)]: the URL without query and fragment, and the
    parsed query. *)
Definition full_url_to_query (url : string) : string * Py.dict :=
  let url := lower_scheme (remove_unsafe (lstrip_c0 url)) in
  let no_fragment := PyStr.before_char "#" url in
  let endpoint := PyStr.before_char "?" no_fragment in
  let query := match PyStr.after_char "?" no_fragment with
               | Some q => q
               | None => EmptyString
               end in
  (endpoint, parse_qs query).

(** [os.path.join(a, b)] (POSIX). *)
Definition path_join (a b : string) : string :=
  if PyStr.startswith "/" b then b
  else match a with
       | EmptyString => b
       | String _ _ => if PyStr.endswith "/" a then (a ++ b)%string else (a ++ "/" ++ b)%string
       end.

End Url.

Definition bitbucket_api_url : string := "https://api.bitbucket.org/2.0/".

(** [bb_endpoint_to_full_url] *)
Definition bb_endpoint_to_full_url (endpoint : string) : string :=
  (bitbucket_api_url ++ endpoint)%string.

(** ** The rewrite rule engine: [BitBucketExport.rewrite_url] *)

Module Rewrite.
Import Py.

(** An element of [endpoint_match]: a string, or a compiled pattern. *)
Inductive matcher : Type :=
| MStr (s : string)
| MPat (r : Re.regex).

Record rewrite : Type := {
  params_match : dict;
  params_to_update : dict;
}.

Record rule : Type := {
  endpoint_match : list matcher;
  rewrites : list rewrite;
}.

(** The loop over [rule['endpoint_match']], which stops at the first match:
    [endpoint == endpoint_match] for a string,
    [endpoint_match.findall(endpoint)] for a pattern. *)
Definition endpoint_matches (endpoint : string) (ms : list matcher) : bool :=
  existsb (fun m =>
    match m with
    | MStr s => String.eqb endpoint s
    | MPat r => Re.found r endpoint
    end) ms.

(** The loop over [rewrite['params_match'].items()], which leaves
    [do_rewrite] false at the first predicate that fails. *)
Fixpoint do_rewrite (pm : dict) (params : dict) : bool :=
  match pm with
  | [] => true
  | (name, wanted) :: pm' =>
      if value_eqb wanted (VStr "*") then do_rewrite pm' params
      else
        match wanted with
        | VNone =>
            match get name params with
            | Some v => if negb (value_eqb v VNone) then false else do_rewrite pm' params
            | None => do_rewrite pm' params
            end
        | _ =>
            match get name params with
            | Some v => if negb (value_eqb v wanted) then false else do_rewrite pm' params
            | None => false
            end
        end
  end.

(** The loop over [rewrite['params_to_update'].items()]. *)
Definition update_params (upd : dict) (params : dict) : dict :=
  fold_left (fun ps kv =>
    match snd kv with
    | VNone => if mem (fst kv) ps then del (fst kv) ps else set (fst kv) VNone ps
    | v => set (fst kv) v ps
    end) upd params.

Definition apply_rewrite (params : dict) (rw : rewrite) : dict :=
  if do_rewrite (params_match rw) params
  then update_params (params_to_update rw) params
  else params.

Definition apply_rule (endpoint : string) (params : dict) (r : rule) : dict :=
  if endpoint_matches endpoint (endpoint_match r)
  then fold_left apply_rewrite (rewrites r) params
  else params.

Definition rewrite_url (endpoint : string) (params : dict) (rules : list rule)
    : string * dict :=
  (endpoint, fold_left (apply_rule endpoint) rules params).

(** The rewrites of the rules that match an endpoint, in the order in which
    [rewrite_url] goes through them. *)
Definition matching_rewrites (endpoint : string) (rules : list rule) : list rewrite :=
  concat (map rewrites
    (List.filter (fun r => endpoint_matches endpoint (endpoint_match r)) rules)).

(** *** The rules [__backup_api] declares

    The table as the source writes it: endpoint matchers are strings or
    pattern texts with owner and repository spliced in by [format]. *)

Inductive raw_matcher : Type :=
| RStr (s : string)
| RPat (pattern : string).

Definition default (name : string) (v : value) : rewrite :=
  {| params_match := [(name, VNone)]; params_to_update := [(name, v)] |}.

Definition sort_by_creation : rewrite :=
  {| params_match := [("sort", VStr "*")];
     params_to_update := [("sort", VStr "created_on")] |}.

Definition repo_prefix (owner repo : string) : string :=
  ("repositories/" ++ owner ++ "/" ++ repo)%string.

(** [r'repositories\/{owner}\/{repo}...'.format(...)] *)
Definition repo_pattern (owner repo rest : string) : string :=
  ("repositories\/" ++ owner ++ "\/" ++ repo ++ rest)%string.

(** The tail most patterns end with: an optional run of question marks,
    then anything that does not start with a slash. *)
Definition no_subpath : string := ("(\?*" ++ ")(?!\/).*")%string.

Definition rules_source (owner repo : string)
    : list (list raw_matcher * list rewrite) :=
  [ (* special case for pull requests *)
    ([RStr (repo_prefix owner repo ++ "/pullrequests")],
     [ default "state" (VList ["MERGED"; "OPEN"; "SUPERSEDED"; "DECLINED"]);
       default "pagelen" (VInt 50);
       default "page" (VInt 1);
       sort_by_creation ]);
    (* a max pagelen of 50, no page by default *)
    ([RPat (repo_pattern owner repo ("/pullrequests\/(\d+)\/activity" ++ no_subpath));
      RStr (repo_prefix owner repo ++ "/pullrequests/activity")],
     [ default "pagelen" (VInt 50);
       sort_by_creation ]);
    (* a max pagelen of 100, no page by default *)
    ([RPat (repo_pattern owner repo ("/issues\/(\d+)\/changes" ++ no_subpath));
      RPat (repo_pattern owner repo ("/pullrequests\/(\d+)\/commits" ++ no_subpath));
      RStr (repo_prefix owner repo ++ "/refs/tags")],
     [ default "pagelen" (VInt 100);
       sort_by_creation ]);
    (* a max pagelen of 100 *)
    ([RPat (repo_pattern owner repo ("/issues\/(\d+)\/attachments" ++ no_subpath));
      RStr (repo_prefix owner repo ++ "/components");
      RStr (repo_prefix owner repo ++ "/milestones");
      RStr (repo_prefix owner repo ++ "/refs");
      RStr (repo_prefix owner repo ++ "/refs/branches");
      RStr (repo_prefix owner repo ++ "/versions");
      RStr (repo_prefix owner repo ++ "/watchers")],
     [ default "pagelen" (VInt 100);
       default "page" (VInt 1) ]);
    (* a max pagelen of 100, sorted by creation date *)
    ([RPat (repo_pattern owner repo ("/pullrequests\/(\d+)\/comments" ++ no_subpath));
      RPat (repo_pattern owner repo ("/pullrequests\/(\d+)\/statuses" ++ no_subpath));
      RPat (repo_pattern owner repo ("/issues\/(\d+)\/comments" ++ no_subpath));
      RPat (repo_pattern owner repo ("/commit\/(.+?)\/comments" ++ no_subpath));
      RPat (repo_pattern owner repo ("/commit\/(.+?)\/statuses" ++ no_subpath));
      RPat (repo_pattern owner repo "/commits\/.*");
      RStr (repo_prefix owner repo ++ "/commits");
      RStr (repo_prefix owner repo ++ "/forks");
      RStr (repo_prefix owner repo ++ "/issues")],
     [ default "pagelen" (VInt 100);
       default "page" (VInt 1);
       sort_by_creation ]);
    (* a max pagelen of 5000 *)
    ([RPat (repo_pattern owner repo "\/diffstat\/.*")],
     [ default "pagelen" (VInt 5000);
       default "page" (VInt 1) ]) ].

Definition compile_matcher (m : raw_matcher) : option matcher :=
  match m with
  | RStr s => Some (MStr s)
  | RPat p => MPat <$> Re.compile p
  end.

Definition compile_rule (r : list raw_matcher * list rewrite) : option rule :=
  ms ← mapM compile_matcher (fst r);
  Some {| endpoint_match := ms; rewrites := snd r |}.

(** The [rewrite_rules] of [__backup_api] for a repository; [None] when a
    spliced pattern is outside the syntax [Re.compile] reads. *)
Definition rewrite_rules (owner repo : string) : option (list rule) :=
  mapM compile_rule (rules_source owner repo).

End Rewrite.

(** ** The storage path of [get_and_save_json] *)

Module Path.
Import Py.

(** The parameters that name the file: [sort] is dropped, [ctx] is dropped
    when [page] is there too, [pagelen] is dropped. *)
Definition simplify (params : dict) : dict :=
  let p1 := if mem "sort" params then del "sort" params else params in
  let p2 := if mem "page" p1 && mem "ctx" p1 then del "ctx" p1 else p1 in
  if mem "pagelen" p2 then del "pagelen" p2 else p2.

(** [endpoint_path] as [get_and_save_json] builds it from the rewritten
    endpoint and parameters. *)
Definition endpoint_path_of (save_path rewritten_endpoint : string)
    (rewritten_params : dict) : string :=
  let suffix := Url.urlencode (simplify rewritten_params) in
  let base := Url.path_join save_path rewritten_endpoint in
  ((match suffix with
    | EmptyString => base
    | String _ _ => base ++ "_" ++ suffix
    end) ++ ".json")%string.

(** The path [get_and_save_json] computes for an endpoint and its parsed
    parameters under a rule table. *)
Definition storage_path (save_path : string) (rules : list Rewrite.rule)
    (endpoint : string) (params : dict) : string :=
  let '(rewritten_endpoint, rewritten_params) := Rewrite.rewrite_url endpoint params rules in
  endpoint_path_of save_path rewritten_endpoint rewritten_params.

(** The URL that is queried. *)
Definition rewritten_url (rules : list Rewrite.rule) (endpoint : string) (params : dict)
    : string :=
  let '(rewritten_endpoint, rewritten_params) := Rewrite.rewrite_url endpoint params rules in
  let encoded := Url.urlencode rewritten_params in
  match encoded with
  | EmptyString => (bitbucket_api_url ++ rewritten_endpoint)%string
  | String _ _ => (bitbucket_api_url ++ rewritten_endpoint ++ "?" ++ encoded)%string
  end.

(** The first lines of [get_and_save_json]: endpoint and parameters of a URL. *)
Definition split_url (base_url : string) : string * dict :=
  let '(endpoint, params) := Url.full_url_to_query base_url in
  let endpoint := PyStr.replace bitbucket_api_url "" endpoint in
  (PyStr.before_char "?" endpoint, params).

End Path.

(** ** [DummyResponse]: a saved file read back as a response

    [cache] is an attribute of the class, not of an instance or of an
    exporter: one store for the whole process.  Objects live in a heap and
    are named by their address, so that the object [__new__] hands back for
    a cached path is the very object of the first construction. *)

Module DummyResponse.

(** The attributes of an instance; [None] is an attribute not yet set. *)
Record obj : Type := {
  path : option string;
  status_code : option Z;
  already_processed : option bool;
}.

(** Addresses in the heap. *)
Abbreviation ref := nat.

Record class_state : Type := {
  heap : list obj;
  cache : gmap string ref;
}.

(** No instance yet, [cache = {}]. *)
Definition initial : class_state := {| heap := []; cache := ∅ |}.

(** What [object.__new__] returns: no attribute is set. *)
Definition blank : obj :=
  {| path := None; status_code := None; already_processed := None |}.

Definition set_already_processed (b : bool) (o : obj) : obj :=
  {| path := path o; status_code := status_code o; already_processed := Some b |}.

(** [__new__(cls, path)] *)
Definition new (p : string) (st : class_state) : ref * class_state :=
  match cache st !! p with
  | Some existing =>
      (existing,
       {| heap := alter (set_already_processed true) existing (heap st);
          cache := cache st |})
  | None =>
      let r := length (heap st) in
      (r, {| heap := heap st ++ [blank]; cache := <[p := r]> (cache st) |})
  end.

(** [getattr(self, 'already_processed', None)] *)
Definition getattr_already_processed (r : ref) (st : class_state) : option bool :=
  o ← heap st !! r; already_processed o.

(** [__init__(self, path)] *)
Definition init (r : ref) (p : string) (st : class_state) : class_state :=
  match getattr_already_processed r st with
  | Some _ => st
  | None =>
      {| heap := <[r := {| path := Some p; status_code := Some 200%Z;
                           already_processed := Some false |}]> (heap st);
         cache := cache st |}
  end.

(** [DummyResponse(path)]: [__new__], then [__init__] on what it returned. *)
Definition construct (p : string) (st : class_state) : ref * class_state :=
  let '(r, st1) := new p st in (r, init r p st1).

(** A run of constructions, as one process makes them. *)
Definition constructs (ps : list string) (st : class_state) : class_state :=
  fold_left (fun st p => snd (construct p st)) ps st.

End DummyResponse.

(** ** Parsed JSON, as far as the crawler looks into it *)

Module Json.

Inductive json : Type :=
| JNull
| JBool (b : bool)
| JNum (literal : string)
| JStr (s : string)
| JArr (items : list json)
| JObj (fields : list (string * json)).

Fixpoint field (k : string) (fs : list (string * json)) : option json :=
  match fs with
  | [] => None
  | (k', v) :: fs' => if String.eqb k k' then Some v else field k fs'
  end.

(** ["next" in json_data]; [None] is the [TypeError] of a value that is no
    container. *)
Definition contains_next (j : json) : option bool :=
  match j with
  | JObj fs => Some (match field "next" fs with Some _ => true | None => false end)
  | JArr l => Some (existsb (fun x => match x with JStr s => String.eqb s "next" | _ => false end) l)
  | JStr s => Some (PyStr.contains "next" s)
  | _ => None
  end.

(** [json_data['next']] as a URL string; [None] is the exception raised on
    anything else. *)
Definition get_next (j : json) : option string :=
  match j with
  | JObj fs => match field "next" fs with Some (JStr u) => Some u | _ => None end
  | _ => None
  end.

End Json.

(** ** The crawl tree and the recursive crawler *)

Module Crawler.

(** One entry of [self.__tree]. *)
Inductive node : Type :=
  Node {
    url : string;
    rewritten_url : string;
    endpoint_path : string;
    already_processed : bool;
    children : list node;
  }.

Definition with_children (n : node) (cs : list node) : node :=
  Node (url n) (rewritten_url n) (endpoint_path n) (already_processed n) cs.

Definition with_already_processed (n : node) (b : bool) : node :=
  Node (url n) (rewritten_url n) (endpoint_path n) b (children n).

(** The list reached by [for i in location[:-1]: tree = tree[i]['children']];
    [None] is an [IndexError]. *)
Fixpoint level (path : list nat) (forest : list node) : option (list node) :=
  match path with
  | [] => Some forest
  | i :: path' => n ← forest !! i; level path' (children n)
  end.

(** The forest after a change [f] made to the list at [path] through that
    reference. *)
Fixpoint update_level (f : list node -> list node) (path : list nat) (forest : list node)
    : option (list node) :=
  match path with
  | [] => Some (f forest)
  | i :: path' =>
      n ← forest !! i;
      cs ← update_level f path' (children n);
      Some (<[i := with_children n cs]> forest)
  end.

(** [tree.append(n)] *)
Definition append_at (path : list nat) (n : node) (forest : list node) : option (list node) :=
  update_level (fun l => l ++ [n]) path forest.

(** [tree[-1]['already_processed'] = True] *)
Definition mark_last (l : list node) : list node :=
  match l with
  | [] => []
  | _ :: _ => <[length l - 1 := with_already_processed (List.last l (Node "" "" "" false [])) true]> l
  end.

Record ignore_rule : Type := {
  rule_type : string;
  rule_not : bool;
  rule_string : string;
}.

(** The loop over [ignore_rules] for one reference; it stops at the first
    rule that sets [skip]. *)
Fixpoint skipped (rules : list ignore_rule) (result : string) (skip : bool) : bool :=
  match rules with
  | [] => skip
  | r :: rules' =>
      let test (b : bool) := if rule_not r then negb b else b in
      let skip' :=
        if String.eqb (rule_type r) "in" then test (PyStr.contains (rule_string r) result)
        else if String.eqb (rule_type r) "startswith" then test (PyStr.startswith (rule_string r) result)
        else if String.eqb (rule_type r) "endswith" then test (PyStr.endswith (rule_string r) result)
        else skip in
      if skip' then true else skipped rules' result skip'
  end.

(** The exporter's attributes, and with them what the crawl reads and
    writes outside of it: the files under the project path, the class-level
    [DummyResponse] store, and the requests sent so far. *)
Record state : Type := {
  owner : string;
  repository : string;
  save_path : string;
  file_download_regexes : list Re.regex;
  tree : list node;
  current_tree_location : list nat;
  files_downloaded : Z;
  duplicates_skipped : Z;
  already_downloaded : Z;
  fs : gmap string string;
  dummy : DummyResponse.class_state;
  requests : list string;
}.

Definition set_tree (t : list node) (s : state) : state :=
  {| owner := owner s; repository := repository s; save_path := save_path s;
     file_download_regexes := file_download_regexes s; tree := t;
     current_tree_location := current_tree_location s;
     files_downloaded := files_downloaded s; duplicates_skipped := duplicates_skipped s;
     already_downloaded := already_downloaded s; fs := fs s; dummy := dummy s;
     requests := requests s |}.

Definition set_location (l : list nat) (s : state) : state :=
  {| owner := owner s; repository := repository s; save_path := save_path s;
     file_download_regexes := file_download_regexes s; tree := tree s;
     current_tree_location := l;
     files_downloaded := files_downloaded s; duplicates_skipped := duplicates_skipped s;
     already_downloaded := already_downloaded s; fs := fs s; dummy := dummy s;
     requests := requests s |}.

Definition set_counters (fd ds ad : Z) (s : state) : state :=
  {| owner := owner s; repository := repository s; save_path := save_path s;
     file_download_regexes := file_download_regexes s; tree := tree s;
     current_tree_location := current_tree_location s;
     files_downloaded := fd; duplicates_skipped := ds;
     already_downloaded := ad; fs := fs s; dummy := dummy s;
     requests := requests s |}.

Definition set_fs (f : gmap string string) (s : state) : state :=
  {| owner := owner s; repository := repository s; save_path := save_path s;
     file_download_regexes := file_download_regexes s; tree := tree s;
     current_tree_location := current_tree_location s;
     files_downloaded := files_downloaded s; duplicates_skipped := duplicates_skipped s;
     already_downloaded := already_downloaded s; fs := f; dummy := dummy s;
     requests := requests s |}.

Definition set_dummy (d : DummyResponse.class_state) (s : state) : state :=
  {| owner := owner s; repository := repository s; save_path := save_path s;
     file_download_regexes := file_download_regexes s; tree := tree s;
     current_tree_location := current_tree_location s;
     files_downloaded := files_downloaded s; duplicates_skipped := duplicates_skipped s;
     already_downloaded := already_downloaded s; fs := fs s; dummy := d;
     requests := requests s |}.

Definition set_requests (r : list string) (s : state) : state :=
  {| owner := owner s; repository := repository s; save_path := save_path s;
     file_download_regexes := file_download_regexes s; tree := tree s;
     current_tree_location := current_tree_location s;
     files_downloaded := files_downloaded s; duplicates_skipped := duplicates_skipped s;
     already_downloaded := already_downloaded s; fs := fs s; dummy := dummy s;
     requests := r |}.

Definition set_repository (o r : string) (rx : list Re.regex) (s : state) : state :=
  {| owner := o; repository := r; save_path := save_path s;
     file_download_regexes := rx; tree := tree s;
     current_tree_location := current_tree_location s;
     files_downloaded := files_downloaded s; duplicates_skipped := duplicates_skipped s;
     already_downloaded := already_downloaded s; fs := fs s; dummy := dummy s;
     requests := requests s |}.

(** *** Statements: state, exceptions, and the recursion bound *)

Inductive exn : Type :=
| IndexError
| TypeError
| AttributeError
| FileNotFoundError
| ReError
| RequestException
| NotADirectoryError
| IsADirectoryError.

Inductive res (A : Type) : Type :=
| Ok (a : A) (s : state)
| Raise (e : exn) (s : state)
| OutOfFuel.
Arguments Ok {A} a s.
Arguments Raise {A} e s.
Arguments OutOfFuel {A}.

Definition M (A : Type) : Type := state -> res A.

Definition ret {A} (a : A) : M A := fun s => Ok a s.

Definition bind {A B} (m : M A) (k : A -> M B) : M B :=
  fun s =>
    match m s with
    | Ok a s' => k a s'
    | Raise e s' => Raise e s'
    | OutOfFuel => OutOfFuel
    end.

Definition raise {A} (e : exn) : M A := fun s => Raise e s.
Definition gets {A} (f : state -> A) : M A := fun s => Ok (f s) s.
Definition modify (f : state -> state) : M unit := fun s => Ok tt (f s).

(** A value that may be missing, with the exception raised when it is. *)
Definition expect {A} (e : exn) (o : option A) : M A :=
  match o with
  | Some a => ret a
  | None => raise e
  end.

Notation "'let!' x ':=' m 'in' k" := (bind m (fun x => k))
  (at level 10, x name, m at level 100, k at level 200).

(** [for x in l: body(x)] *)
Fixpoint for_each {A} (l : list A) (body : A -> M unit) : M unit :=
  match l with
  | [] => ret tt
  | x :: l' => let! _ := body x in for_each l' body
  end.

(** *** The position in the tree *)

Definition tree_new_level : M unit :=
  modify (fun s => set_location (current_tree_location s ++ [0]) s).

Definition tree_finished_level : M unit :=
  modify (fun s => set_location (removelast (current_tree_location s)) s).

(** The last index goes up by one; an empty tuple has no last element. *)
Definition tree_increment_level : M unit :=
  let! loc := gets current_tree_location in
  match loc with
  | [] => raise IndexError
  | _ :: _ => modify (set_location (removelast loc ++ [List.last loc 0 + 1]))
  end.

(** The navigation to the current list, then a change made to it. *)
Definition on_current_level (f : list node -> list node) : M unit :=
  let! s := gets id in
  let! t := expect IndexError (update_level f (removelast (current_tree_location s)) (tree s)) in
  modify (set_tree t).

Definition add_files_downloaded (d : Z) : M unit :=
  modify (fun s => set_counters (files_downloaded s + d) (duplicates_skipped s) (already_downloaded s) s).
Definition add_duplicates_skipped (d : Z) : M unit :=
  modify (fun s => set_counters (files_downloaded s) (duplicates_skipped s + d) (already_downloaded s) s).
Definition add_already_downloaded (d : Z) : M unit :=
  modify (fun s => set_counters (files_downloaded s) (duplicates_skipped s) (already_downloaded s + d) s).

(** [os.path.exists(p)] *)
Definition path_exists (p : string) : M bool :=
  gets (fun s => bool_decide (is_Some (fs s !! p))).

Definition write_file (p content : string) : M unit :=
  modify (fun s => set_fs (<[p := content]> (fs s)) s).

Definition read_file (p : string) : M string :=
  let! s := gets id in expect FileNotFoundError (fs s !! p).

(** *** Directories

    The disk is given by its regular files, by path, and paths are taken as
    they are written; a directory is there when a file lies below it. *)

(** The text up to the last slash, and the text after it. *)
Fixpoint split_at_last_slash (p : string) : option (string * string) :=
  match p with
  | EmptyString => None
  | String c p' =>
      match split_at_last_slash p' with
      | Some (h, t) => Some (String c h, t)
      | None => if Ascii.eqb c "/" then Some (String c EmptyString, p') else None
      end
  end.

(** [s.rstrip('/')] *)
Fixpoint rstrip_slashes (s : string) : string :=
  match s with
  | EmptyString => EmptyString
  | String c s' =>
      match rstrip_slashes s' with
      | EmptyString => if Ascii.eqb c "/" then EmptyString else String c EmptyString
      | String _ _ as r => String c r
      end
  end.

(** [os.path.split(p)]: the head loses the slashes it ends with, unless it
    is made of slashes only. *)
Definition path_split (p : string) : string * string :=
  match split_at_last_slash p with
  | Some (h, t) =>
      (match rstrip_slashes h with
       | EmptyString => h
       | String _ _ as r => r
       end, t)
  | None => (EmptyString, p)
  end.

(** The directory of a path, its directory, and so on. *)
Fixpoint dirs_above (fuel : nat) (p : string) : list string :=
  match fuel with
  | O => []
  | S fuel' =>
      let head := fst (path_split p) in
      if String.eqb head EmptyString || String.eqb head p then []
      else head :: dirs_above fuel' head
  end.

(** A regular file where a directory of [p] has to be. *)
Definition file_above (files : gmap string string) (p : string) : bool :=
  existsb (fun d => bool_decide (is_Some (files !! d))) (dirs_above (String.length p) p).

(** A directory at [p], with or without slashes at its end: a file lies
    below it; the root is always there. *)
Definition is_dir (files : gmap string string) (p : string) : bool :=
  match rstrip_slashes p with
  | EmptyString => negb (String.eqb p EmptyString)
  | String _ _ as d =>
      existsb (fun kv => PyStr.startswith (d ++ "/") (fst kv)) (map_to_list files)
  end.

(** [os.path.exists(p)] for a path that may be a directory. *)
Definition on_disk (files : gmap string string) (p : string) : bool :=
  bool_decide (is_Some (files !! p)) || is_dir files p.

(** [try: os.makedirs(head)] / [except FileExistsError: pass]: a directory
    that is there is passed over; a regular file above it is not, and
    neither is the empty path. *)
Definition makedirs (head : string) : M unit :=
  match head with
  | EmptyString => raise FileNotFoundError
  | String _ _ =>
      let! s := gets id in
      if file_above (fs s) head then raise NotADirectoryError else ret tt
  end.

(** [with open(p, 'wb') as fd] and the chunks written to it. *)
Definition open_and_write (p content : string) : M unit :=
  let! s := gets id in
  if file_above (fs s) p then raise NotADirectoryError
  else
    match snd (path_split p) with
    | EmptyString => raise IsADirectoryError
    | String _ _ => write_file p content
    end.

(** [DummyResponse(path)] on the class-level store. *)
Definition dummy_response (p : string) : M DummyResponse.ref :=
  fun s =>
    let '(r, d) := DummyResponse.construct p (dummy s) in
    Ok r (set_dummy d s).

Definition dummy_attr {A} (get : DummyResponse.obj -> option A) (r : DummyResponse.ref) : M A :=
  let! s := gets id in
  expect AttributeError (o ← DummyResponse.heap (dummy s) !! r; get o).

(** What [get_and_save_json] holds in [response]: an answer of the service,
    or a [DummyResponse] over a saved file. *)
Inductive response : Type :=
| Net (status : Z) (body : string)
| Saved (r : DummyResponse.ref).

Definition status_code (resp : response) : M Z :=
  match resp with
  | Net status _ => ret status
  | Saved r => dummy_attr DummyResponse.status_code r
  end.

(** [response.text]: a [DummyResponse] reads its file at every access. *)
Definition text (resp : response) : M string :=
  match resp with
  | Net _ body => ret body
  | Saved r => let! p := dummy_attr DummyResponse.path r in read_file p
  end.

(** The patterns of the embedded files, as [__backup_api] compiles them. *)
Definition file_download_patterns (owner repo : string) : list string :=
  let q := PyStr.dq in
  [ ("\" ++ q ++ "(https://bitbucket\.org/repo/(?:[a-zA-Z0-9]+)/images/(?:.+?))\\\" ++ q)%string;
    ("\" ++ q ++ "(https://pf-emoji-service--cdn\.(?:[a-zA-Z0-9\-]+)\.prod\.public\.atl-paas\.net/(?:.+?))\\\" ++ q)%string;
    ("\" ++ q ++ "(https://secure.gravatar.com/avatar/(?:.+?))\" ++ q)%string;
    ("\" ++ q ++ "(https://bytebucket\.org/(?:.+?))\" ++ q)%string;
    ("\" ++ q ++ "(https://api\.bitbucket\.org/2\.0/repositories/" ++ owner ++ "/" ++ repo
       ++ "/issues/(?:\d+)/attachments/(?:.+?))\" ++ q)%string ].

(** The module-level [prog]: a quoted API URL, the endpoint captured. *)
Definition prog_pattern : string :=
  ("\" ++ PyStr.dq ++ bitbucket_api_url ++ "(.*?)\" ++ PyStr.dq)%string.

Definition issue_pattern (owner repo : string) : string :=
  ("repositories/" ++ owner ++ "/" ++ repo ++ "/issues/(\d+)$")%string.

(** The characters [download_file] strips from a path. *)
Definition special_chars : list string :=
  ["?"; ":"; PyStr.bs; "*"; "<"; ">"; PyStr.dq; "|"].

Definition download_path (save_path base_url : string) : string :=
  let corrected :=
    PyStr.replace "http://" ""
      (PyStr.replace "https://" ""
        (PyStr.replace bitbucket_api_url ""
          (Url.unquote (PyStr.replace "%2F" "" base_url)))) in
  Url.path_join save_path (fold_left (fun p c => PyStr.replace c "" p) special_chars corrected).

Section World.

(** The service and the libraries the crawl calls into: the answer to a GET
    of a URL (status and body), the bytes of a file download ([None]: the
    request raises), and [json.loads] / [json.dumps]. *)
Variable http_get : string -> Z * string.
Variable fetch_file : string -> option string.
Variable json_loads : string -> option Json.json.
Variable json_dumps : Json.json -> string.

(** [bb_query_api(url, auth)]: one more request, and its answer. *)
Definition bb_query_api (u : string) : M response :=
  fun s =>
    let '(status, body) := http_get u in
    Ok (Net status body) (set_requests (requests s ++ [u]) s).

(** [requests.get(url, stream=True)] and the chunks written out. *)
Definition fetch (u : string) : M string :=
  fun s =>
    let s' := set_requests (requests s ++ [u]) s in
    match fetch_file u with
    | Some content => Ok content s'
    | None => Raise RequestException s'
    end.

(** [response.json()] under [try ... except BaseException]: [None] is the
    exception caught. *)
Definition json_of (resp : response) : M (option Json.json) :=
  match resp with
  | Net _ body => ret (json_loads body)
  | Saved r =>
      let! p := dummy_attr DummyResponse.path r in
      let! s := gets id in
      ret (content ← fs s !! p; json_loads content)
  end.

(** [download_file(base_url)] *)
Definition download_file (base_url : string) : M unit :=
  let! sp := gets save_path in
  let save_path := download_path sp base_url in
  let! _ := on_current_level (fun l => l ++ [Node base_url base_url save_path false []]) in
  let! downloaded := gets (fun s => on_disk (fs s) save_path) in
  if downloaded : bool then
    let! _ := on_current_level mark_last in
    add_already_downloaded 1
  else
    (* create the dir structure *)
    let! _ := makedirs (fst (path_split save_path)) in
    let! content := fetch base_url in
    let! _ := open_and_write save_path content in
    add_files_downloaded 1.

(** A call that adds one entry to the current list, and the step to the
    next index that follows every such call. *)
Definition then_increment (call : M unit) : M unit :=
  let! _ := call in tree_increment_level.

(** [if "next" in json_data: ...]: the other pages. *)
Definition follow_next (recurse : string -> M unit) (json_data : Json.json) : M unit :=
  let! has_next := expect TypeError (Json.contains_next json_data) in
  if has_next : bool then
    let! next := expect TypeError (Json.get_next json_data) in
    then_increment (recurse next)
  else ret tt.

(** The loop over [self.file_download_regexes]: the files referenced. *)
Definition download_referenced_files (resp : response) : M unit :=
  let! regexes := gets file_download_regexes in
  for_each regexes (fun compiled_regex =>
    let! body := text resp in
    for_each (Re.findall1 compiled_regex body) (fun result =>
      then_increment (download_file result))).

(** The loop over [prog.findall(response.text)]: the other API endpoints
    this data refers to, with the changes of every issue besides. *)
Definition follow_references (recurse : string -> M unit) (ignore_rules : list ignore_rule)
    (resp : response) : M unit :=
  let! prog := expect ReError (Re.compile prog_pattern) in
  let! body := text resp in
  for_each (Re.findall1 prog body) (fun result =>
    let! s := gets id in
    let! issue := expect ReError (Re.compile (issue_pattern (owner s) (repository s))) in
    let! _ :=
      match Re.match_at issue result with
      | Some _ => then_increment (recurse (bb_endpoint_to_full_url (result ++ "/changes")))
      | None => ret tt
      end in
    if skipped ignore_rules result false then ret tt
    else then_increment (recurse (bb_endpoint_to_full_url result))).

(** The part of [get_and_save_json] after [response] is known; [recurse] is
    [get_and_save_json] itself with the same rules. *)
Definition handle_response (recurse : string -> M unit) (ignore_rules : list ignore_rule)
    (endpoint_path : string) (resp : response) : M unit :=
  let! status := status_code resp in
  if (status =? 200)%Z then
    let! parsed := json_of resp in
    match parsed with
    | None => add_files_downloaded (-1)
    | Some json_data =>
        let! _ := write_file endpoint_path (json_dumps json_data) in
        let! _ := tree_new_level in
        let! _ := follow_next recurse json_data in
        let! _ := download_referenced_files resp in
        let! _ := follow_references recurse ignore_rules resp in
        tree_finished_level
    end
  else
    (* 401, 404 and any other status: an error is printed *)
    add_files_downloaded (-1).

(** [get_and_save_json(base_url, ignore_rules, rewrite_rules)]; [fuel]
    bounds the depth of the recursion. *)
Fixpoint get_and_save_json (fuel : nat) (ignore_rules : list ignore_rule)
    (rewrite_rules : list Rewrite.rule) (base_url : string) : M unit :=
  match fuel with
  | O => fun _ => OutOfFuel
  | S fuel' =>
      let '(endpoint, params) := Path.split_url base_url in
      (* rewrite URL; modify rewritten URL for save path *)
      let rewritten_base_url := Path.rewritten_url rewrite_rules endpoint params in
      let! sp := gets save_path in
      let endpoint_path := Path.storage_path sp rewrite_rules endpoint params in
      (* save this URL in the tree *)
      let! _ := on_current_level (fun l =>
        l ++ [Node base_url rewritten_base_url endpoint_path false []]) in
      (* create the dir structure: the directories of the path are taken to
         be there, or to be made here *)
      let! saved := path_exists endpoint_path in
      if saved : bool then
        let! r := dummy_response endpoint_path in
        let! seen := dummy_attr DummyResponse.already_processed r in
        if seen : bool then
          let! _ := on_current_level mark_last in
          add_duplicates_skipped 1
        else
          let! _ := add_already_downloaded 1 in
          handle_response (get_and_save_json fuel' ignore_rules rewrite_rules)
            ignore_rules endpoint_path (Saved r)
      else
        let! resp := bb_query_api rewritten_base_url in
        let! _ := add_files_downloaded 1 in
        handle_response (get_and_save_json fuel' ignore_rules rewrite_rules)
          ignore_rules endpoint_path resp
  end.

End World.

(** The ignore rules of [__backup_api]. *)
Definition ignore_rules_of (owner repo : string) : list ignore_rule :=
  let base := Rewrite.repo_prefix owner repo in
  [ {| rule_type := "in"; rule_not := false; rule_string := base ++ "/patch" |};
    {| rule_type := "in"; rule_not := false; rule_string := base ++ "/diff" |};
    {| rule_type := "in"; rule_not := false; rule_string := base ++ "/src" |};
    {| rule_type := "in"; rule_not := false; rule_string := base ++ "/filehistory" |};
    {| rule_type := "in"; rule_not := false; rule_string := base ++ "/downloads" |};
    {| rule_type := "startswith"; rule_not := true; rule_string := base |};
    {| rule_type := "startswith"; rule_not := false; rule_string := base ++ "/issues/import" |};
    {| rule_type := "startswith"; rule_not := false; rule_string := base ++ "/issues/export" |};
    {| rule_type := "startswith"; rule_not := false; rule_string := base ++ "/hooks" |};
    {| rule_type := "endswith"; rule_not := false; rule_string := "/approve" |};
    {| rule_type := "endswith"; rule_not := false; rule_string := "/decline" |};
    {| rule_type := "endswith"; rule_not := false; rule_string := "/merge" |};
    {| rule_type := "endswith"; rule_not := false; rule_string := "/vote" |};
    {| rule_type := "endswith"; rule_not := false; rule_string := "/watch" |} ]%string.

(** The exporter as [__init__] leaves it: an empty tree, and the position
    [(0,)] after its call of [tree_new_level]. *)
Definition init (save_path : string) (files : gmap string string)
    (d : DummyResponse.class_state) : state :=
  {| owner := ""; repository := ""; save_path := save_path;
     file_download_regexes := []; tree := [];
     current_tree_location := [0];
     files_downloaded := 0; duplicates_skipped := 0; already_downloaded := 0;
     fs := files; dummy := d; requests := [] |}.

Section Backup.
Variable http_get : string -> Z * string.
Variable fetch_file : string -> option string.
Variable json_loads : string -> option Json.json.
Variable json_dumps : Json.json -> string.

(** [__backup_api] for the repository [backup_api] has selected. *)
Definition backup_repository (fuel : nat) (owner repo : string) : M unit :=
  let! regexes := expect ReError (mapM Re.compile (file_download_patterns owner repo)) in
  let! rules := expect ReError (Rewrite.rewrite_rules owner repo) in
  let! _ := modify (fun s =>
    set_counters 0 0 0 (set_repository owner repo regexes s)) in
  let! _ := get_and_save_json http_get fetch_file json_loads json_dumps fuel
              (ignore_rules_of owner repo) rules
              (bitbucket_api_url ++ Rewrite.repo_prefix owner repo) in
  tree_increment_level.

(** [backup_api]: every repository of the export, one after the other. *)
Definition backup_api (fuel : nat) (repositories : list (string * string)) : M unit :=
  for_each repositories (fun r => backup_repository fuel (fst r) (snd r)).

End Backup.

End Crawler.

(** ** The link rewriter: [make_urls_relative] *)

Module Rewriter.
Import Crawler.

Inductive error : Type :=
| ValueError
| ReCompileError.

Inductive result (A : Type) : Type :=
| Done (a : A)
| Raised (e : error).
Arguments Done {A} a.
Arguments Raised {A} e.

Definition and_then {A B} (r : result A) (k : A -> result B) : result B :=
  match r with
  | Done a => k a
  | Raised e => Raised e
  end.

Definition q : string := PyStr.dq.
Definition bq : string := (PyStr.bs ++ PyStr.dq)%string.

(** The pattern of [re.sub] for links that are no valid API endpoints: an
    escaped quote, the API host, two path segments, and then either the
    closing escaped quote or a slash and more up to that quote. *)
Definition stupid_url_pattern : string :=
  ("\\\" ++ q ++ "(https\:\/\/api\.bitbucket\.org\/(.*?)\/(.*?)((\\\" ++ q
     ++ ")|(\/(.*?))\\\" ++ q ++ "))")%string.

(** The pattern of the obfuscated mail links. *)
Definition email_pattern : string :=
  ("(\\\" ++ q ++ "\/.*?(\&\#109;\&\#97;\&\#105;\&\#108;\&\#116;\&\#111;\&\#58;)(.*?)\\\"
     ++ q ++ ")")%string.

(** [(m2, m3) in self.__repository_list] *)
Definition archived (repository_list : list (string * string)) (m2 m3 : string) : bool :=
  existsb (fun r => String.eqb (fst r) m2 && String.eqb (snd r) m3) repository_list.

(** [fix_stupid_bitbucket_urls(matchobj)] *)
Definition fix_stupid_bitbucket_urls (repository_list : list (string * string))
    (whole : string) (groups : Re.caps) : string :=
  let m2 := Re.group 2 groups in
  let m3 := Re.group 3 groups in
  let m4 := Re.group 4 groups in
  if archived repository_list m2 m3
  then (bq ++ "#!/" ++ m2 ++ "/" ++ m3 ++ m4)%string
  else if negb (PyStr.contains "https://api.bitbucket.org/2.0/" whole)
          && negb (PyStr.contains "https://api.bitbucket.org/1.0/" whole)
  then PyStr.replace "https://api.bitbucket.org" "https://bitbucket.org" whole
  else whole.

(** Iterating a string target pair: a string unpacks into two names only
    when it has two characters. *)
Definition unpack_two (s : string) : option (string * string) :=
  match s with
  | String a (String b EmptyString) => Some (String a EmptyString, String b EmptyString)
  | _ => None
  end.

(** One turn of [for old_url, (new_url, _) in self.__external_URL_rewrites]:
    the loop runs over the dict itself, so what is unpacked is a key. *)
Definition external_rewrite (data key : string) : result string :=
  match unpack_two key with
  | Some (old_url, rest) =>
      match unpack_two rest with
      | Some (new_url, _) => Done (PyStr.replace old_url new_url data)
      | None => Raised ValueError
      end
  | None => Raised ValueError
  end.

Fixpoint external_rewrites (keys : list string) (data : string) : result string :=
  match keys with
  | [] => Done data
  | k :: keys' => and_then (external_rewrite data k) (external_rewrites keys')
  end.

(** The path of a child below the output root, slashes forward. *)
Definition relative_url (save_path child_path : string) : string :=
  PyStr.replace PyStr.bs "/"
    (PyStr.replace (PyStr.bs ++ PyStr.bs) "/"
      (PyStr.replace save_path "data" child_path)).

(** The three spellings of a child's URL, replaced one after the other. *)
Definition replace_child (save_path : string) (data : string) (child : node) : string :=
  let new_url := relative_url save_path (endpoint_path child) in
  let data := PyStr.replace (q ++ url child ++ q) (q ++ new_url ++ q) data in
  let data := PyStr.replace (bq ++ url child ++ bq) (bq ++ new_url ++ bq) data in
  PyStr.replace ("![](" ++ url child ++ ")") ("![](" ++ new_url ++ ")") data.

Section Rewrite.

(** The exporter's attributes the rewriter reads, the [mapping] argument
    (its keys), and [html.unescape]. *)
Variable save_path save_path_relative : string.
Variable repository_list : list (string * string).
Variable external_URL_rewrites : list (string * (string * string)).
Variable mapping : list string.
Variable html_unescape : string -> string.

(** [fix_stupid_bitbucket_email_links(matchobj)] *)
Definition fix_stupid_bitbucket_email_links (whole : string) (groups : Re.caps) : string :=
  (bq ++ "mailto:" ++ html_unescape (Re.group 3 groups) ++ bq)%string.

Definition compiled (p : string) : result Re.regex :=
  match Re.compile p with
  | Some r => Done r
  | None => Raised ReCompileError
  end.

(** What [make_urls_relative] does to the text of one JSON file. *)
Definition rewrite_json (children : list node) (data : string) : result string :=
  let data := fold_left (replace_child save_path) children data in
  and_then (compiled stupid_url_pattern) (fun stupid =>
  let data := Re.sub stupid (fix_stupid_bitbucket_urls repository_list) data in
  and_then (compiled email_pattern) (fun email =>
  let data := Re.sub email fix_stupid_bitbucket_email_links data in
  let data :=
    fold_left (fun d name =>
      PyStr.replace ("https://bitbucket.org/" ++ name) ("#!/" ++ name) d) mapping data in
  external_rewrites (map fst external_URL_rewrites) data)).

(** One item of the loop, without its recursion: the files after it. *)
Definition rewrite_item (item : node) (files : gmap string string)
    : result (gmap string string) :=
  let new_path := PyStr.replace save_path save_path_relative (endpoint_path item) in
  match files !! new_path, files !! endpoint_path item with
  | None, Some data =>
      if PyStr.endswith ".json" new_path
      then and_then (rewrite_json (children item) data)
             (fun data' => Done (<[new_path := data']> files))
      else Done (<[new_path := data]> files)
  | _, _ => Done files
  end.

(** [make_urls_relative(tree)]: each item, then its children. *)
Fixpoint make_urls_relative_item (item : node) (files : gmap string string)
    : result (gmap string string) :=
  and_then (rewrite_item item files)
    ((fix over (items : list node) (files : gmap string string) :=
        match items with
        | [] => Done files
        | i :: items' => and_then (make_urls_relative_item i files) (over items')
        end) (children item)).

Fixpoint make_urls_relative (tree : list node) (files : gmap string string)
    : result (gmap string string) :=
  match tree with
  | [] => Done files
  | item :: tree' =>
      and_then (make_urls_relative_item item files) (make_urls_relative tree')
  end.

End Rewrite.

End Rewriter.

(** ** The comment hierarchy: the placement loop and [flatten_comments] *)

Module Comments.

(** [comment['parent']]: the parent's id, and the [depth] that
    [flatten_comments] writes into this very dict. *)
Record parent_ref : Type := {
  parent_id : Z;
  depth : option nat;
}.

Record comment : Type := {
  id : Z;
  parent : option parent_ref;
  payload : string;
}.

(** An [OrderedDict] keyed by comment id; the values are hierarchy entries,
    named by their ['index'] (each index gets one entry at most). *)
Definition odict : Type := list (Z * nat).

(** [d[k] = v]: an existing key keeps its place. *)
Fixpoint od_set (k : Z) (v : nat) (d : odict) : odict :=
  match d with
  | [] => [(k, v)]
  | (k', v') :: d' => if Z.eqb k k' then (k, v) :: d' else (k', v') :: od_set k v d'
  end.

(** The variables of the placement loop.  [children] holds, for each
    hierarchy entry, its ['children'] dict: the entries are shared between
    [comment_flat] and the dict they were put in, so they live in one store. *)
Record placement : Type := {
  done_idxs : list nat;
  comment_flat : gmap Z nat;
  comment_hierarchy : odict;
  children : gmap nat odict;
}.

Definition start : placement :=
  {| done_idxs := []; comment_flat := ∅; comment_hierarchy := []; children := ∅ |}.

(** The body of the [for] loop for comment [i]. *)
Definition place_comment (i : nat) (c : comment) (st : placement) : placement :=
  if bool_decide (i ∈ done_idxs st) then st
  else
    match parent c with
    | None =>
        {| done_idxs := done_idxs st ++ [i];
           comment_flat := <[id c := i]> (comment_flat st);
           comment_hierarchy := od_set (id c) i (comment_hierarchy st);
           children := <[i := []]> (children st) |}
    | Some p =>
        match comment_flat st !! parent_id p with
        | Some j =>
            let fresh := <[i := []]> (children st) in
            {| done_idxs := done_idxs st ++ [i];
               comment_flat := <[id c := i]> (comment_flat st);
               comment_hierarchy := comment_hierarchy st;
               children := <[j := od_set (id c) i (default [] (fresh !! j))]> fresh |}
        | None => st
        end
    end.

(** [for i, comment in enumerate(comments)], from index [i] on. *)
Fixpoint scan_from (i : nat) (comments : list comment) (st : placement) : placement :=
  match comments with
  | [] => st
  | c :: comments' => scan_from (S i) comments' (place_comment i c st)
  end.

(** [while len(done_idxs) < len(comments)]; [fuel] bounds the number of
    scans, and [None] is a loop that has not ended within it. *)
Fixpoint place (fuel : nat) (comments : list comment) (st : placement) : option placement :=
  if (length (done_idxs st) <? length comments)%nat then
    match fuel with
    | O => None
    | S fuel' => place fuel' comments (scan_from 0 comments st)
    end
  else Some st.

(** [c['parent']['depth'] = depth], when [c] has a parent. *)
Definition set_depth (d : nat) (c : comment) : comment :=
  match parent c with
  | Some p =>
      {| id := id c;
         parent := Some {| parent_id := parent_id p; depth := Some d |};
         payload := payload c |}
  | None => c
  end.

(** [flatten_comments(hierarchy, comments, reordered_comments, depth)];
    [fuel] bounds the nesting. *)
Fixpoint flatten_comments (fuel : nat) (store : gmap nat odict) (comments : list comment)
    (hierarchy : odict) (reordered_comments : list comment) (depth : nat)
    : option (list comment) :=
  match fuel with
  | O => None
  | S fuel' =>
      (fix values (hs : odict) (reordered : list comment) : option (list comment) :=
         match hs with
         | [] => Some reordered
         | (_, index) :: hs' =>
             c ← comments !! index;
             kids ← store !! index;
             r ← flatten_comments fuel' store comments kids
                   (reordered ++ [set_depth depth c]) (S depth);
             values hs' r
         end) hierarchy reordered_comments
  end.

(** Placement, then flattening (the two steps before the pages are cut). *)
Definition reconstruct (fuel : nat) (comments : list comment) : option (list comment) :=
  st ← place fuel comments start;
  flatten_comments fuel (children st) comments (comment_hierarchy st) [] 0.

(** [reordered_comments[i*100:(i+1)*100]] *)
Definition page (i : nat) (reordered : list comment) : list comment :=
  take 100 (drop (i * 100) reordered).

End Comments.

(* ===================================================================== *)
(** * Part II: the properties *)
(* ===================================================================== *)

(** ** The [DummyResponse] store *)

Section DummyResponseFacts.
Import DummyResponse.

(** Every cached object has been through [__init__]. *)
Definition initialised (st : class_state) : Prop :=
  ∀ p r, cache st !! p = Some r → is_Some (getattr_already_processed r st).

Lemma initialised_initial : initialised initial.
Proof. intros p r H. cbn in H. by rewrite lookup_empty in H. Qed.

Lemma construct_first (p : string) (st : class_state) :
  cache st !! p = None →
  construct p st =
    (length (heap st),
     {| heap := heap st ++ [{| path := Some p; status_code := Some 200%Z;
                               already_processed := Some false |}];
        cache := <[p := length (heap st)]> (cache st) |}).
Proof.
  intros Hnone. unfold construct, new. rewrite Hnone.
  unfold init, getattr_already_processed. cbn [heap cache].
  rewrite lookup_app_r by lia. rewrite Nat.sub_diag. cbn.
  f_equal. f_equal.
  rewrite insert_app_r_alt by lia. rewrite Nat.sub_diag. done.
Qed.

Lemma construct_again (p : string) (r : ref) (st : class_state) :
  initialised st →
  cache st !! p = Some r →
  construct p st =
    (r, {| heap := alter (set_already_processed true) r (heap st); cache := cache st |}).
Proof.
  intros Hinit Hsome. unfold construct, new. rewrite Hsome.
  destruct (Hinit p r Hsome) as [b Hb].
  unfold getattr_already_processed in Hb.
  destruct (heap st !! r) as [o|] eqn:Ho; [|done].
  unfold init, getattr_already_processed. cbn [heap cache].
  rewrite list_lookup_alter_eq, Ho. done.
Qed.

Lemma getattr_after_first (p : string) (st : class_state) :
  cache st !! p = None →
  getattr_already_processed (fst (construct p st)) (snd (construct p st)) = Some false.
Proof.
  intros H. rewrite (construct_first p st H). cbn.
  unfold getattr_already_processed. cbn.
  rewrite lookup_app_r by lia. by rewrite Nat.sub_diag.
Qed.

Lemma getattr_after_again (p : string) (r : ref) (st : class_state) :
  initialised st →
  cache st !! p = Some r →
  getattr_already_processed r (snd (construct p st)) = Some true.
Proof.
  intros Hinit Hsome. rewrite (construct_again p r st Hinit Hsome). cbn.
  destruct (Hinit p r Hsome) as [b Hb].
  unfold getattr_already_processed in *. cbn.
  rewrite list_lookup_alter_eq.
  destruct (heap st !! r); [done | done].
Qed.

Lemma construct_initialised (p : string) (st : class_state) :
  initialised st → initialised (snd (construct p st)).
Proof.
  intros Hinit q r.
  destruct (cache st !! p) as [r0|] eqn:Hp.
  - rewrite (construct_again p r0 st Hinit Hp). cbn. intros Hq.
    destruct (Hinit q r Hq) as [b Hb].
    unfold getattr_already_processed in *. cbn.
    destruct (decide (r = r0)) as [->|Hne].
    + rewrite list_lookup_alter_eq. destruct (heap st !! r0); [by eexists | done].
    + rewrite list_lookup_alter_ne by done. by eexists.
  - rewrite (construct_first p st Hp). cbn. intros Hq.
    unfold getattr_already_processed. cbn.
    destruct (decide (p = q)) as [->|Hne].
    + rewrite lookup_insert_eq in Hq. injection Hq as <-.
      rewrite lookup_app_r by lia. rewrite Nat.sub_diag. by eexists.
    + rewrite lookup_insert_ne in Hq by done.
      destruct (Hinit q r Hq) as [b Hb].
      unfold getattr_already_processed in Hb.
      destruct (heap st !! r) as [o|] eqn:Ho; [|done].
      rewrite (lookup_app_l_Some _ _ _ _ Ho). by eexists.
Qed.

Lemma constructs_initialised (ps : list string) (st : class_state) :
  initialised st → initialised (constructs ps st).
Proof.
  revert st. induction ps as [|p ps IH]; intros st Hinit; [done|].
  cbn. apply IH. by apply construct_initialised.
Qed.

(** The cache never forgets and never rebinds a path. *)
Lemma construct_keeps (p q : string) (r : ref) (st : class_state) :
  cache st !! q = Some r → cache (snd (construct p st)) !! q = Some r.
Proof.
  intros Hq. unfold construct, new.
  destruct (cache st !! p) as [r0|] eqn:Hp; cbn.
  - unfold init. destruct (getattr_already_processed _ _); done.
  - unfold init. destruct (getattr_already_processed _ _); cbn;
      (rewrite lookup_insert_ne; [done | congruence]).
Qed.

Lemma constructs_keeps (ps : list string) (q : string) (r : ref) (st : class_state) :
  cache st !! q = Some r → cache (constructs ps st) !! q = Some r.
Proof.
  revert st. induction ps as [|p ps IH]; intros st Hq; [done|].
  cbn. apply IH. by apply construct_keeps.
Qed.

(** Only constructed paths are cached. *)
Lemma construct_fresh_others (p q : string) (st : class_state) :
  p ≠ q → cache st !! q = None → cache (snd (construct p st)) !! q = None.
Proof.
  intros Hne Hq. unfold construct, new.
  destruct (cache st !! p) as [r0|] eqn:Hp; cbn.
  - unfold init. destruct (getattr_already_processed _ _); done.
  - unfold init. destruct (getattr_already_processed _ _); cbn;
      by rewrite lookup_insert_ne.
Qed.

Lemma constructs_fresh (ps : list string) (q : string) (st : class_state) :
  q ∉ ps → cache st !! q = None → cache (constructs ps st) !! q = None.
Proof.
  revert st. induction ps as [|p ps IH]; intros st Hnotin Hq; [done|].
  cbn. apply not_elem_of_cons in Hnotin as [Hne Hnotin].
  apply IH; [done|]. apply construct_fresh_others; [congruence | done].
Qed.

Lemma construct_binds (p : string) (st : class_state) :
  cache (snd (construct p st)) !! p = Some (fst (construct p st)).
Proof.
  unfold construct, new.
  destruct (cache st !! p) as [r0|] eqn:Hp; cbn.
  - unfold init. destruct (getattr_already_processed _ _); done.
  - unfold init. destruct (getattr_already_processed _ _); cbn;
      by rewrite lookup_insert_eq.
Qed.

End DummyResponseFacts.

(** C10. In one process, the first [DummyResponse(path)] for a path gives an
    object whose [already_processed] is [False]; whatever is constructed in
    between, every later [DummyResponse(path)] for that path returns that
    same object, with [already_processed] set to [True].  The store is the
    class's own: the crawler of any exporter state, whatever its owner,
    repository or tree, constructs on it. *)
Theorem dummy_response_cache_is_process_wide
    (before between : list string) (p : string) :
  p ∉ before →
  let st0 := DummyResponse.constructs before DummyResponse.initial in
  let first := DummyResponse.construct p st0 in
  let st2 := DummyResponse.constructs between (snd first) in
  let again := DummyResponse.construct p st2 in
  DummyResponse.getattr_already_processed (fst first) (snd first) = Some false
  ∧ fst again = fst first
  ∧ DummyResponse.getattr_already_processed (fst again) (snd again) = Some true
  ∧ ∀ s : Crawler.state, Crawler.dummy s = st2 →
      Crawler.dummy_response p s = Crawler.Ok (fst first) (Crawler.set_dummy (snd again) s).
Proof.
  intros Hfirst st0 first st2 again.
  assert (Hnone : DummyResponse.cache st0 !! p = None).
  { apply constructs_fresh; [done | apply lookup_empty]. }
  assert (Hinit2 : initialised st2).
  { apply constructs_initialised, construct_initialised, constructs_initialised,
      initialised_initial. }
  assert (Hbound : DummyResponse.cache st2 !! p = Some (fst first)).
  { apply constructs_keeps, construct_binds. }
  assert (Hsame : fst again = fst first).
  { unfold again. by rewrite (construct_again p _ st2 Hinit2 Hbound). }
  split; [by apply getattr_after_first|].
  split; [done|].
  split.
  - rewrite Hsame. by apply getattr_after_again.
  - intros s Hs. unfold Crawler.dummy_response. rewrite Hs.
    fold again. rewrite <- Hsame. by destruct again.
Qed.

Lemma dummy_response_cache_is_process_wide_witness :
  let p := "raw/repositories/acme/widget.json" in
  let first := DummyResponse.construct p
                 (DummyResponse.constructs ["raw/a.json"] DummyResponse.initial) in
  let again := DummyResponse.construct p
                 (DummyResponse.constructs ["raw/b.json"; "raw/a.json"] (snd first)) in
  DummyResponse.getattr_already_processed (fst first) (snd first) = Some false
  ∧ fst again = fst first
  ∧ DummyResponse.getattr_already_processed (fst again) (snd again) = Some true.
Proof.
  pose proof (dummy_response_cache_is_process_wide
    ["raw/a.json"] ["raw/b.json"; "raw/a.json"] "raw/repositories/acme/widget.json") as H.
  cbv zeta in H.
  destruct H as (H1 & H2 & H3 & _).
  - intros Hin. apply elem_of_cons in Hin as [Hin|Hin]; [discriminate Hin | inversion Hin].
  - cbv zeta. auto.
Defined.

(** ** Dictionaries *)

Section DictFacts.
Import Py.

Lemma get_set_eq (k : string) (v : value) (d : dict) : get k (set k v d) = Some v.
Proof.
  induction d as [|[k' v'] d IH]; cbn.
  - by rewrite String.eqb_refl.
  - destruct (String.eqb k k') eqn:E; cbn; rewrite ?String.eqb_refl, ?E; done.
Qed.

Lemma get_set_ne (k k' : string) (v : value) (d : dict) :
  k ≠ k' → get k' (set k v d) = get k' d.
Proof.
  intros Hne. induction d as [|[k0 v0] d IH]; cbn.
  - destruct (String.eqb k' k) eqn:E; [|done].
    apply String.eqb_eq in E. congruence.
  - destruct (String.eqb k k0) eqn:E; cbn.
    + apply String.eqb_eq in E. subst k0.
      destruct (String.eqb k' k) eqn:E'; [|done].
      apply String.eqb_eq in E'. congruence.
    + by rewrite IH.
Qed.

Lemma mem_set_ne (k k' : string) (v : value) (d : dict) :
  k ≠ k' → mem k' (set k v d) = mem k' d.
Proof. intros. unfold mem. by rewrite get_set_ne. Qed.

Lemma mem_set_eq (k : string) (v : value) (d : dict) : mem k (set k v d) = true.
Proof. unfold mem. by rewrite get_set_eq. Qed.

Lemma get_app (k : string) (d1 d2 : dict) :
  get k (d1 ++ d2) = match get k d1 with Some v => Some v | None => get k d2 end.
Proof.
  induction d1 as [|[k' v'] d1 IH]; cbn; [done|].
  by destruct (String.eqb k k').
Qed.

Lemma set_absent (k : string) (v : value) (d : dict) :
  get k d = None → set k v d = d ++ [(k, v)].
Proof.
  induction d as [|[k' v'] d IH]; cbn; [done|].
  destruct (String.eqb k k'); [done|]. intros H. by rewrite IH.
Qed.

Lemma get_del_ne (k k' : string) (d : dict) : k ≠ k' → get k' (del k d) = get k' d.
Proof.
  intros Hne. unfold del. induction d as [|[k0 v0] d IH]; cbn; [done|].
  destruct (String.eqb k k0) eqn:E; cbn.
  - apply String.eqb_eq in E. subst k0.
    destruct (String.eqb k' k) eqn:E'; [|done].
    apply String.eqb_eq in E'. congruence.
  - by rewrite IH.
Qed.

Lemma mem_del_ne (k k' : string) (d : dict) : k ≠ k' → mem k' (del k d) = mem k' d.
Proof. intros. unfold mem. by rewrite get_del_ne. Qed.

Lemma del_absent (k : string) (d : dict) : mem k d = false → del k d = d.
Proof.
  unfold mem, del. induction d as [|[k' v'] d IH]; cbn; [done|].
  destruct (String.eqb k k'); cbn; [done|]. intros H. by rewrite IH.
Qed.

Lemma del_set_eq (k : string) (v : value) (d : dict) : del k (set k v d) = del k d.
Proof.
  unfold del. induction d as [|[k' v'] d IH]; cbn.
  - by rewrite String.eqb_refl.
  - destruct (String.eqb k k') eqn:E; cbn; rewrite ?String.eqb_refl, ?E; cbn; [done|].
    by rewrite IH.
Qed.

Lemma del_set_ne (k k' : string) (v : value) (d : dict) :
  k ≠ k' → del k' (set k v d) = set k v (del k' d).
Proof.
  intros Hne. unfold del. induction d as [|[k0 v0] d IH]; cbn.
  - destruct (String.eqb k' k) eqn:E; [|done].
    apply String.eqb_eq in E. congruence.
  - destruct (String.eqb k k0) eqn:E; cbn.
    + apply String.eqb_eq in E. subst k0.
      destruct (String.eqb k' k) eqn:E'.
      * apply String.eqb_eq in E'. congruence.
      * cbn. by rewrite String.eqb_refl.
    + destruct (String.eqb k' k0) eqn:E'; cbn; rewrite ?E; by rewrite IH.
Qed.

Lemma del_del (k k' : string) (d : dict) : del k (del k' d) = del k' (del k d).
Proof.
  unfold del. induction d as [|[k0 v0] d IH]; cbn; [done|].
  destruct (String.eqb k' k0) eqn:E', (String.eqb k k0) eqn:E; cbn;
    rewrite ?E, ?E'; cbn; by rewrite ?IH.
Qed.

Lemma del_idem (k : string) (d : dict) : del k (del k d) = del k d.
Proof.
  unfold del. induction d as [|[k0 v0] d IH]; cbn; [done|].
  destruct (String.eqb k k0) eqn:E; cbn; rewrite ?E; cbn; by rewrite ?IH.
Qed.

(** [if k in d: del d[k]] is [del] itself. *)
Lemma guarded_del (k : string) (d : dict) : (if mem k d then del k d else d) = del k d.
Proof. destruct (mem k d) eqn:E; [done|]. by rewrite del_absent. Qed.

Lemma value_eqb_none (v : value) : value_eqb v VNone = true ↔ v = VNone.
Proof. destruct v; cbn; split; congruence. Qed.

End DictFacts.

(** ** The rewrite rule engine *)

Section RewriteFacts.
Import Py Rewrite.

Lemma fold_apply_rewrite_app (l1 l2 : list rewrite) (p : dict) :
  fold_left apply_rewrite (l1 ++ l2) p = fold_left apply_rewrite l2 (fold_left apply_rewrite l1 p).
Proof. apply fold_left_app. Qed.

Lemma rewrite_url_matching (endpoint : string) (rules : list rule) (params : dict) :
  rewrite_url endpoint params rules =
    (endpoint, fold_left apply_rewrite (matching_rewrites endpoint rules) params).
Proof.
  unfold rewrite_url, matching_rewrites. f_equal.
  revert params. induction rules as [|r rules IH]; intros params; cbn; [done|].
  unfold apply_rule at 2.
  destruct (endpoint_matches endpoint (endpoint_match r)); cbn.
  - by rewrite fold_apply_rewrite_app, IH.
  - by rewrite IH.
Qed.

(** A [default]: the parameter is set when it is absent (or [None]). *)
Lemma apply_default (k : string) (v : value) (p : dict) :
  v ≠ VNone →
  apply_rewrite p (default k v) =
    match get k p with
    | Some VNone | None => set k v p
    | Some _ => p
    end.
Proof.
  intros Hv.
  assert (Hupd : update_params [(k, v)] p = set k v p).
  { unfold update_params. cbn. by destruct v. }
  unfold apply_rewrite, default.
  cbn [params_match params_to_update do_rewrite value_eqb].
  destruct (get k p) as [x|] eqn:E; [|by rewrite Hupd].
  destruct x; cbn [value_eqb negb]; by rewrite ?Hupd.
Qed.

Lemma apply_default_absent (k : string) (v : value) (p : dict) :
  v ≠ VNone → get k p = None → apply_rewrite p (default k v) = p ++ [(k, v)].
Proof. intros Hv Hk. rewrite apply_default, Hk by done. by apply set_absent. Qed.

Lemma apply_sort_by_creation (p : dict) :
  apply_rewrite p sort_by_creation = set "sort" (VStr "created_on") p.
Proof. done. Qed.

(** Compiling the table changes the matchers only. *)
Lemma compile_rule_rewrites (src : list raw_matcher * list rewrite) (r : rule) :
  compile_rule src = Some r → rewrites r = snd src.
Proof.
  unfold compile_rule. destruct (mapM compile_matcher (fst src)); cbn; [|done].
  by intros [= <-].
Qed.

Lemma rewrite_rules_rewrites (owner repo : string) (rules : list rule) :
  rewrite_rules owner repo = Some rules →
  map rewrites rules = map snd (rules_source owner repo).
Proof.
  unfold rewrite_rules. intros H. apply mapM_Some in H.
  induction H as [|src r srcs rs Hr _ IH]; cbn; [done|].
  by rewrite IH, (compile_rule_rewrites _ _ Hr).
Qed.

(** The patterns of the table for acme/widget are all within the syntax
    read, and on the pull request list only the first rule matches. *)
Lemma pullrequests_matching :
  matching_rewrites "repositories/acme/widget/pullrequests" <$> rewrite_rules "acme" "widget" =
  Some [ default "state" (VList ["MERGED"; "OPEN"; "SUPERSEDED"; "DECLINED"]);
         default "pagelen" (VInt 50);
         default "page" (VInt 1);
         sort_by_creation ].
Proof. vm_compute. reflexivity. Qed.

End RewriteFacts.

(** C4. With the rules [__backup_api] declares for acme/widget, rewriting the
    endpoint repositories/acme/widget/pullrequests with parameters that hold
    none of state, pagelen, page and sort leaves the endpoint as it is and
    gives parameters with state = [MERGED, OPEN, SUPERSEDED, DECLINED],
    pagelen = 50, page = 1 and sort = created_on: the four are appended, in
    this order, to the parameters given. *)
Theorem rewrite_url_pullrequests (rules : list Rewrite.rule) (params : Py.dict) :
  Rewrite.rewrite_rules "acme" "widget" = Some rules →
  Py.get "state" params = None →
  Py.get "pagelen" params = None →
  Py.get "page" params = None →
  Py.get "sort" params = None →
  let rewritten :=
    Rewrite.rewrite_url "repositories/acme/widget/pullrequests" params rules in
  fst rewritten = "repositories/acme/widget/pullrequests"
  ∧ snd rewritten =
      params ++ [ ("state", Py.VList ["MERGED"; "OPEN"; "SUPERSEDED"; "DECLINED"]);
                  ("pagelen", Py.VInt 50); ("page", Py.VInt 1);
                  ("sort", Py.VStr "created_on") ]
  ∧ Py.get "state" (snd rewritten) = Some (Py.VList ["MERGED"; "OPEN"; "SUPERSEDED"; "DECLINED"])
  ∧ Py.get "pagelen" (snd rewritten) = Some (Py.VInt 50)
  ∧ Py.get "page" (snd rewritten) = Some (Py.VInt 1)
  ∧ Py.get "sort" (snd rewritten) = Some (Py.VStr "created_on").
Proof.
  intros Hrules Hstate Hpagelen Hpage Hsort rewritten.
  pose proof pullrequests_matching as Hm. rewrite Hrules in Hm. injection Hm as Hm.
  assert (Hparams : snd rewritten =
      params ++ [ ("state", Py.VList ["MERGED"; "OPEN"; "SUPERSEDED"; "DECLINED"]);
                  ("pagelen", Py.VInt 50); ("page", Py.VInt 1);
                  ("sort", Py.VStr "created_on") ]).
  { unfold rewritten. rewrite rewrite_url_matching, Hm. cbn [snd fold_left].
    rewrite (apply_default_absent "state"); [|discriminate|exact Hstate].
    rewrite (apply_default_absent "pagelen");
      [|discriminate|by rewrite get_app, Hpagelen].
    rewrite (apply_default_absent "page");
      [|discriminate|by rewrite !get_app, Hpage].
    rewrite apply_sort_by_creation.
    rewrite set_absent by (by rewrite !get_app, Hsort).
    by rewrite <- !app_assoc. }
  split; [done|]. split; [done|].
  rewrite Hparams, !get_app, Hstate, Hpagelen, Hpage, Hsort. done.
Qed.

Lemma rewrite_url_pullrequests_witness :
  ∃ rules,
    Rewrite.rewrite_rules "acme" "widget" = Some rules
    ∧ snd (Rewrite.rewrite_url "repositories/acme/widget/pullrequests"
             [("q", Py.VList ["state=open"])] rules) =
        [ ("q", Py.VList ["state=open"]);
          ("state", Py.VList ["MERGED"; "OPEN"; "SUPERSEDED"; "DECLINED"]);
          ("pagelen", Py.VInt 50); ("page", Py.VInt 1);
          ("sort", Py.VStr "created_on") ].
Proof.
  destruct (Rewrite.rewrite_rules "acme" "widget") as [rules|] eqn:Hrules;
    [|vm_compute in Hrules; discriminate Hrules].
  exists rules. split; [reflexivity|].
  exact (proj1 (proj2 (rewrite_url_pullrequests rules [("q", Py.VList ["state=open"])]
           Hrules eq_refl eq_refl eq_refl eq_refl))).
Defined.

(** ** The storage path *)

Section PathFacts.
Import Py Rewrite Path.

(** [simplify] without its guards. *)
Lemma simplify_unguarded (p : dict) :
  simplify p =
    if mem "page" p
    then del "pagelen" (del "ctx" (del "sort" p))
    else del "pagelen" (del "sort" p).
Proof.
  unfold simplify. cbv zeta. rewrite !(guarded_del "sort" p), guarded_del.
  rewrite (mem_del_ne "sort" "page") by discriminate.
  destruct (mem "page" p); cbn [andb].
  - by rewrite guarded_del.
  - done.
Qed.

Lemma get_simplify (k : string) (p : dict) :
  k ≠ "sort" → k ≠ "pagelen" → k ≠ "ctx" → get k (simplify p) = get k p.
Proof.
  intros Hs Hl Hc. rewrite simplify_unguarded.
  destruct (mem "page" p); rewrite !get_del_ne; done.
Qed.

Lemma mem_simplify (k : string) (p : dict) :
  k ≠ "sort" → k ≠ "pagelen" → k ≠ "ctx" → mem k (simplify p) = mem k p.
Proof. intros. unfold mem. by rewrite get_simplify. Qed.

Lemma simplify_set_sort (v : value) (p : dict) : simplify (set "sort" v p) = simplify p.
Proof.
  rewrite !simplify_unguarded.
  rewrite (mem_set_ne "sort" "page") by discriminate.
  by rewrite del_set_eq.
Qed.

Lemma simplify_set_pagelen (v : value) (p : dict) : simplify (set "pagelen" v p) = simplify p.
Proof.
  rewrite !simplify_unguarded.
  rewrite (mem_set_ne "pagelen" "page") by discriminate.
  rewrite (del_set_ne "pagelen" "sort") by discriminate.
  destruct (mem "page" p).
  - rewrite (del_set_ne "pagelen" "ctx") by discriminate. by rewrite del_set_eq.
  - by rewrite del_set_eq.
Qed.

Lemma simplify_set_other (k : string) (v : value) (p : dict) :
  k ≠ "sort" → k ≠ "pagelen" → k ≠ "ctx" → k ≠ "page" →
  simplify (set k v p) = set k v (simplify p).
Proof.
  intros Hs Hl Hc Hp. rewrite !simplify_unguarded.
  rewrite (mem_set_ne k "page") by done.
  destruct (mem "page" p); rewrite !del_set_ne; done.
Qed.

Lemma simplify_set_page (v : value) (p : dict) :
  simplify (set "page" v p) = set "page" v (del "ctx" (simplify p)).
Proof.
  rewrite !simplify_unguarded. rewrite mem_set_eq.
  rewrite !del_set_ne by discriminate. f_equal.
  destruct (mem "page" p).
  - by rewrite (del_del "ctx" "pagelen"), del_idem.
  - by rewrite (del_del "ctx" "pagelen").
Qed.

(** The rewrites the table declares: [sort] is forced, any other parameter
    gets a default. *)
Definition declared_shape (rw : rewrite) : Prop :=
  rw = sort_by_creation
  ∨ ∃ k v, rw = default k v ∧ v ≠ VNone ∧ k ≠ "sort" ∧ k ≠ "ctx".

Lemma apply_rewrite_simplify (rw : rewrite) (p1 p2 : dict) :
  declared_shape rw →
  simplify p1 = simplify p2 →
  simplify (apply_rewrite p1 rw) = simplify (apply_rewrite p2 rw).
Proof.
  intros [->|(k & v & -> & Hv & Hs & Hc)] Heq.
  - by rewrite !apply_sort_by_creation, !simplify_set_sort.
  - rewrite !apply_default by done.
    destruct (decide (k = "pagelen")) as [->|Hl].
    + assert (Hsame : ∀ p, simplify
        match get "pagelen" p with
        | Some VNone | None => set "pagelen" v p
        | Some _ => p
        end = simplify p).
      { intros p. destruct (get "pagelen" p) as [[]|]; by rewrite ?simplify_set_pagelen. }
      by rewrite !Hsame.
    + assert (Hget : get k p1 = get k p2).
      { by rewrite <- (get_simplify k p1), <- (get_simplify k p2), Heq. }
      rewrite Hget.
      assert (Hset : simplify (set k v p1) = simplify (set k v p2)).
      { destruct (decide (k = "page")) as [->|Hp].
        - by rewrite !simplify_set_page, Heq.
        - by rewrite !simplify_set_other, Heq. }
      destruct (get k p2) as [[]|]; done.
Qed.

Lemma fold_apply_rewrite_simplify (rws : list rewrite) (p1 p2 : dict) :
  Forall declared_shape rws →
  simplify p1 = simplify p2 →
  simplify (fold_left apply_rewrite rws p1) = simplify (fold_left apply_rewrite rws p2).
Proof.
  intros Hall. revert p1 p2.
  induction Hall as [|rw rws Hrw _ IH]; intros p1 p2 Heq; cbn; [done|].
  apply IH. by apply apply_rewrite_simplify.
Qed.

Lemma matching_rewrites_shape (endpoint : string) (rules : list rule) :
  Forall declared_shape (concat (map rewrites rules)) →
  Forall declared_shape (matching_rewrites endpoint rules).
Proof.
  unfold matching_rewrites.
  induction rules as [|r rules IH]; cbn; [done|].
  intros H. apply Forall_app in H as [Hr Hrules].
  destruct (endpoint_matches endpoint (endpoint_match r)); cbn.
  - apply Forall_app. split; [done | by apply IH].
  - by apply IH.
Qed.

Lemma default_shape (k : string) (v : value) :
  v ≠ VNone → k ≠ "sort" → k ≠ "ctx" → declared_shape (default k v).
Proof. intros. right. by exists k, v. Qed.

(** Every rewrite of the declared table has that shape, whatever the
    repository. *)
Lemma rewrite_rules_shape (owner repo : string) (rules : list rule) :
  rewrite_rules owner repo = Some rules →
  Forall declared_shape (concat (map rewrites rules)).
Proof.
  intros H. rewrite (rewrite_rules_rewrites owner repo rules H).
  cbn. repeat first
    [ apply Forall_nil_2
    | apply Forall_cons; split;
        [ first [ by left | by apply default_shape ] | ] ].
Qed.

Lemma storage_path_simplified (save_path : string) (rules : list rule)
    (endpoint : string) (p1 p2 : dict) :
  simplify (snd (rewrite_url endpoint p1 rules)) = simplify (snd (rewrite_url endpoint p2 rules)) →
  storage_path save_path rules endpoint p1 = storage_path save_path rules endpoint p2.
Proof.
  unfold storage_path. rewrite !rewrite_url_matching. cbn [snd].
  unfold endpoint_path_of. by intros ->.
Qed.

End PathFacts.

(** C1 (as stated, refuted). Two URLs of the issue list whose queries hold
    the same parameters in another order, [q=x&page=2] and [page=2&q=x]:
    the parameter sets are equal, as Python dicts are, before the
    simplification and after it, and yet the two storage paths differ,
    because [urlencode] writes the parameters in the order of the dict. *)
Lemma reordered_parameters_get_another_path :
  ∃ rules,
    Rewrite.rewrite_rules "acme" "widget" = Some rules
    ∧ (∀ k, Py.get k (Url.parse_qs "q=x&page=2") = Py.get k (Url.parse_qs "page=2&q=x"))
    ∧ (∀ k, Py.get k (Path.simplify (Url.parse_qs "q=x&page=2")) =
            Py.get k (Path.simplify (Url.parse_qs "page=2&q=x")))
    ∧ Path.storage_path "/project/bitbucket_data_raw" rules "repositories/acme/widget/issues"
        (Url.parse_qs "q=x&page=2") =
      "/project/bitbucket_data_raw/repositories/acme/widget/issues_q=x&page=2.json"
    ∧ Path.storage_path "/project/bitbucket_data_raw" rules "repositories/acme/widget/issues"
        (Url.parse_qs "page=2&q=x") =
      "/project/bitbucket_data_raw/repositories/acme/widget/issues_page=2&q=x.json".
Proof.
  destruct (Rewrite.rewrite_rules "acme" "widget") as [rules|] eqn:Hrules;
    [|vm_compute in Hrules; discriminate Hrules].
  exists rules. split; [reflexivity|].
  assert (Hsame : ∀ k,
            Py.get k [("q", Py.VList ["x"]); ("page", Py.VList ["2"])] =
            Py.get k [("page", Py.VList ["2"]); ("q", Py.VList ["x"])]).
  { intros k. cbn.
    destruct (String.eqb_spec k "q") as [->|]; [done|].
    by destruct (String.eqb_spec k "page"). }
  split; [exact Hsame|]. split; [exact Hsame|].
  vm_compute in Hrules. injection Hrules as <-.
  split; vm_compute; reflexivity.
Qed.

(** C1 (amended). The storage path [get_and_save_json] computes depends on
    the parameters only through their simplified form, read in the order
    of the dict: under any rule table, two parameter dicts for one endpoint
    whose rewritten forms are identical after the simplification (no sort,
    no pagelen, no ctx beside a page), the same keys with the same values
    in the same order, give the same path; and under the rules
    [__backup_api] declares, for any repository, two parameter dicts that
    are themselves identical in that sense after the simplification, that
    is, that differ only in sort, in pagelen, or in a ctx beside a page,
    give the same path. *)
Theorem storage_path_stable :
  (∀ (save_path : string) (rules : list Rewrite.rule) (endpoint : string) (p1 p2 : Py.dict),
     Path.simplify (snd (Rewrite.rewrite_url endpoint p1 rules)) =
       Path.simplify (snd (Rewrite.rewrite_url endpoint p2 rules)) →
     Path.storage_path save_path rules endpoint p1 =
       Path.storage_path save_path rules endpoint p2)
  ∧ (∀ (save_path owner repo : string) (rules : list Rewrite.rule) (endpoint : string)
       (p1 p2 : Py.dict),
     Rewrite.rewrite_rules owner repo = Some rules →
     Path.simplify p1 = Path.simplify p2 →
     Path.storage_path save_path rules endpoint p1 =
       Path.storage_path save_path rules endpoint p2).
Proof.
  split.
  - intros. by apply storage_path_simplified.
  - intros save_path owner repo rules endpoint p1 p2 Hrules Heq.
    apply storage_path_simplified.
    rewrite !rewrite_url_matching. cbn [snd].
    apply fold_apply_rewrite_simplify; [|done].
    eapply matching_rewrites_shape, rewrite_rules_shape, Hrules.
Qed.

Lemma storage_path_stable_witness :
  ∃ rules,
    Rewrite.rewrite_rules "acme" "widget" = Some rules
    ∧ Path.storage_path "/project/bitbucket_data_raw" rules "repositories/acme/widget/issues"
        [ ("sort", Py.VList ["-updated_on"]); ("page", Py.VList ["2"]);
          ("pagelen", Py.VList ["10"]); ("ctx", Py.VList ["abc"]) ] =
      Path.storage_path "/project/bitbucket_data_raw" rules "repositories/acme/widget/issues"
        [ ("page", Py.VList ["2"]) ].
Proof.
  destruct (Rewrite.rewrite_rules "acme" "widget") as [rules|] eqn:Hrules;
    [|vm_compute in Hrules; discriminate Hrules].
  exists rules. split; [reflexivity|].
  exact (proj2 storage_path_stable "/project/bitbucket_data_raw" "acme" "widget" rules
           "repositories/acme/widget/issues"
           [ ("sort", Py.VList ["-updated_on"]); ("page", Py.VList ["2"]);
             ("pagelen", Py.VList ["10"]); ("ctx", Py.VList ["abc"]) ]
           [ ("page", Py.VList ["2"]) ] Hrules eq_refl).
Defined.

(** The path in the running example. *)
Example storage_path_issues_page :
  (λ rules, Path.storage_path "/project/bitbucket_data_raw" rules
              "repositories/acme/widget/issues"
              [ ("sort", Py.VList ["-updated_on"]); ("page", Py.VList ["2"]);
                ("pagelen", Py.VList ["10"]); ("ctx", Py.VList ["abc"]) ])
    <$> Rewrite.rewrite_rules "acme" "widget" =
  Some "/project/bitbucket_data_raw/repositories/acme/widget/issues_page=2.json".
Proof. vm_compute. reflexivity. Qed.

(** ** The link rewriter *)

Section RewriterFacts.
Import Rewriter.

Lemma stupid_url_pattern_compiles : ∃ r, compiled stupid_url_pattern = Done r.
Proof. vm_compute. eexists. reflexivity. Qed.

Lemma email_pattern_compiles : ∃ r, compiled email_pattern = Done r.
Proof. vm_compute. eexists. reflexivity. Qed.

(** No key can be unpacked as [old_url, (new_url, _)]: the second target
    would have to be a one-character string of two characters. *)
Lemma external_rewrite_raises (data key : string) :
  external_rewrite data key = Raised ValueError.
Proof. destruct key as [|a [|b [|c key]]]; reflexivity. Qed.

Lemma external_rewrites_raises (key : string) (keys : list string) (data : string) :
  external_rewrites (key :: keys) data = Raised ValueError.
Proof. cbn. by rewrite external_rewrite_raises. Qed.

End RewriterFacts.

(** C7 (what the code does). With a table of external rewrites that is not
    empty, the rewrite of a JSON file's text does not complete: the loop
    [for old_url, (new_url, _) in self.__external_URL_rewrites] runs over
    the keys of the dict, and unpacking the first key raises [ValueError],
    before any replacement of the table is made. *)
Theorem external_rewrites_raise_value_error
    (save_path : string) (repository_list : list (string * string))
    (mapping : list string) (html_unescape : string → string)
    (old_url : string) (new_urls : string * string)
    (table : list (string * (string * string)))
    (children : list Crawler.node) (data : string) :
  Rewriter.rewrite_json save_path repository_list ((old_url, new_urls) :: table)
    mapping html_unescape children data = Rewriter.Raised Rewriter.ValueError.
Proof.
  unfold Rewriter.rewrite_json.
  destruct stupid_url_pattern_compiles as [r1 ->].
  destruct email_pattern_compiles as [r2 ->].
  cbn [Rewriter.and_then map fst].
  apply external_rewrites_raises.
Qed.

(** The same on a node of the tree: its file is there, the output is not. *)
Example external_rewrites_raise_on_node :
  let data := ("{" ++ PyStr.dq ++ "name" ++ PyStr.dq ++ ": " ++ PyStr.dq ++ "widget"
               ++ PyStr.dq ++ "}")%string in
  Rewriter.make_urls_relative "/project/bitbucket_data_raw" "/project/gh-pages/data"
    [("acme", "widget")]
    [("https://bitbucket.org/acme/widget",
      ("https://acme.github.io/widget", "https://github.com/acme/widget"))]
    ["acme/widget"] (λ s, s)
    [Crawler.Node "https://api.bitbucket.org/2.0/repositories/acme/widget"
       "https://api.bitbucket.org/2.0/repositories/acme/widget"
       "/project/bitbucket_data_raw/repositories/acme/widget.json" false []]
    {["/project/bitbucket_data_raw/repositories/acme/widget.json" := data]}
  = Rewriter.Raised Rewriter.ValueError.
Proof. vm_compute. reflexivity. Qed.

(** With an empty table (no file of external rewrites), the loop does
    nothing. *)
Example external_rewrites_empty (data : string) :
  Rewriter.external_rewrites [] data = Rewriter.Done data.
Proof. reflexivity. Qed.

(** *** Links to archived repositories *)

Definition api_url_of_widget : string :=
  "https://api.bitbucket.org/2.0/repositories/acme/widget".

(** A body with the plain quoted API URL of the archived repository. *)
Definition body_plain : string :=
  ("{" ++ PyStr.dq ++ "href" ++ PyStr.dq ++ ": " ++ PyStr.dq ++ api_url_of_widget
     ++ PyStr.dq ++ "}")%string.

(** A body with a malformed link in escaped HTML. *)
Definition body_escaped (link : string) : string :=
  ("{" ++ PyStr.dq ++ "html" ++ PyStr.dq ++ ": " ++ PyStr.dq ++ "<a href="
     ++ Rewriter.bq ++ link ++ Rewriter.bq ++ ">widget</a>" ++ PyStr.dq ++ "}")%string.

Definition rewrite_widget_json (children : list Crawler.node) (data : string)
    : Rewriter.result string :=
  Rewriter.rewrite_json "/project/bitbucket_data_raw" [("acme", "widget")] []
    ["acme/widget"] (λ s, s) children data.


(** ** Comments: the two-comment thread *)

Definition comment_1 : Comments.comment :=
  {| Comments.id := 1; Comments.parent := None; Comments.payload := "first" |}.

Definition comment_2 : Comments.comment :=
  {| Comments.id := 2;
     Comments.parent := Some {| Comments.parent_id := 1; Comments.depth := None |};
     Comments.payload := "second" |}.

(** The depth annotation a comment carries: [c['parent']['depth']]. *)
Definition depth_annotation (c : Comments.comment) : option nat :=
  p ← Comments.parent c; Comments.depth p.

(** C8 (as stated, refuted). After the reconstruction of the two-comment
    thread, comment 1 carries no depth annotation: it is not 0. *)
Lemma root_comment_has_no_depth :
  (map depth_annotation <$> Comments.reconstruct 3 [comment_1; comment_2])
    = Some [None; Some 1]
  ∧ (map depth_annotation <$> Comments.reconstruct 3 [comment_1; comment_2])
    ≠ Some [Some 0; Some 1].
Proof. split; [vm_compute; reflexivity | vm_compute; discriminate]. Qed.

(** C8 (amended). The reconstruction of the thread [{id:1}, {id:2, parent:1}]
    gives the order [comment 1, comment 2]; comment 2 carries the depth 1 in
    its parent record, and comment 1, which has no parent record to hold a
    depth, comes out as it went in. *)
Theorem two_comment_thread :
  Comments.reconstruct 3 [comment_1; comment_2] =
    Some [ comment_1;
           {| Comments.id := 2;
              Comments.parent := Some {| Comments.parent_id := 1; Comments.depth := Some 1 |};
              Comments.payload := "second" |} ]
  ∧ (map Comments.id <$> Comments.reconstruct 3 [comment_1; comment_2]) = Some [1%Z; 2%Z]
  ∧ (map depth_annotation <$> Comments.reconstruct 3 [comment_1; comment_2])
      = Some [None; Some 1].
Proof. vm_compute. repeat split; reflexivity. Qed.

(** ** Forests: the shape of a comment hierarchy

    A hierarchy of nested [OrderedDict]s, read as a forest: the first tree
    (its comment index and its children), then the trees after it. *)

Inductive forest : Type :=
| FNil
| FCons (index : nat) (kids rest : forest).

(** The indices in depth-first order, parents first. *)
Fixpoint preorder (F : forest) : list nat :=
  match F with
  | FNil => []
  | FCons i k r => i :: preorder k ++ preorder r
  end.

(** One more tree, a single node, after the last one. *)
Fixpoint snoc (F : forest) (i : nat) : forest :=
  match F with
  | FNil => FCons i FNil FNil
  | FCons x k r => FCons x k (snoc r i)
  end.

(** One more child, a single node, under the node [j]. *)
Fixpoint attach (j i : nat) (F : forest) : forest :=
  match F with
  | FNil => FNil
  | FCons x k r =>
      if decide (x = j) then FCons x (snoc k i) r
      else FCons x (attach j i k) (attach j i r)
  end.

Fixpoint height (F : forest) : nat :=
  match F with
  | FNil => 0
  | FCons _ k r => S (height k) `max` height r
  end.

(** The first level of a forest. *)
Fixpoint roots (F : forest) : list nat :=
  match F with
  | FNil => []
  | FCons x _ r => x :: roots r
  end.

(** The forest below the node [j]: its children and theirs. *)
Fixpoint below (j : nat) (F : forest) : forest :=
  match F with
  | FNil => FNil
  | FCons x k r =>
      if decide (x = j) then k
      else if decide (j ∈ preorder k) then below j k else below j r
  end.

(** On every level the indices go up. *)
Fixpoint ascending (F : forest) : Prop :=
  match F with
  | FNil => True
  | FCons x k r => (∀ y, y ∈ roots r → (x < y)%nat) ∧ ascending k ∧ ascending r
  end.

(** [a] comes before [b] in [l]. *)
Definition before {A} (a b : A) (l : list A) : Prop :=
  ∃ i j, i < j ∧ l !! i = Some a ∧ l !! j = Some b.

Section Before.
Context {A : Type}.
Implicit Types (a b x : A) (l : list A).

Lemma before_app_l a b l l' : before a b l → before a b (l ++ l').
Proof.
  intros (i & j & Hij & Hi & Hj). exists i, j.
  split; [done|]. split; by apply lookup_app_l_Some.
Qed.

Lemma before_app_r a b l l' : before a b l' → before a b (l ++ l').
Proof.
  intros (i & j & Hij & Hi & Hj). exists (length l + i), (length l + j).
  split; [lia|]. rewrite !lookup_app_r by lia.
  by replace (length l + i - length l) with i by lia;
     replace (length l + j - length l) with j by lia.
Qed.

Lemma before_cons a b x l : before a b l → before a b (x :: l).
Proof. apply (before_app_r a b [x] l). Qed.

Lemma before_across a b l l' : a ∈ l → b ∈ l' → before a b (l ++ l').
Proof.
  intros [i Hi]%list_elem_of_lookup [j Hj]%list_elem_of_lookup.
  exists i, (length l + j). split.
  - apply lookup_lt_Some in Hi. lia.
  - split; [by apply lookup_app_l_Some|].
    rewrite lookup_app_r by lia. by replace (length l + j - length l) with j by lia.
Qed.

Lemma before_head a b l : b ∈ l → before a b (a :: l).
Proof.
  intros Hb. apply (before_across a b [a] l); [|done]. by apply list_elem_of_singleton.
Qed.

Lemma before_app_inv a b l l' :
  before a b (l ++ l') → before a b l ∨ (a ∈ l ∧ b ∈ l') ∨ before a b l'.
Proof.
  intros (i & j & Hij & Hi & Hj).
  destruct (decide (j < length l)) as [Hjl|Hjl].
  - left. exists i, j. split; [done|].
    rewrite lookup_app_l in Hi by lia. by rewrite lookup_app_l in Hj by lia.
  - rewrite lookup_app_r in Hj by lia.
    destruct (decide (i < length l)) as [Hil|Hil].
    + right. left. rewrite lookup_app_l in Hi by lia.
      split; by eapply list_elem_of_lookup_2.
    + right. right. rewrite lookup_app_r in Hi by lia.
      exists (i - length l), (j - length l). split; [lia | done].
Qed.

Lemma before_cons_inv a b x l : before a b (x :: l) → (a = x ∧ b ∈ l) ∨ before a b l.
Proof.
  intros H. apply (before_app_inv a b [x] l) in H as [H|[[Ha Hb]|H]].
  - destruct H as (i & j & Hij & Hi & Hj).
    apply lookup_lt_Some in Hj. cbn in Hj. lia.
  - left. apply list_elem_of_singleton in Ha. done.
  - by right.
Qed.

Lemma before_elem_of a b l : before a b l → a ∈ l ∧ b ∈ l.
Proof.
  intros (i & j & _ & Hi & Hj). split; by eapply list_elem_of_lookup_2.
Qed.

Lemma before_ne a b l : NoDup l → before a b l → a ≠ b.
Proof.
  intros Hnd (i & j & Hij & Hi & Hj) ->.
  pose proof (NoDup_lookup _ _ _ _ Hnd Hi Hj). lia.
Qed.

Lemma before_asym a b l : NoDup l → before a b l → before b a l → False.
Proof.
  intros Hnd (i & j & Hij & Hi & Hj) (i' & j' & Hij' & Hi' & Hj').
  pose proof (NoDup_lookup _ _ _ _ Hnd Hi Hj').
  pose proof (NoDup_lookup _ _ _ _ Hnd Hj Hi'). lia.
Qed.

Lemma before_inv_l a b l l' : NoDup (l ++ l') → b ∈ l → before a b (l ++ l') → before a b l.
Proof.
  intros (_ & Hd & _)%NoDup_app Hb [H|[[_ H]|H]]%before_app_inv; [done| |].
  - by destruct (Hd b).
  - apply before_elem_of in H as [_ H]. by destruct (Hd b).
Qed.

Lemma before_inv_r a b l l' : NoDup (l ++ l') → a ∈ l' → before a b (l ++ l') → before a b l'.
Proof.
  intros (_ & Hd & _)%NoDup_app Ha [H|[[H _]|H]]%before_app_inv; [| |done].
  - apply before_elem_of in H as [H _]. by destruct (Hd a).
  - by destruct (Hd a).
Qed.

Lemma before_map {B} (f : A → B) a b l : before a b l → before (f a) (f b) (map f l).
Proof.
  intros (i & j & Hij & Hi & Hj). exists i, j. split; [done|].
  change (map f l) with (f <$> l). rewrite !list_lookup_fmap, Hi, Hj. done.
Qed.

End Before.

Section ForestFacts.
Implicit Types (F k r : forest) (x i j p s c d : nat).

Lemma preorder_snoc F i : preorder (snoc F i) = preorder F ++ [i].
Proof.
  induction F as [|x k _ r IH]; cbn; [done|].
  by rewrite IH, app_assoc.
Qed.

Lemma roots_snoc F i : roots (snoc F i) = roots F ++ [i].
Proof. induction F as [|x k _ r IH]; cbn; [done|]. by rewrite IH. Qed.

Lemma roots_attach j i F : roots (attach j i F) = roots F.
Proof.
  induction F as [|x k _ r IH]; cbn; [done|].
  destruct (decide (x = j)); cbn; by rewrite ?IH.
Qed.

Lemma attach_absent j i F : j ∉ preorder F → attach j i F = F.
Proof.
  induction F as [|x k IHk r IHr]; cbn; [done|].
  intros Hj. apply not_elem_of_cons in Hj as [Hx Hj].
  apply not_elem_of_app in Hj as [Hk Hr].
  destruct (decide (x = j)); [congruence|]. by rewrite IHk, IHr.
Qed.

Lemma preorder_attach j i F :
  NoDup (preorder F) → j ∈ preorder F → preorder (attach j i F) ≡ₚ i :: preorder F.
Proof.
  induction F as [|x k IHk r IHr]; cbn.
  - intros _ H. by apply elem_of_nil in H.
  - intros Hnd Hj. apply NoDup_cons in Hnd as [Hx Hnd].
    apply NoDup_app in Hnd as (Hk & Hkr & Hr).
    destruct (decide (x = j)) as [->|Hne]; cbn.
    + rewrite preorder_snoc.
      rewrite <- app_assoc. cbn.
      by rewrite <- Permutation_middle, (Permutation_swap i j).
    + apply elem_of_cons in Hj as [?|Hj]; [congruence|].
      apply elem_of_app in Hj as [Hj|Hj].
      * rewrite (IHk Hk Hj). rewrite (attach_absent j i r) by (by apply Hkr).
        cbn. apply Permutation_swap.
      * rewrite (IHr Hr Hj).
        rewrite (attach_absent j i k) by (intros Hjk; by apply (Hkr _ Hjk)).
        rewrite <- Permutation_middle. apply Permutation_swap.
Qed.

Lemma height_le_size F : (height F ≤ length (preorder F))%nat.
Proof.
  induction F as [|x k IHk r IHr]; cbn; [done|].
  rewrite length_app. lia.
Qed.

Lemma roots_preorder F x : x ∈ roots F → x ∈ preorder F.
Proof.
  induction F as [|y k _ r IH]; cbn; [done|].
  rewrite !elem_of_cons, elem_of_app. intros [->|H]; [by left|]. right. right. by apply IH.
Qed.

Lemma below_preorder j F x : x ∈ preorder (below j F) → x ∈ preorder F.
Proof.
  induction F as [|y k IHk r IHr]; cbn; [done|].
  rewrite elem_of_cons, elem_of_app.
  destruct (decide (y = j)); [|destruct (decide (j ∈ preorder k))]; naive_solver.
Qed.

Lemma below_here x k r : below x (FCons x k r) = k.
Proof. cbn. by destruct (decide (x = x)). Qed.

Lemma below_else x k r p :
  x ≠ p → p ∉ preorder k → below p (FCons x k r) = below p r.
Proof.
  intros Hx Hp. cbn. destruct (decide (x = p)); [done|].
  by destruct (decide (p ∈ preorder k)).
Qed.

(** In a forest without repeated indices, what lies below a node is found
    in the one tree that holds the node. *)
Lemma below_kids x k r p :
  NoDup (preorder (FCons x k r)) → p ∈ preorder k → below p (FCons x k r) = below p k.
Proof.
  cbn. intros [Hx _]%NoDup_cons Hp.
  destruct (decide (x = p)) as [->|_].
  - destruct Hx. apply elem_of_app. by left.
  - by destruct (decide (p ∈ preorder k)).
Qed.

Lemma below_rest x k r p :
  NoDup (preorder (FCons x k r)) → p ∈ preorder r → below p (FCons x k r) = below p r.
Proof.
  cbn. intros [Hx (_ & Hd & _)%NoDup_app]%NoDup_cons Hp.
  destruct (decide (x = p)) as [->|_].
  - destruct Hx. apply elem_of_app. by right.
  - destruct (decide (p ∈ preorder k)) as [Hk|_]; [by destruct (Hd p)|done].
Qed.

(** A node comes before everything below it. *)
Lemma below_after j i F :
  NoDup (preorder F) → i ∈ preorder (below j F) → before j i (preorder F).
Proof.
  induction F as [|x k IHk r IHr]; [by intros _ ?%elem_of_nil|].
  intros Hnd. cbn. pose proof Hnd as [Hx (Hk & Hd & Hr)%NoDup_app]%NoDup_cons.
  destruct (decide (x = j)) as [->|_].
  - intros Hi. apply before_head, elem_of_app. by left.
  - destruct (decide (j ∈ preorder k)); intros Hi; apply before_cons.
    + apply before_app_l. by apply IHk.
    + apply before_app_r. by apply IHr.
Qed.

(** What lies below a child lies below its parent. *)
Lemma below_child s d' d F :
  NoDup (preorder F) →
  d' ∈ preorder (below s F) → d ∈ roots (below d' F) → d ∈ preorder (below s F).
Proof.
  induction F as [|x k IHk r IHr]; [by intros _ ?%elem_of_nil|].
  intros Hnd. pose proof Hnd as [Hx (Hk & Hd & Hr)%NoDup_app]%NoDup_cons.
  destruct (decide (x = s)) as [->|Hxs]; [|destruct (decide (s ∈ preorder k))].
  - rewrite (below_here s k r). intros Hd'. rewrite (below_kids _ _ _ _ Hnd Hd').
    intros H. by eapply below_preorder, roots_preorder.
  - rewrite (below_kids _ _ _ s Hnd) by done. intros Hd'.
    rewrite (below_kids _ _ _ d' Hnd) by (by eapply below_preorder). by apply IHk.
  - rewrite (below_else _ _ r s) by done. intros Hd'.
    rewrite (below_rest _ _ _ d' Hnd) by (by eapply below_preorder). by apply IHr.
Qed.

(** Depth first: of two trees on the first level, the whole of the earlier
    one comes before the whole of the later one. *)
Lemma roots_depth_first p s c d F :
  NoDup (preorder F) →
  p ∈ roots F → s ∈ roots F → before p s (preorder F) →
  c ∈ p :: preorder (below p F) → d ∈ s :: preorder (below s F) →
  before c d (preorder F).
Proof.
  induction F as [|x k _ r IHr]; [by intros _ ?%elem_of_nil|].
  intros Hnd. pose proof Hnd as [Hx (Hk & Hd & Hr)%NoDup_app]%NoDup_cons.
  cbn [roots preorder]. intros Hp Hs Hps Hc Hdd.
  assert (Hs' : s ∈ roots r).
  { apply elem_of_cons in Hs as [->|Hs]; [|done].
    apply before_cons_inv in Hps as [[_ H]|H]; [done|].
    by apply before_elem_of in H as [_ H]. }
  pose proof (roots_preorder _ _ Hs') as Hsr.
  rewrite (below_rest _ _ _ s Hnd Hsr) in Hdd.
  assert (Hdr : d ∈ preorder r).
  { apply elem_of_cons in Hdd as [->|Hdd]; [done|]. by eapply below_preorder. }
  apply elem_of_cons in Hp as [->|Hp].
  - change (before c d ((x :: preorder k) ++ preorder r)).
    apply before_across; [|done]. by rewrite below_here in Hc.
  - pose proof (roots_preorder _ _ Hp) as Hpr.
    rewrite (below_rest _ _ _ p Hnd Hpr) in Hc.
    change (before c d ((x :: preorder k) ++ preorder r)).
    apply before_app_r, IHr; [done|done|done| |done|done].
    change (before p s ((x :: preorder k) ++ preorder r)) in Hps.
    apply before_inv_r in Hps; [done|exact Hnd|done].
Qed.

(** The same among the children of one node. *)
Lemma children_depth_first j p s c d F :
  NoDup (preorder F) →
  p ∈ roots (below j F) → s ∈ roots (below j F) → before p s (preorder F) →
  c ∈ p :: preorder (below p F) → d ∈ s :: preorder (below s F) →
  before c d (preorder F).
Proof.
  induction F as [|x k IHk r IHr]; [by intros _ ?%elem_of_nil|].
  intros Hnd. pose proof Hnd as [Hx (Hk & Hd & Hr)%NoDup_app]%NoDup_cons.
  assert (Hnd' : NoDup ((x :: preorder k) ++ preorder r)) by exact Hnd.
  assert (Hnd'' : NoDup (preorder k ++ preorder r)) by (by apply NoDup_app).
  destruct (decide (x = j)) as [->|Hxj]; [|destruct (decide (j ∈ preorder k))].
  - rewrite (below_here j k r). intros Hp Hs Hps.
    pose proof (roots_preorder _ _ Hp) as Hpk. pose proof (roots_preorder _ _ Hs) as Hsk.
    rewrite (below_kids _ _ _ p Hnd Hpk), (below_kids _ _ _ s Hnd Hsk). intros Hc Hdd.
    apply before_cons, before_app_l. apply (roots_depth_first p s c d k); [done|done|done| |done|done].
    cbn in Hps. apply before_cons_inv in Hps as [[-> _]|Hps].
    + destruct Hx. apply elem_of_app. by left.
    + apply before_inv_l in Hps; [done|exact Hnd''|done].
  - rewrite (below_kids _ _ _ j Hnd) by done. intros Hp Hs Hps.
    pose proof (below_preorder _ _ _ (roots_preorder _ _ Hp)) as Hpk.
    pose proof (below_preorder _ _ _ (roots_preorder _ _ Hs)) as Hsk.
    rewrite (below_kids _ _ _ p Hnd Hpk), (below_kids _ _ _ s Hnd Hsk). intros Hc Hdd.
    apply before_cons, before_app_l. apply IHk; [done|done|done| |done|done].
    cbn in Hps. apply before_cons_inv in Hps as [[-> _]|Hps].
    + destruct Hx. apply elem_of_app. by left.
    + apply before_inv_l in Hps; [done|exact Hnd''|done].
  - rewrite (below_else _ _ r j) by done. intros Hp Hs Hps.
    pose proof (below_preorder _ _ _ (roots_preorder _ _ Hp)) as Hpk.
    pose proof (below_preorder _ _ _ (roots_preorder _ _ Hs)) as Hsk.
    rewrite (below_rest _ _ _ p Hnd Hpk), (below_rest _ _ _ s Hnd Hsk). intros Hc Hdd.
    apply before_cons, before_app_r. apply IHr; [done|done|done| |done|done].
    change (before p s ((x :: preorder k) ++ preorder r)) in Hps.
    apply before_inv_r in Hps; [done|exact Hnd'|done].
Qed.

Lemma ascending_snoc F i :
  ascending F → (∀ y, y ∈ roots F → (y < i)%nat) → ascending (snoc F i).
Proof.
  induction F as [|x k _ r IH]; cbn.
  - intros _ _. split; [by intros y ?%elem_of_nil|done].
  - intros (Hx & Hk & Hr) Hi. split; [|split; [done|]].
    + intros y. rewrite roots_snoc, elem_of_app, list_elem_of_singleton.
      intros [Hy| ->]; [by apply Hx|]. apply Hi. by left.
    + apply IH; [done|]. intros y Hy. apply Hi. by right.
Qed.

Lemma ascending_attach j i F :
  ascending F → (∀ y, y ∈ preorder F → (y < i)%nat) → ascending (attach j i F).
Proof.
  induction F as [|x k IHk r IHr]; cbn; [done|].
  intros (Hx & Hk & Hr) Hi.
  assert (Hik : ∀ y, y ∈ preorder k → (y < i)%nat).
  { intros y Hy. apply Hi. right. apply elem_of_app. by left. }
  assert (Hir : ∀ y, y ∈ preorder r → (y < i)%nat).
  { intros y Hy. apply Hi. right. apply elem_of_app. by right. }
  destruct (decide (x = j)) as [->|_]; cbn.
  - split; [done|]. split; [|done].
    apply ascending_snoc; [done|]. intros y Hy. by apply Hik, roots_preorder.
  - split; [|split; [by apply IHk|by apply IHr]].
    intros y. rewrite roots_attach. apply Hx.
Qed.

(** Where the indices go up, the entries of a level come out in the order
    of their indices. *)
Lemma ascending_roots_before p s F :
  ascending F → p ∈ roots F → s ∈ roots F → (p < s)%nat → before p s (preorder F).
Proof.
  induction F as [|x k _ r IHr]; [by intros _ ?%elem_of_nil|].
  cbn [roots preorder]. intros (Hx & _ & Hr) Hp Hs Hps.
  apply elem_of_cons in Hp as [->|Hp].
  - apply before_head. apply elem_of_cons in Hs as [->|Hs]; [lia|].
    apply elem_of_app. right. by apply roots_preorder.
  - apply elem_of_cons in Hs as [->|Hs].
    + specialize (Hx p Hp). lia.
    + apply before_cons, before_app_r. by apply IHr.
Qed.

Lemma ascending_children_before j p s F :
  NoDup (preorder F) → ascending F →
  p ∈ roots (below j F) → s ∈ roots (below j F) → (p < s)%nat →
  before p s (preorder F).
Proof.
  induction F as [|x k IHk r IHr]; [by intros _ _ ?%elem_of_nil|].
  intros Hnd (Hx & Hak & Har).
  pose proof Hnd as [_ (Hk & _ & Hr)%NoDup_app]%NoDup_cons.
  destruct (decide (x = j)) as [->|Hxj]; [|destruct (decide (j ∈ preorder k))].
  - rewrite (below_here j k r). intros Hp Hs Hps.
    apply before_cons, before_app_l. by apply ascending_roots_before.
  - rewrite (below_kids _ _ _ j Hnd) by done. intros Hp Hs Hps.
    apply before_cons, before_app_l. by apply IHk.
  - rewrite (below_else _ _ r j) by done. intros Hp Hs Hps.
    apply before_cons, before_app_r. by apply IHr.
Qed.

End ForestFacts.

(** ** Comment threads: the hierarchy that placement builds *)

(** The parent a comment declares can be placed: the comment declares
    none, or its parent is a comment of the list whose own parent can be
    placed (so the chain of parents ends, within the list). *)
Inductive satisfiable (comments : list Comments.comment) : Comments.comment → Prop :=
| satisfiable_root c :
    Comments.parent c = None → satisfiable comments c
| satisfiable_reply c p c' :
    Comments.parent c = Some p → c' ∈ comments →
    Comments.id c' = Comments.parent_id p →
    satisfiable comments c' → satisfiable comments c.

Section Hierarchy.
Import Comments.
Variable comments : list comment.

(** [comments[i]['id']] and [comments[i]['parent']['id']]. *)
Definition id_at (i : nat) : Z := default 0%Z (id <$> comments !! i).
Definition parent_at (i : nat) : option Z := c ← comments !! i; parent_id <$> parent c.

(** The [OrderedDict] of a level: its entries by comment id, in order. *)
Fixpoint keys (F : forest) : odict :=
  match F with
  | FNil => []
  | FCons i _ r => (id_at i, i) :: keys r
  end.

(** The store holds the ['children'] dict of every entry of the forest. *)
Fixpoint stored (store : gmap nat odict) (F : forest) : Prop :=
  match F with
  | FNil => True
  | FCons i k r => store !! i = Some (keys k) ∧ stored store k ∧ stored store r
  end.

(** Every entry is a comment of the list and sits under the parent it
    declares ([po] for the first level). *)
Fixpoint parented (po : option Z) (F : forest) : Prop :=
  match F with
  | FNil => True
  | FCons i k r =>
      (i < length comments)%nat ∧ parent_at i = po ∧
      parented (Some (id_at i)) k ∧ parented po r
  end.

(** The variables of the placement loop hold the forest [F]. *)
Record represents (st : placement) (F : forest) : Prop := {
  rep_hierarchy : comment_hierarchy st = keys F;
  rep_children : stored (children st) F;
  rep_done : done_idxs st ≡ₚ preorder F;
  rep_flat : ∀ k i, comment_flat st !! k = Some i ↔ i ∈ preorder F ∧ id_at i = k;
  rep_parented : parented None F;
  rep_nodup : NoDup (preorder F);
}.

Lemma id_at_lookup i c : comments !! i = Some c → id_at i = id c.
Proof. unfold id_at. by intros ->. Qed.

Lemma parent_at_lookup i c : comments !! i = Some c → parent_at i = parent_id <$> parent c.
Proof. unfold parent_at. by intros ->. Qed.

Lemma keys_snoc F i : keys (snoc F i) = keys F ++ [(id_at i, i)].
Proof. induction F as [|x k _ r IH]; cbn; [done|]. by rewrite IH. Qed.

Lemma keys_attach j i F : keys (attach j i F) = keys F.
Proof.
  induction F as [|x k _ r IH]; cbn; [done|].
  destruct (decide (x = j)); cbn; by rewrite ?IH.
Qed.

Lemma od_set_keys F i :
  (∀ x, x ∈ roots F → id_at x ≠ id_at i) →
  od_set (id_at i) i (keys F) = keys F ++ [(id_at i, i)].
Proof.
  induction F as [|x k _ r IH]; cbn; [done|]. intros H.
  destruct (Z.eqb_spec (id_at i) (id_at x)) as [Heq|_].
  - destruct (H x); [by left|done].
  - rewrite IH; [done|]. intros y Hy. apply H. by right.
Qed.

Lemma stored_ext store store' F :
  (∀ x, x ∈ preorder F → store' !! x = store !! x) → stored store F → stored store' F.
Proof.
  induction F as [|x k IHk r IHr]; cbn; [done|].
  intros H (Hx & Hk & Hr). split; [|split].
  - rewrite H; [done|by left].
  - apply IHk; [|done]. intros y Hy. apply H. right. apply elem_of_app. by left.
  - apply IHr; [|done]. intros y Hy. apply H. right. apply elem_of_app. by right.
Qed.

Lemma stored_snoc store F i :
  stored store F → store !! i = Some [] → stored store (snoc F i).
Proof.
  induction F as [|x k _ r IH]; cbn.
  - intros _ Hi. split; [done|by split].
  - intros (Hx & Hk & Hr) Hi. split; [done|]. split; [done|by apply IH].
Qed.

Lemma stored_attach store store' j i F :
  NoDup (preorder F) → i ∉ preorder F →
  stored store F →
  store' !! i = Some [] →
  (∀ x, x ≠ i → x ≠ j → store' !! x = store !! x) →
  (∀ l, store !! j = Some l → store' !! j = Some (l ++ [(id_at i, i)])) →
  stored store' (attach j i F).
Proof.
  intros Hnd Hi Hst Hsi Hother Hsj.
  induction F as [|x k IHk r IHr]; cbn; [done|].
  cbn in Hnd, Hi, Hst. destruct Hst as (Hx & Hstk & Hstr).
  apply NoDup_cons in Hnd as [Hxn (Hk & Hd & Hr)%NoDup_app].
  apply not_elem_of_cons in Hi as [Hix (Hik & Hir)%not_elem_of_app].
  destruct (decide (x = j)) as [->|Hxj]; cbn.
  - assert (Hjk : j ∉ preorder k) by (intros ?; apply Hxn, elem_of_app; by left).
    assert (Hjr : j ∉ preorder r) by (intros ?; apply Hxn, elem_of_app; by right).
    split; [|split].
    + rewrite keys_snoc. by apply Hsj.
    + apply stored_snoc; [|done]. eapply stored_ext; [|done].
      intros y Hy. apply Hother; congruence.
    + eapply stored_ext; [|done]. intros y Hy. apply Hother; congruence.
  - split; [|split].
    + rewrite keys_attach, Hother; [done|congruence|done].
    + by apply IHk.
    + by apply IHr.
Qed.

Lemma stored_below store j F :
  NoDup (preorder F) → stored store F → j ∈ preorder F →
  store !! j = Some (keys (below j F)).
Proof.
  induction F as [|x k IHk r IHr]; [by intros _ _ ?%elem_of_nil|].
  intros Hnd (Hx & Hk & Hr) Hj.
  pose proof Hnd as [_ (Hnk & _ & Hnr)%NoDup_app]%NoDup_cons.
  destruct (decide (x = j)) as [->|Hxj]; [by rewrite below_here|].
  apply elem_of_cons in Hj as [?|[Hj|Hj]%elem_of_app]; [congruence| |].
  - rewrite (below_kids _ _ _ j Hnd Hj). by apply IHk.
  - rewrite (below_rest _ _ _ j Hnd Hj). by apply IHr.
Qed.

Lemma parented_snoc po F i :
  parented po F → (i < length comments)%nat → parent_at i = po → parented po (snoc F i).
Proof.
  induction F as [|x k _ r IH]; cbn.
  - intros _ Hi Hp. split; [done|]. split; [done|by split].
  - intros (Hx & Hpx & Hk & Hr) Hi Hp. split; [done|]. split; [done|].
    split; [done|by apply IH].
Qed.

Lemma parented_attach po j i F :
  parented po F → (i < length comments)%nat → parent_at i = Some (id_at j) →
  parented po (attach j i F).
Proof.
  intros H Hi Hp. revert po H. induction F as [|x k IHk r IHr]; cbn; [done|].
  intros po (Hx & Hpx & Hk & Hr). destruct (decide (x = j)) as [->|_]; cbn.
  - repeat split; try done. by apply parented_snoc.
  - repeat split; try done; [by apply IHk|by apply IHr].
Qed.

Lemma parented_lt po F i : parented po F → i ∈ preorder F → (i < length comments)%nat.
Proof.
  revert po. induction F as [|x k IHk r IHr]; cbn; [by intros _ _ ?%elem_of_nil|].
  intros po (Hx & _ & Hk & Hr) [->|[H|H]%elem_of_app]%elem_of_cons; eauto.
Qed.

Section Distinct.
Hypothesis distinct_ids : NoDup (map id comments).

Lemma id_at_inj i j :
  (i < length comments)%nat → (j < length comments)%nat → id_at i = id_at j → i = j.
Proof.
  intros [c Hc]%lookup_lt_is_Some [c' Hc']%lookup_lt_is_Some.
  rewrite (id_at_lookup _ _ Hc), (id_at_lookup _ _ Hc'). intros Heq.
  apply (NoDup_lookup _ i j (id c) distinct_ids).
  - change (map id comments) with (id <$> comments). by rewrite list_lookup_fmap, Hc.
  - change (map id comments) with (id <$> comments). by rewrite list_lookup_fmap, Hc', Heq.
Qed.

Lemma flat_insert (flat : gmap Z nat) (L L' : list nat) i :
  (∀ k x, flat !! k = Some x ↔ x ∈ L ∧ id_at x = k) →
  (∀ x, x ∈ L → (x < length comments)%nat) →
  (i < length comments)%nat →
  (∀ x, x ∈ L' ↔ x = i ∨ x ∈ L) →
  ∀ k x, <[id_at i := i]> flat !! k = Some x ↔ x ∈ L' ∧ id_at x = k.
Proof.
  intros Hflat HL Hi HL' k x. destruct (decide (k = id_at i)) as [->|Hk].
  - rewrite lookup_insert_eq. split.
    + intros [= <-]. split; [|done]. apply HL'. by left.
    + intros [[->|Hx]%HL' Hid]; [done|]. f_equal. symmetry. apply id_at_inj; auto.
  - rewrite lookup_insert_ne by done. rewrite Hflat, HL'. split.
    + intros [? ?]. split; [by right|done].
    + intros [[->|?] ?]; [congruence|done].
Qed.

(** One turn of the [for] loop keeps the variables a forest: it leaves
    them as they are, or a comment without parent becomes a last tree, or
    a reply the last child of the entry of its parent. *)
Lemma place_comment_represents i c st F :
  comments !! i = Some c → represents st F →
  ∃ F', represents (place_comment i c st) F' ∧
        ((place_comment i c st = st ∧ F' = F) ∨
         ((i ∉ done_idxs st) ∧
          done_idxs (place_comment i c st) = done_idxs st ++ [i] ∧
          (F' = snoc F i ∨ ∃ j, F' = attach j i F))).
Proof.
  intros Hc HF. pose proof HF as [H1 H2 H3 H4 H5 H6]. unfold place_comment.
  case_bool_decide as Hi; [exists F; split; [done|by left]|].
  assert (HiF : i ∉ preorder F) by (by rewrite <- H3).
  assert (Hlt : (i < length comments)%nat) by (by eapply lookup_lt_Some).
  assert (Hin : ∀ x, x ∈ preorder F → (x < length comments)%nat)
    by (intros x; by apply parented_lt with (po := None)).
  assert (Hfresh : ∀ x, x ∈ preorder F → id_at x ≠ id_at i).
  { intros x Hx Heq. apply id_at_inj in Heq; [congruence|by apply Hin|done]. }
  pose proof (parent_at_lookup _ _ Hc) as Hpar.
  rewrite <- (id_at_lookup _ _ Hc).
  destruct (parent c) as [p|] eqn:Hp; cbn in Hpar.
  - destruct (comment_flat st !! parent_id p) as [j|] eqn:Hj;
      [|exists F; split; [done|by left]].
    apply H4 in Hj as [HjF Hjid].
    assert (Hji : j ≠ i) by congruence.
    pose proof (preorder_attach j i F H6 HjF) as Hperm.
    exists (attach j i F).
    split; [|right; split; [done|]; split; [done|right; by exists j]].
    split; cbn.
    + by rewrite keys_attach, H1.
    + apply stored_attach with (store := children st); try done.
      * rewrite lookup_insert_ne by done. by rewrite lookup_insert_eq.
      * intros x Hxi Hxj. by rewrite !lookup_insert_ne.
      * intros l Hl. rewrite lookup_insert_eq, lookup_insert_ne by done.
        unfold odict in Hl. rewrite Hl. cbn.
        f_equal.
        pose proof (stored_below _ j F H6 H2 HjF) as Hsub. unfold odict in Hsub.
        rewrite Hl in Hsub. injection Hsub as ->.
        apply od_set_keys. intros x Hx. by eapply Hfresh, below_preorder, roots_preorder.
    + by rewrite H3, Hperm, Permutation_app_comm.
    + apply flat_insert with (L := preorder F); try done.
      intros x. by rewrite Hperm, elem_of_cons.
    + apply parented_attach; [done|done|]. by rewrite Hpar, Hjid.
    + rewrite Hperm. by apply NoDup_cons.
  - exists (snoc F i).
    split; [|right; split; [done|]; split; [done|by left]].
    split; cbn.
    + rewrite keys_snoc, H1. apply od_set_keys. intros x Hx. by apply Hfresh, roots_preorder.
    + apply stored_snoc; [|by rewrite lookup_insert_eq].
      eapply stored_ext; [|done]. intros x Hx. rewrite lookup_insert_ne; [done|congruence].
    + by rewrite preorder_snoc, H3.
    + apply flat_insert with (L := preorder F); try done.
      intros x. rewrite preorder_snoc, elem_of_app, list_elem_of_singleton. tauto.
    + by apply parented_snoc.
    + rewrite preorder_snoc. apply NoDup_app. split; [done|]. split; [|apply NoDup_singleton].
      intros x Hx ->%list_elem_of_singleton. done.
Qed.

End Distinct.
End Hierarchy.

(** ** Comment threads: the placement loop ends *)

Section Placement.
Import Comments.
Variable comments : list comment.

(** The comment can be placed now: it has no parent, or its parent has
    an entry. *)
Definition placeable (c : comment) (st : placement) : Prop :=
  match parent c with
  | None => True
  | Some p => is_Some (comment_flat st !! parent_id p)
  end.

(** Every reply is listed after the comment it replies to. *)
Definition parents_first : Prop :=
  ∀ i c r, comments !! i = Some c → parent c = Some r →
    ∃ j c', (j < i)%nat ∧ comments !! j = Some c' ∧ id c' = parent_id r.

(** The comments before position [k] of the list are placed, in the order
    of the list. *)
Definition in_list_order (k : nat) (st : placement) (F : forest) : Prop :=
  ascending F ∧ ∃ m, (k ≤ m)%nat ∧ done_idxs st = seq 0 m.

(** Induction over one scan of the list. *)
Lemma scan_from_ind (P : nat → placement → Prop) :
  (∀ i c st, comments !! i = Some c → P i st → P (S i) (place_comment i c st)) →
  ∀ st, P 0%nat st → P (length comments) (scan_from 0 comments st).
Proof.
  intros Hstep.
  assert (H : ∀ suf k st, drop k comments = suf → (k ≤ length comments)%nat →
                P k st → P (length comments) (scan_from k suf st)).
  { induction suf as [|c suf IH]; intros k st Hdrop Hk HP; cbn.
    - assert (k = length comments) as <-; [|done].
      apply (f_equal length) in Hdrop. rewrite length_drop in Hdrop. cbn in Hdrop. lia.
    - assert (Hc : comments !! k = Some c).
      { rewrite <- (Nat.add_0_r k), <- lookup_drop, Hdrop. done. }
      apply IH.
      + rewrite (drop_S _ _ _ Hc) in Hdrop. by injection Hdrop.
      + apply lookup_lt_Some in Hc. lia.
      + by apply Hstep. }
  intros st. apply H; [done|lia].
Qed.

Lemma place_comment_done i c st :
  ∃ extra, done_idxs (place_comment i c st) = done_idxs st ++ extra.
Proof.
  unfold place_comment. case_bool_decide; [exists []; by rewrite app_nil_r|].
  destruct (parent c) as [p|]; [|by exists [i]].
  destruct (comment_flat st !! parent_id p); [by exists [i]|].
  exists []. by rewrite app_nil_r.
Qed.

Lemma place_comment_flat i c st k :
  is_Some (comment_flat st !! k) → is_Some (comment_flat (place_comment i c st) !! k).
Proof.
  intros Hk. unfold place_comment. case_bool_decide; [done|].
  destruct (parent c) as [p|]; [destruct (comment_flat st !! parent_id p); [|done]|];
    cbn; (destruct (decide (id c = k)) as [->|Hne];
          [by rewrite lookup_insert_eq | by rewrite lookup_insert_ne]).
Qed.

Lemma place_comment_placeable i c st : placeable c st → i ∈ done_idxs (place_comment i c st).
Proof.
  unfold placeable, place_comment. case_bool_decide; [done|].
  destruct (parent c) as [p|].
  - intros [j ->]. cbn. apply elem_of_app. right. by left.
  - intros _. cbn. apply elem_of_app. right. by left.
Qed.

(** A comment that can be placed when a scan starts is placed by it, and a
    scan only appends to [done_idxs]. *)
Lemma scan_places i c st :
  comments !! i = Some c → placeable c st →
  i ∈ done_idxs (scan_from 0 comments st) ∧
  ∃ extra, done_idxs (scan_from 0 comments st) = done_idxs st ++ extra.
Proof.
  intros Hc Hready.
  pose (P := λ (k : nat) (s : placement),
    (∃ extra, done_idxs s = done_idxs st ++ extra) ∧
    (∀ key, is_Some (comment_flat st !! key) → is_Some (comment_flat s !! key)) ∧
    ((i < k)%nat → i ∈ done_idxs s)).
  assert (HP : P (length comments) (scan_from 0 comments st)).
  { apply scan_from_ind.
    - intros k ck s Hck ([extra He] & Hflat & Hi). split; [|split].
      + destruct (place_comment_done k ck s) as [extra' He'].
        exists (extra ++ extra'). by rewrite He', He, app_assoc.
      + intros key Hkey. by apply place_comment_flat, Hflat.
      + intros Hlt. destruct (decide (i = k)) as [->|Hne].
        * assert (ck = c) as -> by congruence.
          apply place_comment_placeable. unfold placeable in *.
          destruct (parent c); [by apply Hflat|done].
        * destruct (place_comment_done k ck s) as [extra' ->].
          apply elem_of_app. left. apply Hi. lia.
    - split; [exists []; by rewrite app_nil_r|]. split; [done|lia]. }
  destruct HP as (He & _ & Hi). split; [|done].
  apply Hi. by eapply lookup_lt_Some.
Qed.

Section Distinct.
Hypothesis distinct_ids : NoDup (map id comments).
Hypothesis parents_satisfiable : ∀ c, c ∈ comments → satisfiable comments c.

(** Where parents come first, a turn of the loop places the comment it
    is at, unless placed already. *)
Lemma place_comment_in_list_order k c st F :
  comments !! k = Some c → represents comments st F →
  (parents_first → in_list_order k st F) →
  ∃ F', represents comments (place_comment k c st) F' ∧
        (parents_first → in_list_order (S k) (place_comment k c st) F').
Proof.
  intros Hc HF Hord.
  destruct (place_comment_represents comments distinct_ids k c st F Hc HF)
    as (F' & HF' & Hshape).
  exists F'. split; [done|]. intros Hpf.
  destruct (Hord Hpf) as (Hasc & m & Hkm & Hdone).
  destruct Hshape as [[Hsame ->]|(Hk & Hdone' & Hshape)].
  - rewrite Hsame. split; [done|]. exists m. split; [|done].
    destruct (decide (k = m)) as [->|]; [|lia]. exfalso.
    assert (Hplaceable : placeable c st).
    { unfold placeable. destruct (parent c) as [r|] eqn:Hr; [|done].
      destruct (Hpf _ _ _ Hc Hr) as (j & c' & Hj & Hc' & Hid).
      exists j. apply (rep_flat _ _ _ HF). split.
      - rewrite <- (rep_done _ _ _ HF), Hdone. apply elem_of_seq. lia.
      - by rewrite (id_at_lookup _ _ _ Hc'). }
    pose proof (place_comment_placeable m c st Hplaceable) as Hin.
    rewrite Hsame, Hdone in Hin. apply elem_of_seq in Hin. lia.
  - assert (m = k) as ->.
    { rewrite Hdone in Hk. rewrite elem_of_seq in Hk. lia. }
    assert (Hlt : ∀ y, y ∈ preorder F → (y < k)%nat).
    { intros y. rewrite <- (rep_done _ _ _ HF), Hdone, elem_of_seq. lia. }
    split.
    + destruct Hshape as [->|[j ->]].
      * apply ascending_snoc; [done|]. intros y Hy. by apply Hlt, roots_preorder.
      * by apply ascending_attach.
    + exists (S k). split; [lia|]. by rewrite Hdone', Hdone, seq_S.
Qed.

Lemma scan_represents st F :
  represents comments st F → (parents_first → in_list_order 0 st F) →
  ∃ F', represents comments (scan_from 0 comments st) F' ∧
        (parents_first → in_list_order 0 (scan_from 0 comments st) F').
Proof.
  intros HF Hord.
  assert (H : ∃ F', represents comments (scan_from 0 comments st) F' ∧
                (parents_first →
                 in_list_order (length comments) (scan_from 0 comments st) F')).
  { apply (scan_from_ind (λ k s, ∃ F', represents comments s F' ∧
                                   (parents_first → in_list_order k s F')));
      [|by exists F].
    intros i c s Hc (F' & HF' & Hord'). by eapply place_comment_in_list_order. }
  destruct H as (F' & HF' & Hord'). exists F'. split; [done|].
  intros Hpf. destruct (Hord' Hpf) as (Hasc & m & _ & Hdone).
  split; [done|]. exists m. split; [lia|done].
Qed.

(** While comments remain, one of them can be placed. *)
Lemma unplaced_placeable st F :
  represents comments st F →
  (length (done_idxs st) < length comments)%nat →
  ∃ i c, comments !! i = Some c ∧ (i ∉ done_idxs st) ∧ placeable c st.
Proof.
  intros HF Hlen.
  assert (Hex : ∃ i, (i < length comments)%nat ∧ i ∉ done_idxs st).
  { destruct (decide (Forall (λ i, i ∈ done_idxs st) (seq 0 (length comments))))
      as [Hall|Hnot].
    - exfalso. rewrite Forall_forall in Hall.
      pose proof (NoDup_submseteq _ _ (NoDup_seq 0 (length comments)) Hall) as Hsub.
      apply submseteq_length in Hsub. rewrite length_seq in Hsub. lia.
    - apply not_Forall_Exists in Hnot; [|apply _].
      apply Exists_exists in Hnot as (i & Hi & Hni).
      exists i. split; [|done]. apply elem_of_seq in Hi. lia. }
  destruct Hex as (i & [c Hc]%lookup_lt_is_Some & Hi).
  assert (Hsat : satisfiable comments c)
    by (by eapply parents_satisfiable, list_elem_of_lookup_2).
  revert i Hc Hi. induction Hsat as [c Hroot|c p c' Hp Hc' Hid _ IH]; intros i Hc Hi.
  - exists i, c. repeat split; try done. unfold placeable. by rewrite Hroot.
  - apply list_elem_of_lookup in Hc' as [j Hj].
    destruct (decide (j ∈ done_idxs st)) as [Hdone|Hdone]; [|by apply (IH j)].
    exists i, c. repeat split; try done. unfold placeable. rewrite Hp.
    exists j. apply (rep_flat _ _ _ HF). split.
    + by rewrite <- (rep_done _ _ _ HF).
    + by rewrite (id_at_lookup _ _ _ Hj).
Qed.

(** The [while] loop ends within as many scans as comments remain, and
    leaves a forest of all the comments. *)
Lemma place_terminates fuel st F :
  represents comments st F → (parents_first → in_list_order 0 st F) →
  (length comments - length (done_idxs st) ≤ fuel)%nat →
  ∃ st' F', place fuel comments st = Some st' ∧ represents comments st' F' ∧
            (parents_first → in_list_order 0 st' F') ∧
            (length comments ≤ length (done_idxs st'))%nat.
Proof.
  revert st F. induction fuel as [|fuel IH]; intros st F HF Hord Hfuel.
  - exists st, F. cbn [place].
    destruct (Nat.ltb_spec (length (done_idxs st)) (length comments)); [lia|].
    split; [done|]. split; [done|]. by split.
  - cbn [place].
    destruct (Nat.ltb_spec (length (done_idxs st)) (length comments)) as [Hlt|Hge].
    + destruct (scan_represents st F HF Hord) as (F' & HF' & Hord').
      destruct (unplaced_placeable st F HF Hlt) as (i & c & Hc & Hi & Hready).
      destruct (scan_places i c st Hc Hready) as (Hi' & extra & He).
      apply (IH _ F' HF' Hord').
      rewrite He, length_app. destruct extra as [|x extra].
      * rewrite He, app_nil_r in Hi'. done.
      * cbn. lia.
    + exists st, F. split; [done|]. split; [done|]. by split.
Qed.


End Distinct.
End Placement.

(** ** Comment threads: flattening, and the order that comes out *)

(** [c] is a reply to [p]. *)
Definition reply_to (c p : Comments.comment) : Prop :=
  ∃ r, Comments.parent c = Some r ∧ Comments.parent_id r = Comments.id p.

(** [p] and [s] declare the same parent, or none. *)
Definition siblings (p s : Comments.comment) : Prop :=
  Comments.parent_id <$> Comments.parent p = Comments.parent_id <$> Comments.parent s.

(** The thread of [s]: [s] itself, the replies to it in the list, and the
    replies to those. *)
Inductive thread (comments : list Comments.comment) (s : Comments.comment)
  : Comments.comment → Prop :=
| thread_top : thread comments s s
| thread_reply d d' :
    d ∈ comments → reply_to d d' → thread comments s d' → thread comments s d.

Section Flattening.
Import Comments.
Variable comments : list comment.

(** What [flatten_comments] appends for the forest [F]. *)
Fixpoint annotate (depth : nat) (F : forest) : list comment :=
  match F with
  | FNil => []
  | FCons i k r =>
      from_option (λ c, [set_depth depth c]) [] (comments !! i)
        ++ annotate (S depth) k ++ annotate depth r
  end.

Lemma flatten_comments_cons fuel store key index hs acc depth :
  flatten_comments (S fuel) store comments ((key, index) :: hs) acc depth =
    c ← comments !! index;
    kids ← store !! index;
    r ← flatten_comments fuel store comments kids (acc ++ [set_depth depth c]) (S depth);
    flatten_comments (S fuel) store comments hs r depth.
Proof. reflexivity. Qed.

Lemma flatten_annotate fuel store F acc depth :
  stored comments store F →
  (∀ x, x ∈ preorder F → (x < length comments)%nat) →
  (height F < fuel)%nat →
  flatten_comments fuel store comments (keys comments F) acc depth =
    Some (acc ++ annotate depth F).
Proof.
  revert F acc depth. induction fuel as [|fuel IH]; [intros; lia|].
  induction F as [|i k _ r IHr]; intros acc depth Hst Hin Hh.
  - cbn. by rewrite app_nil_r.
  - cbn [keys annotate]. rewrite flatten_comments_cons.
    destruct Hst as (Hi & Hk & Hr). cbn in Hh.
    destruct (lookup_lt_is_Some_2 comments i) as [c Hc]; [apply Hin; by left|].
    rewrite Hc. cbn [mbind option_bind]. unfold odict in *. rewrite Hi. cbn [mbind option_bind].
    rewrite (IH k); [cbn [mbind option_bind]| done | | lia].
    + rewrite IHr; [|done| |lia].
      * by rewrite <- !app_assoc.
      * intros x Hx. apply Hin. right. apply elem_of_app. by right.
    + intros x Hx. apply Hin. right. apply elem_of_app. by left.
Qed.

Lemma id_set_depth d c : id (set_depth d c) = id c.
Proof. unfold set_depth. by destruct (parent c). Qed.

Lemma annotate_ids depth F :
  (∀ x, x ∈ preorder F → (x < length comments)%nat) →
  map id (annotate depth F) = map (id_at comments) (preorder F).
Proof.
  revert depth. induction F as [|i k IHk r IHr]; intros depth Hin; [done|].
  cbn. destruct (lookup_lt_is_Some_2 comments i) as [c Hc]; [apply Hin; by left|].
  rewrite !map_app, IHk, IHr, Hc.
  - cbn. by rewrite id_set_depth, (id_at_lookup _ _ _ Hc).
  - intros x Hx. apply Hin. right. apply elem_of_app. by right.
  - intros x Hx. apply Hin. right. apply elem_of_app. by left.
Qed.

Lemma ids_of_all : map (id_at comments) (seq 0 (length comments)) = map id comments.
Proof.
  apply list_eq. intros i.
  change (map ?f ?l) with (f <$> l). rewrite !list_lookup_fmap.
  destruct (comments !! i) as [c|] eqn:Hc.
  - rewrite (lookup_seq_lt 0) by (by eapply lookup_lt_Some).
    cbn. by rewrite (id_at_lookup _ _ _ Hc).
  - rewrite lookup_seq_ge; [done|]. by apply lookup_ge_None.
Qed.

Lemma represents_start : represents comments start FNil.
Proof.
  split; cbn; try done.
  - intros k i. rewrite lookup_empty. split; [done|]. by intros [?%elem_of_nil _].
  - apply NoDup_nil_2.
Qed.

Section Order.
Hypothesis distinct_ids : NoDup (map id comments).

(** An entry of a forest is on its first level, or a child of an entry. *)
Lemma parented_cases po F i :
  NoDup (preorder F) → parented comments po F → i ∈ preorder F →
  (i ∈ roots F ∧ parent_at comments i = po) ∨
  (∃ j, j ∈ preorder F ∧ i ∈ roots (below j F) ∧
        parent_at comments i = Some (id_at comments j)).
Proof.
  revert po. induction F as [|x k IHk r IHr]; intros po Hnd; [by intros _ ?%elem_of_nil|].
  pose proof Hnd as [_ (Hnk & _ & Hnr)%NoDup_app]%NoDup_cons.
  intros (Hx & Hpx & Hk & Hr) Hi.
  apply elem_of_cons in Hi as [->|[Hi|Hi]%elem_of_app].
  - left. split; [by left|done].
  - right. destruct (IHk _ Hnk Hk Hi) as [[Hroot Hpar]|(j & Hj & Hroot & Hpar)].
    + exists x. rewrite below_here. split; [by left|done].
    + exists j. rewrite (below_kids _ _ _ j Hnd Hj). split; [|done].
      right. apply elem_of_app. by left.
  - destruct (IHr _ Hnr Hr Hi) as [[Hroot Hpar]|(j & Hj & Hroot & Hpar)].
    + left. split; [by right|done].
    + right. exists j. rewrite (below_rest _ _ _ j Hnd Hj). split; [|done].
      right. apply elem_of_app. by right.
Qed.

Variable G : forest.
Hypothesis G_nodup : NoDup (preorder G).
Hypothesis G_parented : parented comments None G.

Let G_lt : ∀ x, x ∈ preorder G → (x < length comments)%nat.
Proof. intros x. by apply parented_lt with (po := None). Qed.

Lemma reply_is_child c p :
  c ∈ preorder G → p ∈ preorder G →
  parent_at comments c = Some (id_at comments p) → c ∈ roots (below p G).
Proof.
  intros Hc Hp Hpar.
  destruct (parented_cases None G c G_nodup G_parented Hc)
    as [[_ Hnone]|(j & Hj & Hroot & Hpar')]; [congruence|].
  assert (j = p) as ->; [|done].
  apply (id_at_inj comments distinct_ids); [by apply G_lt|by apply G_lt|congruence].
Qed.

Lemma siblings_cases p s :
  p ∈ preorder G → s ∈ preorder G →
  parent_at comments p = parent_at comments s →
  (p ∈ roots G ∧ s ∈ roots G) ∨ (∃ j, p ∈ roots (below j G) ∧ s ∈ roots (below j G)).
Proof.
  intros Hp Hs Hpar.
  destruct (parented_cases None G p G_nodup G_parented Hp)
    as [[Hrp Hnp]|(j & Hj & Hrp & Hpp)];
  destruct (parented_cases None G s G_nodup G_parented Hs)
    as [[Hrs Hns]|(j' & Hj' & Hrs & Hps)]; try congruence.
  - by left.
  - right. exists j. split; [done|].
    assert (j = j') as ->; [|done].
    apply (id_at_inj comments distinct_ids); [by apply G_lt|by apply G_lt|congruence].
Qed.

Hypothesis G_all : ∀ x, (x < length comments)%nat → x ∈ preorder G.

(** The thread of a comment is what lies at and below its entry. *)
Lemma thread_below s d i :
  comments !! i = Some s → thread comments s d →
  ∃ i', comments !! i' = Some d ∧ i' ∈ i :: preorder (below i G).
Proof.
  intros Hs Hd. induction Hd as [|d d' Hin (r & Hpar & Hid) _ (j & Hj & Hbelow)].
  - exists i. split; [done|by left].
  - apply list_elem_of_lookup in Hin as [i' Hi']. exists i'. split; [done|]. right.
    assert (Hchild : i' ∈ roots (below j G)).
    { apply reply_is_child.
      - by eapply G_all, lookup_lt_Some.
      - by eapply G_all, lookup_lt_Some.
      - rewrite (parent_at_lookup _ _ _ Hi'), Hpar, (id_at_lookup _ _ _ Hj). cbn.
        by rewrite Hid. }
    apply elem_of_cons in Hbelow as [->|Hbelow].
    + by apply roots_preorder.
    + by apply (below_child i j i' G).
Qed.

(** Depth first, on comments: of two siblings, the whole thread of the
    earlier one comes before the whole thread of the later one. *)
Lemma threads_depth_first p s c d :
  p ∈ comments → s ∈ comments → siblings p s →
  before (id p) (id s) (map (id_at comments) (preorder G)) →
  thread comments p c → thread comments s d →
  before (id c) (id d) (map (id_at comments) (preorder G)).
Proof.
  intros [jp Hp]%list_elem_of_lookup [js Hs]%list_elem_of_lookup Hsib Hps Hc Hd.
  destruct (thread_below p c jp Hp Hc) as (ic & Hic & Hcb).
  destruct (thread_below s d js Hs Hd) as (id' & Hid & Hdb).
  rewrite <- (id_at_lookup _ _ _ Hic), <- (id_at_lookup _ _ _ Hid).
  apply before_map.
  assert (HpG : jp ∈ preorder G) by (by eapply G_all, lookup_lt_Some).
  assert (HsG : js ∈ preorder G) by (by eapply G_all, lookup_lt_Some).
  assert (Hps' : before jp js (preorder G)).
  { destruct Hps as (a & b & Hab & Ha & Hb).
    change (map ?f ?l) with (f <$> l) in Ha, Hb.
    rewrite list_lookup_fmap in Ha, Hb.
    destruct (preorder G !! a) as [x|] eqn:Hx; [|done].
    destruct (preorder G !! b) as [y|] eqn:Hy; [|done].
    cbn in Ha, Hb. injection Ha as Ha. injection Hb as Hb.
    rewrite <- (id_at_lookup _ _ _ Hp) in Ha. rewrite <- (id_at_lookup _ _ _ Hs) in Hb.
    apply (id_at_inj comments distinct_ids) in Ha;
      [|by eapply G_lt, list_elem_of_lookup_2|by apply G_lt].
    apply (id_at_inj comments distinct_ids) in Hb;
      [|by eapply G_lt, list_elem_of_lookup_2|by apply G_lt].
    subst. by exists a, b. }
  assert (Hpar : parent_at comments jp = parent_at comments js).
  { by rewrite (parent_at_lookup _ _ _ Hp), (parent_at_lookup _ _ _ Hs). }
  destruct (siblings_cases jp js HpG HsG Hpar) as [[Hrp Hrs]|(j & Hrp & Hrs)].
  - by apply (roots_depth_first jp js).
  - by apply (children_depth_first j jp js).
Qed.

(** A reply comes after the comment it replies to. *)
Lemma reply_after c p :
  c ∈ comments → p ∈ comments → reply_to c p →
  before (id p) (id c) (map (id_at comments) (preorder G)).
Proof.
  intros [ic Hc]%list_elem_of_lookup [ip Hp]%list_elem_of_lookup (r & Hpar & Hid).
  rewrite <- (id_at_lookup _ _ _ Hc), <- (id_at_lookup _ _ _ Hp).
  apply before_map, below_after; [done|]. apply roots_preorder, reply_is_child.
  - by eapply G_all, lookup_lt_Some.
  - by eapply G_all, lookup_lt_Some.
  - rewrite (parent_at_lookup _ _ _ Hc), Hpar, (id_at_lookup _ _ _ Hp). cbn.
    by rewrite Hid.
Qed.

(** Where the indices go up on every level, siblings come out in the
    order of the list. *)
Lemma siblings_in_list_order p s :
  ascending G → siblings p s → before p s comments →
  before (id p) (id s) (map (id_at comments) (preorder G)).
Proof.
  intros Hasc Hsib (jp & js & Hlt & Hp & Hs).
  rewrite <- (id_at_lookup _ _ _ Hp), <- (id_at_lookup _ _ _ Hs).
  apply before_map.
  assert (HpG : jp ∈ preorder G) by (by eapply G_all, lookup_lt_Some).
  assert (HsG : js ∈ preorder G) by (by eapply G_all, lookup_lt_Some).
  assert (Hpar : parent_at comments jp = parent_at comments js).
  { by rewrite (parent_at_lookup _ _ _ Hp), (parent_at_lookup _ _ _ Hs). }
  destruct (siblings_cases jp js HpG HsG Hpar) as [[Hrp Hrs]|(j & Hrp & Hrs)].
  - by apply ascending_roots_before.
  - by apply (ascending_children_before j).
Qed.

End Order.
End Flattening.

(** ** Comment threads: the reconstruction as a whole *)

Definition root_comment (i : Z) : Comments.comment :=
  {| Comments.id := i; Comments.parent := None; Comments.payload := "text" |}.

Definition reply_comment (i parent : Z) : Comments.comment :=
  {| Comments.id := i;
     Comments.parent := Some {| Comments.parent_id := parent; Comments.depth := None |};
     Comments.payload := "text" |}.

(** A list in which the reply 2 is there twice, as when a page of the
    listing is read again. *)
Definition repeated_reply_thread : list Comments.comment :=
  [root_comment 1; reply_comment 2 1; reply_comment 2 1].

(** A list in which the reply 2 comes before the comment 1 it replies to. *)
Definition late_parent_thread : list Comments.comment :=
  [reply_comment 2 1; root_comment 1; reply_comment 3 1; reply_comment 4 2;
   reply_comment 5 3].

Lemma late_parent_thread_satisfiable c :
  c ∈ late_parent_thread → satisfiable late_parent_thread c.
Proof.
  assert (H1 : satisfiable late_parent_thread (root_comment 1))
    by (by apply satisfiable_root).
  assert (H2 : satisfiable late_parent_thread (reply_comment 2 1)).
  { apply (satisfiable_reply _ _ {| Comments.parent_id := 1; Comments.depth := None |}
             (root_comment 1)); [done| |done|done].
    right. by left. }
  assert (H3 : satisfiable late_parent_thread (reply_comment 3 1)).
  { apply (satisfiable_reply _ _ {| Comments.parent_id := 1; Comments.depth := None |}
             (root_comment 1)); [done| |done|done].
    right. by left. }
  intros Hc. unfold late_parent_thread in Hc.
  repeat (apply elem_of_cons in Hc as [->|Hc]); [done|done|done| | |by apply elem_of_nil in Hc].
  - apply (satisfiable_reply _ _ {| Comments.parent_id := 2; Comments.depth := None |}
             (reply_comment 2 1)); [done| |done|done].
    by left.
  - apply (satisfiable_reply _ _ {| Comments.parent_id := 3; Comments.depth := None |}
             (reply_comment 3 1)); [done| |done|done].
    right. right. by left.
Qed.

(** C5 (as stated, refuted). In [late_parent_thread] the ids are distinct
    and every parent can be placed. Comment 4 is a reply to 2; comment 3 is
    a sibling of 2 (both reply to 1) listed after 2; comment 5 is a reply
    to 3, so a descendant of the later sibling of the parent of 4. Yet 4
    does not come out before 5: the first scan cannot place 2, whose
    parent is listed after it, and places 3 and 5; the second scan puts 2
    after 3 among the replies to 1. *)
Lemma later_listed_sibling_comes_first :
  NoDup (map Comments.id late_parent_thread)
  ∧ (∀ c, c ∈ late_parent_thread → satisfiable late_parent_thread c)
  ∧ reply_to (reply_comment 4 2) (reply_comment 2 1)
  ∧ siblings (reply_comment 2 1) (reply_comment 3 1)
  ∧ before (reply_comment 2 1) (reply_comment 3 1) late_parent_thread
  ∧ thread late_parent_thread (reply_comment 3 1) (reply_comment 5 3)
  ∧ (map Comments.id <$> Comments.reconstruct 6 late_parent_thread)
      = Some [1%Z; 3%Z; 5%Z; 2%Z; 4%Z]
  ∧ before 5%Z 4%Z [1%Z; 3%Z; 5%Z; 2%Z; 4%Z]
  ∧ ¬ before 4%Z 5%Z [1%Z; 3%Z; 5%Z; 2%Z; 4%Z].
Proof.
  assert (Hnd : NoDup [1%Z; 3%Z; 5%Z; 2%Z; 4%Z])
    by (apply (bool_decide_unpack _); vm_compute; exact I).
  assert (H54 : before 5%Z 4%Z [1%Z; 3%Z; 5%Z; 2%Z; 4%Z])
    by (exists 2%nat, 4%nat; split; [lia|by split]).
  split; [apply (bool_decide_unpack _); vm_compute; exact I|].
  split; [apply late_parent_thread_satisfiable|].
  split; [by eexists|]. split; [done|].
  split; [exists 0%nat, 2%nat; split; [lia|by split]|].
  split.
  { apply (thread_reply _ _ _ (reply_comment 3 1)); [|by eexists|apply thread_top].
    do 4 right. by left. }
  split; [by vm_compute|]. split; [done|].
  intros H45. by apply (before_asym _ _ _ Hnd H54).
Qed.

(** The ids have to be distinct as well. Every parent of
    [repeated_reply_thread] can be placed, and the loop ends, but the
    hierarchy is keyed by comment id: the second entry for the id 2 takes
    the place of the first, and of three comments two come out. *)
Lemma repeated_id_loses_a_comment :
  (∀ c, c ∈ repeated_reply_thread → satisfiable repeated_reply_thread c)
  ∧ (map Comments.id <$> Comments.reconstruct 4 repeated_reply_thread) = Some [1%Z; 2%Z]
  ∧ (length <$> Comments.reconstruct 4 repeated_reply_thread) = Some 2%nat
  ∧ length repeated_reply_thread = 3%nat.
Proof.
  split; [|by vm_compute].
  assert (Hroot : satisfiable repeated_reply_thread (root_comment 1))
    by (by apply satisfiable_root).
  intros c [->|[->|[->|[]%elem_of_nil]%elem_of_cons]%elem_of_cons]%elem_of_cons;
    [done| |];
    by apply (satisfiable_reply _ _ {| Comments.parent_id := 1; Comments.depth := None |}
                (root_comment 1)); [| left | |].
Qed.

(** C5 (amended). For a list of comments with pairwise distinct ids in which
    the parent of every comment can be placed (a chain of parents within the
    list, ending in a comment without parent), placement ends and flattening
    returns, whatever the bound above the number of comments; the result has
    as many comments as the list, with the same ids; every reply comes
    strictly after the comment it replies to; of two siblings [p] and [s],
    [p] the earlier one in the result, every comment of the thread of [p]
    ([p], its replies, and theirs) comes before every comment of the thread
    of [s]; and where every reply is listed after the comment it replies to,
    the earlier one of two siblings in the result is the one listed first. *)
Theorem reconstruct_depth_first (comments : list Comments.comment) (fuel : nat) :
  NoDup (map Comments.id comments) →
  (∀ c, c ∈ comments → satisfiable comments c) →
  (length comments < fuel)%nat →
  ∃ reordered,
    Comments.reconstruct fuel comments = Some reordered
    ∧ length reordered = length comments
    ∧ map Comments.id reordered ≡ₚ map Comments.id comments
    ∧ (∀ c p, c ∈ comments → p ∈ comments → reply_to c p →
         before (Comments.id p) (Comments.id c) (map Comments.id reordered))
    ∧ (∀ p s c d, p ∈ comments → s ∈ comments → siblings p s →
         before (Comments.id p) (Comments.id s) (map Comments.id reordered) →
         thread comments p c → thread comments s d →
         before (Comments.id c) (Comments.id d) (map Comments.id reordered))
    ∧ (parents_first comments →
       ∀ p s, siblings p s → before p s comments →
         before (Comments.id p) (Comments.id s) (map Comments.id reordered)).
Proof.
  intros Hids Hsat Hfuel.
  destruct (place_terminates comments Hids Hsat fuel Comments.start FNil)
    as (st & G & Hplace & HG & Hord & Hlen).
  { apply represents_start. }
  { intros _. split; [done|]. by exists 0%nat. }
  { cbn. lia. }
  pose proof (rep_nodup _ _ _ HG) as Hnd.
  pose proof (rep_parented _ _ _ HG) as Hpar.
  assert (Hlt : ∀ x, x ∈ preorder G → (x < length comments)%nat)
    by (intros x; by apply parented_lt with (po := None)).
  assert (Hperm : preorder G ≡ₚ seq 0 (length comments)).
  { apply submseteq_length_Permutation.
    - apply NoDup_submseteq; [done|]. intros x Hx. apply elem_of_seq. split; [lia|].
      cbn. by apply Hlt.
    - rewrite length_seq, <- (rep_done _ _ _ HG). done. }
  assert (Hall : ∀ x, (x < length comments)%nat → x ∈ preorder G).
  { intros x Hx. rewrite Hperm. apply elem_of_seq. lia. }
  assert (Hids' : map Comments.id (annotate comments 0 G) =
                  map (id_at comments) (preorder G)) by (by apply annotate_ids).
  exists (annotate comments 0 G). split; [|split; [|split; [|split; [|split]]]].
  - unfold Comments.reconstruct. rewrite Hplace. cbn.
    rewrite (rep_hierarchy _ _ _ HG).
    rewrite (flatten_annotate comments fuel _ G [] 0); [done|apply (rep_children _ _ _ HG)|done|].
    pose proof (height_le_size G) as Hh. rewrite Hperm, length_seq in Hh. lia.
  - rewrite <- (length_map Comments.id), Hids', length_map, Hperm, length_seq. done.
  - rewrite Hids', <- ids_of_all. by apply Permutation_map.
  - rewrite Hids'. intros c p. by apply reply_after.
  - rewrite Hids'. intros p s c d. by apply threads_depth_first.
  - rewrite Hids'. intros Hpf p s. apply siblings_in_list_order; try done.
    by destruct (Hord Hpf).
Qed.

Lemma reconstruct_depth_first_witness :
  ∃ reordered,
    Comments.reconstruct 6 late_parent_thread = Some reordered
    ∧ length reordered = length late_parent_thread
    ∧ map Comments.id reordered ≡ₚ map Comments.id late_parent_thread
    ∧ (∀ c p, c ∈ late_parent_thread → p ∈ late_parent_thread → reply_to c p →
         before (Comments.id p) (Comments.id c) (map Comments.id reordered))
    ∧ (∀ p s c d, p ∈ late_parent_thread → s ∈ late_parent_thread → siblings p s →
         before (Comments.id p) (Comments.id s) (map Comments.id reordered) →
         thread late_parent_thread p c → thread late_parent_thread s d →
         before (Comments.id c) (Comments.id d) (map Comments.id reordered))
    ∧ (parents_first late_parent_thread →
       ∀ p s, siblings p s → before p s late_parent_thread →
         before (Comments.id p) (Comments.id s) (map Comments.id reordered)).
Proof.
  apply (reconstruct_depth_first late_parent_thread 6).
  - apply (bool_decide_unpack _). vm_compute. exact I.
  - apply late_parent_thread_satisfiable.
  - cbn. lia.
Defined.

(** A list in creation order: every reply after the comment it replies
    to. The siblings come out as listed. *)
Definition creation_order_thread : list Comments.comment :=
  [root_comment 1; reply_comment 2 1; reply_comment 3 1; reply_comment 4 2;
   reply_comment 5 3].

Example creation_order_reconstruction :
  (map Comments.id <$> Comments.reconstruct 6 creation_order_thread)
    = Some [1%Z; 2%Z; 4%Z; 3%Z; 5%Z].
Proof. by vm_compute. Qed.

(** ** The crawl tree *)

Section TreeFacts.
Import Crawler.

Lemma children_with_children (n : node) (cs : list node) : children (with_children n cs) = cs.
Proof. done. Qed.

Lemma with_children_twice (n : node) (a b : list node) :
  with_children (with_children n a) b = with_children n b.
Proof. done. Qed.

Lemma with_children_same (n : node) : with_children n (children n) = n.
Proof. by destruct n. Qed.

Lemma url_with_children (n : node) (cs : list node) : url (with_children n cs) = url n.
Proof. done. Qed.

Lemma snoc_insert_last (l : list node) (n m : node) : <[length l := m]> (l ++ [n]) = l ++ [m].
Proof.
  rewrite insert_app_r_alt by lia. by rewrite Nat.sub_diag.
Qed.

Lemma mark_last_snoc (l : list node) (n : node) :
  mark_last (l ++ [n]) = l ++ [with_already_processed n true].
Proof.
  unfold mark_last. destruct (l ++ [n]) as [|x y] eqn:E.
  - by destruct l.
  - rewrite <- E. rewrite last_last, length_app. cbn.
    replace (length l + 1 - 1) with (length l) by lia.
    apply snoc_insert_last.
Qed.

Lemma update_level_level (f : list node → list node) (path : list nat)
    (t t' l : list node) :
  level path t = Some l → update_level f path t = Some t' → level path t' = Some (f l).
Proof.
  revert t t'. induction path as [|i path IH]; intros t t'; cbn.
  - by intros [= ->] [= <-].
  - destruct (t !! i) as [n|] eqn:Hn; cbn; [|done].
    intros Hl. destruct (update_level f path (children n)) as [cs|] eqn:Hcs; cbn; [|done].
    intros [= <-].
    rewrite list_lookup_insert_eq by (by eapply lookup_lt_Some). cbn.
    by eapply IH.
Qed.

Lemma update_level_is_Some (f : list node → list node) (path : list nat) (t l : list node) :
  level path t = Some l → is_Some (update_level f path t).
Proof.
  revert t. induction path as [|i path IH]; intros t; cbn; [by eexists|].
  destruct (t !! i) as [n|]; cbn; [|done].
  intros Hl. destruct (IH _ Hl) as [cs ->]. by eexists.
Qed.

Lemma update_level_twice (f g : list node → list node) (path : list nat) (t t1 : list node) :
  update_level f path t = Some t1 →
  update_level g path t1 = update_level (g ∘ f) path t.
Proof.
  revert t t1. induction path as [|i path IH]; intros t t1; cbn.
  - by intros [= <-].
  - destruct (t !! i) as [n|] eqn:Hn; cbn; [|done].
    destruct (update_level f path (children n)) as [cs|] eqn:Hcs; cbn; [|done].
    intros [= <-].
    rewrite list_lookup_insert_eq by (by eapply lookup_lt_Some). cbn.
    rewrite (IH _ _ Hcs).
    destruct (update_level (g ∘ f) path (children n)); cbn; [|done].
    by rewrite list_insert_insert_eq.
Qed.

Lemma update_level_ext (f g : list node → list node) (path : list nat) (t l : list node) :
  level path t = Some l → f l = g l → update_level f path t = update_level g path t.
Proof.
  revert t. induction path as [|i path IH]; intros t; cbn.
  - by intros [= ->] ->.
  - destruct (t !! i) as [n|]; cbn; [|done].
    intros Hl Hfg. by rewrite (IH _ Hl Hfg).
Qed.

Lemma level_snoc (path : list nat) (i : nat) (t : list node) :
  level (path ++ [i]) t = l ← level path t; n ← l !! i; Some (children n).
Proof.
  revert t. induction path as [|j path IH]; intros t; cbn.
  - by destruct (t !! i).
  - destruct (t !! j) as [n|]; cbn; [|done]. apply IH.
Qed.

Lemma update_level_snoc (g : list node → list node) (path : list nat) (i : nat)
    (t l : list node) (n : node) :
  level path t = Some l → l !! i = Some n →
  update_level g (path ++ [i]) t =
    update_level (λ x, <[i := with_children n (g (children n))]> x) path t.
Proof.
  revert t. induction path as [|j path IH]; intros t; cbn.
  - intros [= ->] ->. done.
  - destruct (t !! j) as [m|]; cbn; [|done].
    intros Hl Hi. by rewrite (IH _ Hl Hi).
Qed.

(** An entry appended to the children of the entry that was appended last
    at [path]: the same as appending that entry with one more child. *)
Lemma append_below_last (path : list nat) (t t1 l : list node) (n n' : node) :
  level path t = Some l →
  append_at path n t = Some t1 →
  append_at (path ++ [length l]) n' t1 =
    append_at path (with_children n (children n ++ [n'])) t.
Proof.
  intros Hl Ht1. unfold append_at in *.
  pose proof (update_level_level _ _ _ _ _ Hl Ht1) as Hl1.
  rewrite (update_level_snoc _ path (length l) t1 (l ++ [n]) n Hl1).
  2:{ rewrite lookup_app_r by lia. by rewrite Nat.sub_diag. }
  rewrite (update_level_twice _ _ _ _ _ Ht1).
  apply (update_level_ext _ _ _ _ l Hl). cbn.
  apply snoc_insert_last.
Qed.

Lemma level_below_last (path : list nat) (t t1 l : list node) (n : node) :
  level path t = Some l →
  append_at path n t = Some t1 →
  level (path ++ [length l]) t1 = Some (children n).
Proof.
  intros Hl Ht1.
  rewrite level_snoc, (update_level_level _ _ _ _ _ Hl Ht1). cbn.
  rewrite lookup_app_r by lia. by rewrite Nat.sub_diag.
Qed.

End TreeFacts.

(** ** A logic for the crawler's statements *)

Section CrawlerLogic.
Import Crawler.

(** [hoare P m Q]: from a state in [P], if [m] returns, it returns in [Q]. *)
Definition hoare {A} (P : state → Prop) (m : M A) (Q : A → state → Prop) : Prop :=
  ∀ s, P s →
    match m s with
    | Ok a s' => Q a s'
    | Raise _ _ => True
    | OutOfFuel => True
    end.

Lemma hoare_bind {A B} (P : state → Prop) (R : A → state → Prop) (Q : B → state → Prop)
    (m : M A) (k : A → M B) :
  hoare P m R → (∀ a, hoare (R a) (k a) Q) → hoare P (bind m k) Q.
Proof.
  intros Hm Hk s HP. unfold bind. specialize (Hm s HP).
  destruct (m s) as [a s'| |]; [|done|done].
  by apply Hk.
Qed.

Lemma hoare_consequence {A} (P P' : state → Prop) (Q Q' : A → state → Prop) (m : M A) :
  hoare P' m Q' → (∀ s, P s → P' s) → (∀ a s, Q' a s → Q a s) → hoare P m Q.
Proof.
  intros Hm HP HQ s Hs. specialize (Hm s (HP s Hs)).
  destruct (m s); [by apply HQ | done | done].
Qed.

Lemma hoare_ret {A} (P : state → Prop) (a : A) : hoare P (ret a) (λ _, P).
Proof. by intros s HP. Qed.

Lemma hoare_raise {A} (P : state → Prop) (e : exn) (Q : A → state → Prop) :
  hoare P (raise e) Q.
Proof. by intros s HP. Qed.

Lemma hoare_for_each {A} (I : state → Prop) (l : list A) (body : A → M unit) :
  (∀ x, hoare I (body x) (λ _, I)) → hoare I (for_each l body) (λ _, I).
Proof.
  intros Hbody. induction l as [|x l IH]; cbn.
  - apply hoare_ret.
  - eapply hoare_bind; [apply Hbody | intros ?; apply IH].
Qed.

(** Statements that leave the tree and the position alone. *)
Definition quiet {A} (m : M A) : Prop :=
  ∀ s,
    match m s with
    | Ok _ s' => tree s' = tree s ∧ current_tree_location s' = current_tree_location s
    | Raise _ _ => True
    | OutOfFuel => True
    end.

(** Assertions about the tree and the position only. *)
Definition on_shape (I : state → Prop) : Prop :=
  ∀ s s', tree s' = tree s → current_tree_location s' = current_tree_location s → I s → I s'.

Lemma hoare_quiet {A} (I : state → Prop) (m : M A) :
  on_shape I → quiet m → hoare I m (λ _, I).
Proof.
  intros HI Hm s Hs. specialize (Hm s).
  destruct (m s) as [a s'| |]; [|done|done].
  destruct Hm as [Ht Hl]. by eapply HI.
Qed.

Lemma quiet_ret {A} (a : A) : quiet (ret a).
Proof. by intros s. Qed.

Lemma quiet_raise {A} (e : exn) : quiet (@raise A e).
Proof. by intros s. Qed.

Lemma quiet_gets {A} (f : state → A) : quiet (gets f).
Proof. by intros s. Qed.

Lemma quiet_expect {A} (e : exn) (o : option A) : quiet (expect e o).
Proof. destruct o; [apply quiet_ret | apply quiet_raise]. Qed.

Lemma quiet_bind {A B} (m : M A) (k : A → M B) :
  quiet m → (∀ a, quiet (k a)) → quiet (bind m k).
Proof.
  intros Hm Hk s. unfold bind. specialize (Hm s).
  destruct (m s) as [a s'| |]; [|done|done].
  specialize (Hk a s'). destruct (k a s') as [b s''| |]; [|done|done].
  destruct Hm as [Ht Hl], Hk as [Ht' Hl']. split; congruence.
Qed.

Lemma quiet_add_files_downloaded (d : Z) : quiet (add_files_downloaded d).
Proof. by intros s. Qed.

Lemma quiet_add_duplicates_skipped (d : Z) : quiet (add_duplicates_skipped d).
Proof. by intros s. Qed.

Lemma quiet_add_already_downloaded (d : Z) : quiet (add_already_downloaded d).
Proof. by intros s. Qed.

Lemma quiet_path_exists (p : string) : quiet (path_exists p).
Proof. by intros s. Qed.

Lemma quiet_write_file (p content : string) : quiet (write_file p content).
Proof. by intros s. Qed.

Lemma quiet_makedirs (head : string) : quiet (makedirs head).
Proof.
  destruct head as [|c head]; [apply quiet_raise|]. cbn [makedirs].
  apply quiet_bind; [apply quiet_gets|]. intros s.
  destruct (file_above (fs s) (String c head)); [apply quiet_raise | apply quiet_ret].
Qed.

Lemma quiet_open_and_write (p content : string) : quiet (open_and_write p content).
Proof.
  unfold open_and_write. apply quiet_bind; [apply quiet_gets|]. intros s.
  destruct (file_above (fs s) p); [apply quiet_raise|].
  destruct (snd (path_split p)); [apply quiet_raise | apply quiet_write_file].
Qed.

Lemma quiet_read_file (p : string) : quiet (read_file p).
Proof.
  unfold read_file. apply quiet_bind; [apply quiet_gets | intros s; apply quiet_expect].
Qed.

Lemma quiet_dummy_response (p : string) : quiet (dummy_response p).
Proof.
  intros s. unfold dummy_response.
  by destruct (DummyResponse.construct p (dummy s)).
Qed.

Lemma quiet_dummy_attr {A} (get : DummyResponse.obj → option A) (r : nat) :
  quiet (dummy_attr get r).
Proof.
  unfold dummy_attr. apply quiet_bind; [apply quiet_gets | intros s; apply quiet_expect].
Qed.

Lemma quiet_status_code (resp : response) : quiet (status_code resp).
Proof. destruct resp; [apply quiet_ret | apply quiet_dummy_attr]. Qed.

Lemma quiet_text (resp : response) : quiet (text resp).
Proof.
  destruct resp; [apply quiet_ret|].
  cbn. apply quiet_bind; [apply quiet_dummy_attr | intros p; apply quiet_read_file].
Qed.

End CrawlerLogic.

(** ** What one call does to the tree *)

Section CrawlShape.
Import Crawler.

Variable http_get : string → Z * string.
Variable fetch_file : string → option string.
Variable json_loads : string → option Json.json.
Variable json_dumps : Json.json → string.

(** Before a call: the position names the list [l] at [path] of the tree
    [t], and its last index is where the next entry of [l] goes. *)
Definition ready (path : list nat) (l t : list node) (s : state) : Prop :=
  current_tree_location s = path ++ [length l]
  ∧ tree s = t
  ∧ level path t = Some l.

(** The entry [n] has been appended to [l], and the position is as before. *)
Definition registered (n : node) (path : list nat) (l t : list node) (s : state) : Prop :=
  current_tree_location s = path ++ [length l]
  ∧ append_at path n t = Some (tree s)
  ∧ level path t = Some l.

(** After a call for [u]: one entry for [u] has been appended to [l]. *)
Definition grown (u : string) (path : list nat) (l t : list node) (s : state) : Prop :=
  ∃ n, url n = u ∧ registered n path l t s.

(** Inside a call, below its entry [n]: the children found so far are [cs],
    and the position is one level down, at the next child. *)
Definition opened (φ : list node → Prop) (n : node) (path : list nat) (l t : list node)
    (s : state) : Prop :=
  ∃ cs, φ cs
    ∧ current_tree_location s = path ++ [length l; length cs]
    ∧ append_at path (with_children n cs) t = Some (tree s)
    ∧ level path t = Some l.

(** A statement that appends one entry for [u] where the position says. *)
Definition adds_entry (u : string) (m : M unit) : Prop :=
  ∀ path l t, hoare (ready path l t) m (λ _, grown u path l t).

Lemma on_shape_registered n path l t : on_shape (registered n path l t).
Proof. intros s s' Ht Hl (H1 & H2 & H3). unfold registered. by rewrite Ht, Hl. Qed.

Lemma on_shape_opened φ n path l t : on_shape (opened φ n path l t).
Proof.
  intros s s' Ht Hl (cs & H0 & H1 & H2 & H3). exists cs.
  by rewrite Ht, Hl.
Qed.

Lemma on_shape_ready path l t : on_shape (ready path l t).
Proof. intros s s' Ht Hl (H1 & H2 & H3). unfold ready. by rewrite Ht, Hl. Qed.

Lemma on_shape_grown u path l t : on_shape (grown u path l t).
Proof.
  intros s s' Ht Hl (n & Hu & Hreg). exists n. split; [done|].
  by eapply on_shape_registered.
Qed.

(** [tree.append(n)] at the current list. *)
Lemma register_entry (n : node) (path : list nat) (l t : list node) :
  hoare (ready path l t) (on_current_level (λ x, x ++ [n])) (λ _, registered n path l t).
Proof.
  intros s (Hloc & Ht & Hl). unfold on_current_level, bind, gets, expect. cbn.
  rewrite Hloc, removelast_last, Ht.
  destruct (update_level_is_Some (λ x, x ++ [n]) path t l Hl) as [t1 Ht1].
  rewrite Ht1. cbn. done.
Qed.

(** [tree[-1]['already_processed'] = True] right after the append. *)
Lemma mark_registered (n : node) (path : list nat) (l t : list node) :
  hoare (registered n path l t) (on_current_level mark_last)
    (λ _, registered (with_already_processed n true) path l t).
Proof.
  intros s (Hloc & Ht & Hl). unfold on_current_level, bind, gets, expect. cbn.
  rewrite Hloc, removelast_last.
  unfold append_at in *.
  rewrite (update_level_twice _ mark_last _ _ _ Ht).
  rewrite (update_level_ext _ (λ x, x ++ [with_already_processed n true]) _ _ l Hl)
    by apply mark_last_snoc.
  destruct (update_level_is_Some (λ x, x ++ [with_already_processed n true]) path t l Hl)
    as [t1 Ht1].
  rewrite Ht1. cbn. done.
Qed.

Lemma open_registered (n : node) (path : list nat) (l t : list node) :
  children n = [] →
  hoare (registered n path l t) tree_new_level (λ _, opened (λ cs, cs = []) n path l t).
Proof.
  intros Hn s (Hloc & Ht & Hl). cbn. exists []. split; [done|].
  rewrite Hloc, <- app_assoc. cbn. split; [done|].
  rewrite <- Hn, with_children_same. done.
Qed.

Lemma close_opened (φ : list node → Prop) (n : node) (path : list nat) (l t : list node) :
  hoare (opened φ n path l t) tree_finished_level
    (λ _ s, ∃ cs, φ cs ∧ registered (with_children n cs) path l t s).
Proof.
  intros s (cs & Hφ & Hloc & Ht & Hl). cbn. exists cs. split; [done|].
  unfold registered. cbn. rewrite Hloc.
  replace (path ++ [length l; length cs]) with ((path ++ [length l]) ++ [length cs])
    by (by rewrite <- app_assoc).
  by rewrite removelast_last.
Qed.

(** A call below the open entry, and the step to the next index. *)
Lemma then_increment_opened (φ ψ : list node → Prop) (u : string) (m : M unit)
    (n : node) (path : list nat) (l t : list node) :
  adds_entry u m →
  (∀ cs c, φ cs → url c = u → ψ (cs ++ [c])) →
  hoare (opened φ n path l t) (then_increment m) (λ _, opened ψ n path l t).
Proof.
  intros Hm Hψ s (cs & Hφ & Hloc & Ht & Hl).
  assert (Hloc' : current_tree_location s = (path ++ [length l]) ++ [length cs]).
  { by rewrite Hloc, <- app_assoc. }
  assert (Hready : ready (path ++ [length l]) cs (tree s) s).
  { split; [done|]. split; [done|].
    by rewrite (level_below_last _ _ _ _ _ Hl Ht). }
  unfold then_increment, bind. specialize (Hm _ _ _ s Hready).
  destruct (m s) as [[] s1| |]; [|done|done].
  destruct Hm as (c & Hc & Hloc1 & Ht1 & _).
  unfold tree_increment_level, bind, gets. rewrite Hloc1.
  destruct ((path ++ [length l]) ++ [length cs]) as [|x y] eqn:E.
  { by destruct (path ++ [length l]). }
  rewrite <- E. cbn. exists (cs ++ [c]). split; [by apply Hψ|].
  rewrite removelast_last, last_last, length_app, <- app_assoc. cbn.
  split; [done|]. split; [|done].
  rewrite <- Ht1.
  rewrite (append_below_last _ _ _ _ _ _ Hl Ht).
  by rewrite with_children_twice.
Qed.

(** [download_file] adds one entry for the file. *)
Lemma download_file_adds_entry (u : string) : adds_entry u (download_file fetch_file u).
Proof.
  intros path l t. unfold download_file.
  eapply hoare_bind.
  { apply hoare_quiet; [apply on_shape_ready | apply quiet_gets]. }
  intros sp. cbn beta.
  eapply hoare_bind; [apply register_entry|]. intros ?.
  eapply hoare_bind.
  { apply hoare_quiet; [apply on_shape_registered | apply quiet_gets]. }
  intros [|].
  - eapply hoare_bind; [apply mark_registered|]. intros ?.
    eapply hoare_consequence.
    + apply hoare_quiet; [apply on_shape_registered | apply quiet_add_already_downloaded].
    + done.
    + intros ? s Hs. eexists. split; [|exact Hs]. done.
  - eapply hoare_bind.
    { apply hoare_quiet; [apply on_shape_registered | apply quiet_makedirs]. }
    intros ?.
    eapply hoare_bind.
    { apply hoare_quiet; [apply on_shape_registered|].
      intros s. unfold fetch. by destruct (fetch_file u). }
    intros content.
    eapply hoare_bind.
    { apply hoare_quiet; [apply on_shape_registered | apply quiet_open_and_write]. }
    intros ?.
    eapply hoare_consequence.
    + apply hoare_quiet; [apply on_shape_registered | apply quiet_add_files_downloaded].
    + done.
    + intros ? s Hs. eexists. split; [|exact Hs]. done.
Qed.

(** The three blocks below an open entry keep it open, with more children. *)
Definition grows (φ : list node → Prop) : Prop := ∀ cs c, φ cs → φ (cs ++ [c]).

Lemma follow_next_opened (φ : list node → Prop) (recurse : string → M unit)
    (j : Json.json) (n : node) (path : list nat) (l t : list node) :
  grows φ →
  (∀ u, adds_entry u (recurse u)) →
  hoare (opened φ n path l t) (follow_next recurse j) (λ _, opened φ n path l t).
Proof.
  intros Hφ Hrec. unfold follow_next.
  eapply hoare_bind.
  { apply hoare_quiet; [apply on_shape_opened | apply quiet_expect]. }
  intros [|]; [|apply hoare_ret].
  eapply hoare_bind.
  { apply hoare_quiet; [apply on_shape_opened | apply quiet_expect]. }
  intros next. eapply then_increment_opened; [apply Hrec|].
  intros cs c Hcs _. by apply Hφ.
Qed.

Lemma download_referenced_files_opened (φ : list node → Prop) (resp : response)
    (n : node) (path : list nat) (l t : list node) :
  grows φ →
  hoare (opened φ n path l t) (download_referenced_files fetch_file resp)
    (λ _, opened φ n path l t).
Proof.
  intros Hφ. unfold download_referenced_files.
  eapply hoare_bind.
  { apply hoare_quiet; [apply on_shape_opened | apply quiet_gets]. }
  intros regexes. apply hoare_for_each. intros rx.
  eapply hoare_bind.
  { apply hoare_quiet; [apply on_shape_opened | apply quiet_text]. }
  intros body. apply hoare_for_each. intros result.
  eapply then_increment_opened; [apply download_file_adds_entry|].
  intros cs c Hcs _. by apply Hφ.
Qed.

Lemma follow_references_opened (φ : list node → Prop) (recurse : string → M unit)
    (ignore_rules : list ignore_rule) (resp : response)
    (n : node) (path : list nat) (l t : list node) :
  grows φ →
  (∀ u, adds_entry u (recurse u)) →
  hoare (opened φ n path l t) (follow_references recurse ignore_rules resp)
    (λ _, opened φ n path l t).
Proof.
  intros Hφ Hrec. unfold follow_references.
  eapply hoare_bind.
  { apply hoare_quiet; [apply on_shape_opened | apply quiet_expect]. }
  intros prog.
  eapply hoare_bind.
  { apply hoare_quiet; [apply on_shape_opened | apply quiet_text]. }
  intros body. apply hoare_for_each. intros result.
  eapply hoare_bind.
  { apply hoare_quiet; [apply on_shape_opened | apply quiet_gets]. }
  intros s0.
  eapply hoare_bind.
  { apply hoare_quiet; [apply on_shape_opened | apply quiet_expect]. }
  intros issue.
  eapply hoare_bind.
  { instantiate (1 := λ _, opened φ n path l t).
    destruct (Re.match_at issue result).
    - eapply then_increment_opened; [apply Hrec|].
      intros cs c Hcs _. by apply Hφ.
    - apply hoare_ret. }
  intros ?.
  destruct (skipped ignore_rules result false); [apply hoare_ret|].
  eapply then_increment_opened; [apply Hrec|].
  intros cs c Hcs _. by apply Hφ.
Qed.

(** The blocks between [tree_new_level] and [tree_finished_level]. *)
Lemma descend_opened (φ ψ : list node → Prop) (recurse : string → M unit)
    (ignore_rules : list ignore_rule) (resp : response) (j : Json.json)
    (n : node) (path : list nat) (l t : list node) :
  grows ψ →
  (∀ u, adds_entry u (recurse u)) →
  hoare (opened φ n path l t) (follow_next recurse j) (λ _, opened ψ n path l t) →
  hoare (opened φ n path l t)
    (let! _ := follow_next recurse j in
     let! _ := download_referenced_files fetch_file resp in
     let! _ := follow_references recurse ignore_rules resp in
     tree_finished_level)
    (λ _ s, ∃ cs, ψ cs ∧ registered (with_children n cs) path l t s).
Proof.
  intros Hψ Hrec Hnext.
  eapply hoare_bind; [apply Hnext|]. intros ?.
  eapply hoare_bind; [by apply download_referenced_files_opened|]. intros ?.
  eapply hoare_bind; [by apply follow_references_opened|]. intros ?.
  apply close_opened.
Qed.

Lemma quiet_json_of (resp : response) : quiet (json_of json_loads resp).
Proof.
  destruct resp; [apply quiet_ret|]. cbn.
  apply quiet_bind; [apply quiet_dummy_attr|]. intros p.
  apply quiet_bind; [apply quiet_gets|]. intros s. apply quiet_ret.
Qed.

(** [handle_response] after the entry has been appended. *)
Lemma handle_response_grown (recurse : string → M unit) (ignore_rules : list ignore_rule)
    (endpoint_path : string) (resp : response)
    (n : node) (path : list nat) (l t : list node) :
  children n = [] →
  (∀ u, adds_entry u (recurse u)) →
  hoare (registered n path l t)
    (handle_response fetch_file json_loads json_dumps recurse ignore_rules endpoint_path resp)
    (λ _, grown (url n) path l t).
Proof.
  intros Hn Hrec. unfold handle_response.
  assert (Hdone : ∀ d, hoare (registered n path l t) (add_files_downloaded d)
                         (λ _, grown (url n) path l t)).
  { intros d. eapply hoare_consequence.
    - apply hoare_quiet; [apply on_shape_registered | apply quiet_add_files_downloaded].
    - done.
    - intros ? s Hs. by exists n. }
  eapply hoare_bind.
  { apply hoare_quiet; [apply on_shape_registered | apply quiet_status_code]. }
  intros status. destruct (status =? 200)%Z; [|apply Hdone].
  eapply hoare_bind.
  { apply hoare_quiet; [apply on_shape_registered | apply quiet_json_of]. }
  intros [j|]; [|apply Hdone].
  eapply hoare_bind.
  { apply hoare_quiet; [apply on_shape_registered | apply quiet_write_file]. }
  intros ?.
  eapply hoare_bind; [by apply open_registered|]. intros ?.
  eapply hoare_consequence.
  - apply (descend_opened (λ cs, cs = []) (λ _, True)); [done | done |].
    eapply hoare_consequence.
    + apply (follow_next_opened (λ _, True)); [done | done].
    + intros s (cs & _ & H). by exists cs.
    + done.
  - done.
  - intros ? s (cs & _ & Hreg). exists (with_children n cs). by split.
Qed.

(** Every call of [get_and_save_json] that returns has appended one entry,
    for its URL, to the list the position named, and has put the position
    back. *)
Lemma get_and_save_json_adds_entry (fuel : nat) (ignore_rules : list ignore_rule)
    (rewrite_rules : list Rewrite.rule) (u : string) :
  adds_entry u
    (get_and_save_json http_get fetch_file json_loads json_dumps fuel
       ignore_rules rewrite_rules u).
Proof.
  revert u. induction fuel as [|fuel IH]; intros u path l t; [by intros s Hs|].
  cbn [get_and_save_json]. destruct (Path.split_url u) as [endpoint params].
  eapply hoare_bind.
  { apply hoare_quiet; [apply on_shape_ready | apply quiet_gets]. }
  intros sp. cbn beta zeta.
  eapply hoare_bind; [apply register_entry|]. intros ?.
  eapply hoare_bind.
  { apply hoare_quiet; [apply on_shape_registered | apply quiet_path_exists]. }
  intros [|].
  - eapply hoare_bind.
    { apply hoare_quiet; [apply on_shape_registered | apply quiet_dummy_response]. }
    intros r.
    eapply hoare_bind.
    { apply hoare_quiet; [apply on_shape_registered | apply quiet_dummy_attr]. }
    intros [|].
    + eapply hoare_bind; [apply mark_registered|]. intros ?.
      eapply hoare_consequence.
      * apply hoare_quiet; [apply on_shape_registered | apply quiet_add_duplicates_skipped].
      * done.
      * intros ? s Hs. eexists. split; [|exact Hs]. done.
    + eapply hoare_bind.
      { apply hoare_quiet; [apply on_shape_registered | apply quiet_add_already_downloaded]. }
      intros ?. by apply (handle_response_grown _ _ _ _ (Node u _ _ false [])).
  - eapply hoare_bind.
    { apply hoare_quiet; [apply on_shape_registered|].
      intros s. unfold bb_query_api. by destruct (http_get _). }
    intros resp.
    eapply hoare_bind.
    { apply hoare_quiet; [apply on_shape_registered | apply quiet_add_files_downloaded]. }
    intros ?. by apply (handle_response_grown _ _ _ _ (Node u _ _ false [])).
Qed.

End CrawlShape.

(** ** The first steps of a call, case by case *)

Section CrawlCases.
Import Crawler.

Variable http_get : string → Z * string.
Variable fetch_file : string → option string.
Variable json_loads : string → option Json.json.
Variable json_dumps : Json.json → string.

Let crawl := get_and_save_json http_get fetch_file json_loads json_dumps.
Let handle := handle_response fetch_file json_loads json_dumps.

Lemma path_exists_true (p content : string) (s : state) :
  fs s !! p = Some content → path_exists p s = Ok true s.
Proof.
  intros H. unfold path_exists, gets. by rewrite H.
Qed.

Lemma path_exists_false (p : string) (s : state) :
  fs s !! p = None → path_exists p s = Ok false s.
Proof.
  intros H. unfold path_exists, gets. by rewrite H.
Qed.












Lemma on_disk_file (files : gmap string string) (p content : string) :
  files !! p = Some content → on_disk files p = true.
Proof. intros H. unfold on_disk. by rewrite H. Qed.


Lemma register_entry_eq (n : node) (path : list nat) (l t : list node) (s : state) :
  ready path l t s →
  ∃ t1, append_at path n t = Some t1
        ∧ on_current_level (λ x, x ++ [n]) s = Ok tt (set_tree t1 s).
Proof.
  intros (Hloc & Ht & Hl).
  destruct (update_level_is_Some (λ x, x ++ [n]) path t l Hl) as [t1 Ht1].
  exists t1. split; [done|].
  unfold on_current_level, bind, gets, expect. cbn.
  rewrite Hloc, removelast_last, Ht. unfold append_at in Ht1. by rewrite Ht1.
Qed.

(** The file is not there: the URL is fetched, and the answer handled. *)
Lemma crawl_fetches (fuel : nat) (ignore_rules : list ignore_rule)
    (rewrite_rules : list Rewrite.rule) (u endpoint : string) (params : Py.dict)
    (path : list nat) (l : list node) (s : state) :
  Path.split_url u = (endpoint, params) →
  ready path l (tree s) s →
  let endpoint_path := Path.storage_path (save_path s) rewrite_rules endpoint params in
  let rewritten := Path.rewritten_url rewrite_rules endpoint params in
  fs s !! endpoint_path = None →
  ∃ t1,
    append_at path (Node u rewritten endpoint_path false []) (tree s) = Some t1
    ∧ crawl (S fuel) ignore_rules rewrite_rules u s =
        handle (crawl fuel ignore_rules rewrite_rules) ignore_rules endpoint_path
          (Net (fst (http_get rewritten)) (snd (http_get rewritten)))
          (set_counters (files_downloaded s + 1) (duplicates_skipped s) (already_downloaded s)
             (set_requests (requests s ++ [rewritten]) (set_tree t1 s))).
Proof.
  intros Hsplit Hready endpoint_path rewritten Hfs.
  destruct (register_entry_eq (Node u rewritten endpoint_path false []) _ _ _ _ Hready)
    as (t1 & Ht1 & Hreg).
  exists t1. split; [done|].
  unfold crawl, handle. cbn [get_and_save_json]. rewrite Hsplit.
  unfold bind at 1. unfold gets at 1.
  unfold bind at 1. fold endpoint_path rewritten. rewrite Hreg.
  unfold bind at 1. rewrite path_exists_false by done.
  unfold bind at 1. unfold bb_query_api.
  destruct (http_get rewritten) as [status body]. cbn [fst snd].
  unfold bind at 1. done.
Qed.

(** The file is there and its path has not been read in this process: no
    request is sent, and the saved file is handled like an answer. *)
Lemma crawl_reads_saved (fuel : nat) (ignore_rules : list ignore_rule)
    (rewrite_rules : list Rewrite.rule) (u endpoint content : string) (params : Py.dict)
    (path : list nat) (l : list node) (s : state) :
  Path.split_url u = (endpoint, params) →
  ready path l (tree s) s →
  let endpoint_path := Path.storage_path (save_path s) rewrite_rules endpoint params in
  let rewritten := Path.rewritten_url rewrite_rules endpoint params in
  fs s !! endpoint_path = Some content →
  DummyResponse.cache (dummy s) !! endpoint_path = None →
  ∃ t1,
    append_at path (Node u rewritten endpoint_path false []) (tree s) = Some t1
    ∧ crawl (S fuel) ignore_rules rewrite_rules u s =
        handle (crawl fuel ignore_rules rewrite_rules) ignore_rules endpoint_path
          (Saved (length (DummyResponse.heap (dummy s))))
          (set_counters (files_downloaded s) (duplicates_skipped s) (already_downloaded s + 1)
             (set_dummy (snd (DummyResponse.construct endpoint_path (dummy s)))
                (set_tree t1 s))).
Proof.
  intros Hsplit Hready endpoint_path rewritten Hfs Hcache.
  destruct (register_entry_eq (Node u rewritten endpoint_path false []) _ _ _ _ Hready)
    as (t1 & Ht1 & Hreg).
  exists t1. split; [done|].
  unfold crawl, handle. cbn [get_and_save_json]. rewrite Hsplit.
  unfold bind at 1. unfold gets at 1.
  unfold bind at 1. fold endpoint_path rewritten. rewrite Hreg.
  unfold bind at 1. rewrite (path_exists_true _ content) by done.
  unfold bind at 1. unfold dummy_response. cbn [dummy set_tree].
  rewrite (construct_first _ _ Hcache). cbn [snd].
  unfold bind at 1. unfold dummy_attr at 1. unfold bind at 1, gets at 1, expect at 1.
  cbn [dummy set_dummy DummyResponse.heap id].
  rewrite lookup_app_r by lia. rewrite Nat.sub_diag. cbn.
  done.
Qed.

(** The file is there and its path has been read before in this process:
    the entry is marked, the duplicate counted, and the call returns. *)
Lemma crawl_skips_duplicate (fuel : nat) (ignore_rules : list ignore_rule)
    (rewrite_rules : list Rewrite.rule) (u endpoint content : string) (params : Py.dict)
    (path : list nat) (l : list node) (s : state) (r : nat) :
  Path.split_url u = (endpoint, params) →
  ready path l (tree s) s →
  let endpoint_path := Path.storage_path (save_path s) rewrite_rules endpoint params in
  let rewritten := Path.rewritten_url rewrite_rules endpoint params in
  fs s !! endpoint_path = Some content →
  initialised (dummy s) →
  DummyResponse.cache (dummy s) !! endpoint_path = Some r →
  ∃ t1,
    append_at path (Node u rewritten endpoint_path true []) (tree s) = Some t1
    ∧ crawl (S fuel) ignore_rules rewrite_rules u s =
        Ok tt
          (set_counters (files_downloaded s) (duplicates_skipped s + 1) (already_downloaded s)
             (set_tree t1
                (set_dummy (snd (DummyResponse.construct endpoint_path (dummy s))) s))).
Proof.
  intros Hsplit Hready endpoint_path rewritten Hfs Hinit Hcache.
  destruct (register_entry_eq (Node u rewritten endpoint_path false []) _ _ _ _ Hready)
    as (t0 & Ht0 & Hreg).
  pose proof Hready as (Hloc & _ & Hl).
  destruct (update_level_is_Some
    (λ x, x ++ [Node u rewritten endpoint_path true []]) path (tree s) l Hl) as [t1 Ht1].
  exists t1. split; [done|].
  unfold crawl, handle. cbn [get_and_save_json]. rewrite Hsplit.
  unfold bind at 1. unfold gets at 1.
  unfold bind at 1. fold endpoint_path rewritten. rewrite Hreg.
  unfold bind at 1. rewrite (path_exists_true _ content) by done.
  unfold bind at 1. unfold dummy_response. cbn [dummy set_tree].
  pose proof (getattr_after_again _ _ _ Hinit Hcache) as Hflag.
  rewrite (construct_again _ _ _ Hinit Hcache) in *. cbn [snd] in *.
  unfold bind at 1. unfold dummy_attr at 1. unfold bind at 1, gets at 1, expect at 1.
  cbn [dummy set_dummy id].
  unfold DummyResponse.getattr_already_processed in Hflag. rewrite Hflag.
  unfold ret at 1.
  unfold bind at 1.
  assert (Hmark : on_current_level mark_last
            (set_dummy {| DummyResponse.heap :=
                            alter (DummyResponse.set_already_processed true) r
                              (DummyResponse.heap (dummy s));
                          DummyResponse.cache := DummyResponse.cache (dummy s) |}
               (set_tree t0 s))
          = Ok tt (set_tree t1
               (set_dummy {| DummyResponse.heap :=
                            alter (DummyResponse.set_already_processed true) r
                              (DummyResponse.heap (dummy s));
                          DummyResponse.cache := DummyResponse.cache (dummy s) |}
                  (set_tree t0 s)))).
  { unfold on_current_level, bind, gets, expect. cbn.
    rewrite Hloc, removelast_last.
    unfold append_at in *.
    rewrite (update_level_twice _ mark_last _ _ _ Ht0).
    rewrite (update_level_ext _ (λ x, x ++ [Node u rewritten endpoint_path true []]) _ _ l Hl)
      by apply mark_last_snoc.
    by rewrite Ht1. }
  rewrite Hmark. done.
Qed.

Lemma hoare_run {A} (P : state → Prop) (m : M A) (Q : A → state → Prop)
    (s s' : state) (a : A) :
  hoare P m Q → P s → m s = Ok a s' → Q a s'.
Proof. intros H HP Hrun. specialize (H s HP). by rewrite Hrun in H. Qed.

Lemma hoare_bind_ret {A B} (P : state → Prop) (a : A) (k : A → M B) (Q : B → state → Prop) :
  hoare P (k a) Q → hoare P (bind (ret a) k) Q.
Proof. intros H s Hs. apply (H s Hs). Qed.

Lemma get_next_contains (j : Json.json) (next : string) :
  Json.get_next j = Some next → Json.contains_next j = Some true.
Proof.
  destruct j as [| | | | |fields]; cbn; try done.
  by destruct (Json.field "next" fields).
Qed.

(** An answer with a [next]: the entry of the next page is the first of the
    children. *)
Lemma handle_response_next (recurse : string → M unit) (ignore_rules : list ignore_rule)
    (endpoint_path body next : string) (j : Json.json)
    (n : node) (path : list nat) (l t : list node) :
  children n = [] →
  (∀ u, adds_entry u (recurse u)) →
  json_loads body = Some j →
  Json.get_next j = Some next →
  hoare (registered n path l t)
    (handle recurse ignore_rules endpoint_path (Net 200 body))
    (λ _ s, ∃ c cs, url c = next ∧ registered (with_children n (c :: cs)) path l t s).
Proof.
  intros Hn Hrec Hj Hnext. unfold handle, handle_response.
  cbn [status_code json_of]. apply hoare_bind_ret.
  simpl (200 =? 200)%Z. cbv iota.
  rewrite Hj. apply hoare_bind_ret.
  eapply hoare_bind.
  { apply hoare_quiet; [apply on_shape_registered | apply quiet_write_file]. }
  intros ?.
  eapply hoare_bind; [by apply open_registered|]. intros ?.
  eapply hoare_consequence.
  - apply (descend_opened fetch_file (λ cs, cs = [])
             (λ cs, ∃ c rest, cs = c :: rest ∧ url c = next)).
    + intros cs c (c0 & rest & -> & Hc0). by exists c0, (rest ++ [c]).
    + done.
    + unfold follow_next. rewrite (get_next_contains _ _ Hnext), Hnext. cbn [expect].
      apply hoare_bind_ret. cbv iota. apply hoare_bind_ret.
      eapply then_increment_opened; [apply Hrec|].
      intros cs c -> Hc. by exists c, [].
  - done.
  - intros ? s (cs & (c & rest & -> & Hc) & Hreg). by exists c, rest.
Qed.

End CrawlCases.

(** ** A small service to crawl

    The issue list of acme/widget has two pages; the first one links to the
    second through [next]. *)

Definition acme_issues : string :=
  "https://api.bitbucket.org/2.0/repositories/acme/widget/issues".

Definition acme_page_2 : string := (acme_issues ++ "?page=2")%string.

(** The URLs queried for the two pages, after the rewrite rules. *)
Definition acme_query_1 : string :=
  (acme_issues ++ "?pagelen=100&page=1&sort=created_on")%string.
Definition acme_query_2 : string :=
  (acme_issues ++ "?page=2&pagelen=100&sort=created_on")%string.

Definition acme_body_1 : string :=
  ("{" ++ PyStr.dq ++ "next" ++ PyStr.dq ++ ": " ++ PyStr.dq ++ acme_page_2 ++ PyStr.dq
     ++ "}")%string.
Definition acme_body_2 : string :=
  ("{" ++ PyStr.dq ++ "page" ++ PyStr.dq ++ ": 2}")%string.

Definition acme_json_1 : Json.json := Json.JObj [("next", Json.JStr acme_page_2)].
Definition acme_json_2 : Json.json := Json.JObj [("page", Json.JNum "2")].

Definition acme_http (u : string) : Z * string :=
  if String.eqb u acme_query_1 then (200%Z, acme_body_1)
  else if String.eqb u acme_query_2 then (200%Z, acme_body_2)
  else if String.eqb u (acme_issues ++ "/export") then (200%Z, "<html>not JSON</html>")
  else (404%Z, "").

(** [json.loads] and [json.dumps] on the two bodies. *)
Definition acme_loads (text : string) : option Json.json :=
  if String.eqb text acme_body_1 then Some acme_json_1
  else if String.eqb text acme_body_2 then Some acme_json_2
  else None.

Definition acme_dumps (j : Json.json) : string :=
  match j with
  | Json.JObj [("next", _)] => acme_body_1
  | _ => acme_body_2
  end.

Definition acme_rules : list Rewrite.rule :=
  default [] (Rewrite.rewrite_rules "acme" "widget").

Definition acme_raw : string := "/project/bitbucket_data_raw".

Definition acme_path_1 : string :=
  (acme_raw ++ "/repositories/acme/widget/issues_page=1.json")%string.
Definition acme_path_2 : string :=
  (acme_raw ++ "/repositories/acme/widget/issues_page=2.json")%string.

(** The exporter when [__backup_api] starts on acme/widget, over the files
    of an earlier run. *)
Definition acme_start (files : gmap string string) : Crawler.state :=
  Crawler.set_repository "acme" "widget"
    (default [] (mapM Re.compile (Crawler.file_download_patterns "acme" "widget")))
    (Crawler.init acme_raw files DummyResponse.initial).

Definition acme_crawl (fuel : nat) (u : string) : Crawler.M unit :=
  Crawler.get_and_save_json acme_http (λ _, None) acme_loads acme_dumps fuel
    (Crawler.ignore_rules_of "acme" "widget") acme_rules u.

Definition final_state (r : Crawler.res unit) : Crawler.state :=
  match r with
  | Crawler.Ok _ s => s
  | _ => acme_start ∅
  end.

(** A first run, and a run over the saved first page of an earlier run. *)
Definition acme_first_run : Crawler.state :=
  final_state (acme_crawl 3 acme_issues (acme_start ∅)).
Definition acme_resumed_run : Crawler.state :=
  final_state (acme_crawl 3 acme_issues (acme_start {[acme_path_1 := acme_body_1]})).

Lemma acme_first_run_returns :
  acme_crawl 3 acme_issues (acme_start ∅) = Crawler.Ok tt acme_first_run.
Proof. vm_compute. reflexivity. Qed.

Lemma acme_resumed_run_returns :
  acme_crawl 3 acme_issues (acme_start {[acme_path_1 := acme_body_1]}) =
    Crawler.Ok tt acme_resumed_run.
Proof. vm_compute. reflexivity. Qed.

Definition entry (u r p : string) (done : bool) (cs : list Crawler.node) : Crawler.node :=
  Crawler.Node u r p done cs.

Example acme_first_run_tree :
  Crawler.tree acme_first_run =
    [ entry acme_issues acme_query_1 acme_path_1 false
        [ entry acme_page_2 acme_query_2 acme_path_2 false [];
          entry acme_page_2 acme_query_2 acme_path_2 false [] ] ]
  ∧ Crawler.requests acme_first_run = [acme_query_1; acme_query_2]
  ∧ Crawler.current_tree_location acme_first_run = [0]
  ∧ (Crawler.files_downloaded acme_first_run, Crawler.already_downloaded acme_first_run,
     Crawler.duplicates_skipped acme_first_run) = (2%Z, 1%Z, 0%Z).
Proof. vm_compute. repeat split; reflexivity. Qed.

Example acme_resumed_run_tree :
  Crawler.tree acme_resumed_run =
    [ entry acme_issues acme_query_1 acme_path_1 false
        [ entry acme_page_2 acme_query_2 acme_path_2 false [];
          entry acme_page_2 acme_query_2 acme_path_2 false [] ] ]
  ∧ Crawler.requests acme_resumed_run = [acme_query_2]
  ∧ Crawler.current_tree_location acme_resumed_run = [0]
  ∧ (Crawler.files_downloaded acme_resumed_run, Crawler.already_downloaded acme_resumed_run,
     Crawler.duplicates_skipped acme_resumed_run) = (1%Z, 2%Z, 0%Z).
Proof. vm_compute. repeat split; reflexivity. Qed.

(** ** The crawler: the claims *)

(** C9. Every call of [get_and_save_json] that returns (a JSON answer handled,
    a path seen before, an answer that is no JSON, a 401, a 404 or any other
    status) has appended exactly one entry, for its URL, to the list that
    [current_tree_location] named at entry, and [current_tree_location] is
    what it was at entry.  The position at entry is the one every call in a
    crawl finds: its last index is the length of the list it names, as
    [__init__] leaves it and as [tree_increment_level] keeps it after each
    call.  Entries added by the calls nested in this one go below the new
    entry, not beside it. *)
Theorem get_and_save_json_appends_one_entry
    (http_get : string → Z * string) (fetch_file : string → option string)
    (json_loads : string → option Json.json) (json_dumps : Json.json → string)
    (fuel : nat) (ignore_rules : list Crawler.ignore_rule)
    (rewrite_rules : list Rewrite.rule) (u : string)
    (path : list nat) (l : list Crawler.node) (s s' : Crawler.state) :
  Crawler.current_tree_location s = path ++ [length l] →
  Crawler.level path (Crawler.tree s) = Some l →
  Crawler.get_and_save_json http_get fetch_file json_loads json_dumps fuel
    ignore_rules rewrite_rules u s = Crawler.Ok tt s' →
  Crawler.current_tree_location s' = Crawler.current_tree_location s
  ∧ ∃ n, Crawler.url n = u
       ∧ Crawler.level path (Crawler.tree s') = Some (l ++ [n])
       ∧ Crawler.append_at path n (Crawler.tree s) = Some (Crawler.tree s').
Proof.
  intros Hloc Hl Hrun.
  pose proof (get_and_save_json_adds_entry http_get fetch_file json_loads json_dumps
    fuel ignore_rules rewrite_rules u path l (Crawler.tree s)) as H.
  apply (hoare_run _ _ _ s s' tt H) in Hrun; [|done].
  destruct Hrun as (n & Hu & Hloc' & Ht & _).
  split; [congruence|]. exists n. split; [done|]. split; [|done].
  by apply (update_level_level _ _ _ _ _ Hl Ht).
Qed.

Lemma get_and_save_json_appends_one_entry_witness :
  Crawler.current_tree_location acme_first_run = Crawler.current_tree_location (acme_start ∅)
  ∧ ∃ n, Crawler.url n = acme_issues
       ∧ Crawler.level [] (Crawler.tree acme_first_run) = Some ([] ++ [n])
       ∧ Crawler.append_at [] n (Crawler.tree (acme_start ∅)) =
           Some (Crawler.tree acme_first_run).
Proof.
  exact (get_and_save_json_appends_one_entry acme_http (λ _, None) acme_loads acme_dumps
           3 (Crawler.ignore_rules_of "acme" "widget") acme_rules acme_issues
           [] [] (acme_start ∅) acme_first_run eq_refl eq_refl acme_first_run_returns).
Defined.

(** The outcomes one by one, on the small service: each call returns, with
    one entry more at the top level and the position where it was. *)
Example outcomes_on_acme :
  let observe (r : Crawler.res unit) :=
    match r with
    | Crawler.Ok _ s =>
        Some (map Crawler.url (Crawler.tree s),
              map Crawler.already_processed (Crawler.tree s),
              Crawler.current_tree_location s)
    | _ => None
    end in
  (* a JSON answer *)
  observe (acme_crawl 3 acme_page_2 (acme_start ∅)) = Some ([acme_page_2], [false], [0])
  (* a path seen before in this process *)
  ∧ observe (Crawler.bind (acme_crawl 3 acme_page_2)
               (λ _, Crawler.bind Crawler.tree_increment_level
                        (λ _, acme_crawl 3 acme_page_2))
               (acme_start {[acme_path_2 := acme_body_2]}))
    = Some ([acme_page_2; acme_page_2], [false; true], [1])
  (* a 200 that is no JSON *)
  ∧ observe (acme_crawl 3 (acme_issues ++ "/export") (acme_start ∅))
    = Some ([(acme_issues ++ "/export")%string], [false], [0])
  (* a 404 *)
  ∧ observe (acme_crawl 3 (acme_issues ++ "/7") (acme_start ∅))
    = Some ([(acme_issues ++ "/7")%string], [false], [0]).
Proof. vm_compute. repeat split; reflexivity. Qed.

(** C3 (as stated, refuted). On the first run over the small service, the
    entry of the next page is not beside the entry of the first page: the
    top level holds the first page alone, and the next page is the first of
    its children. *)
Lemma next_page_is_not_a_sibling :
  map Crawler.url (Crawler.tree acme_first_run) = [acme_issues]
  ∧ map (λ n, map Crawler.url (Crawler.children n)) (Crawler.tree acme_first_run)
    = [[acme_page_2; acme_page_2]].
Proof. vm_compute. split; reflexivity. Qed.

(** C3 (amended). For every JSON resource fetched whose body has a [next]
    link, the entry of the continuation is registered as the first child of
    the entry of the resource: [tree_new_level] runs before the call for
    [next]. *)
Theorem next_page_is_first_child
    (http_get : string → Z * string) (fetch_file : string → option string)
    (json_loads : string → option Json.json) (json_dumps : Json.json → string)
    (fuel : nat) (ignore_rules : list Crawler.ignore_rule)
    (rewrite_rules : list Rewrite.rule) (u endpoint : string) (params : Py.dict)
    (body next : string) (j : Json.json)
    (path : list nat) (l : list Crawler.node) (s s' : Crawler.state) :
  Path.split_url u = (endpoint, params) →
  Crawler.current_tree_location s = path ++ [length l] →
  Crawler.level path (Crawler.tree s) = Some l →
  let endpoint_path := Path.storage_path (Crawler.save_path s) rewrite_rules endpoint params in
  let rewritten := Path.rewritten_url rewrite_rules endpoint params in
  Crawler.fs s !! endpoint_path = None →
  http_get rewritten = (200%Z, body) →
  json_loads body = Some j →
  Json.get_next j = Some next →
  Crawler.get_and_save_json http_get fetch_file json_loads json_dumps (S fuel)
    ignore_rules rewrite_rules u s = Crawler.Ok tt s' →
  ∃ c cs,
    Crawler.url c = next
    ∧ Crawler.level path (Crawler.tree s') =
        Some (l ++ [Crawler.Node u rewritten endpoint_path false (c :: cs)]).
Proof.
  intros Hsplit Hloc Hl endpoint_path rewritten Hfs Hget Hj Hnext Hrun.
  destruct (crawl_fetches http_get fetch_file json_loads json_dumps fuel ignore_rules
    rewrite_rules u endpoint params path l s Hsplit) as (t1 & Ht1 & Heq);
    [done | done |].
  fold endpoint_path rewritten in Ht1, Heq.
  rewrite Heq, Hget in Hrun. cbn [fst snd] in Hrun.
  pose proof (handle_response_next fetch_file json_loads json_dumps
    (Crawler.get_and_save_json http_get fetch_file json_loads json_dumps fuel
       ignore_rules rewrite_rules)
    ignore_rules endpoint_path body next j
    (Crawler.Node u rewritten endpoint_path false []) path l (Crawler.tree s)
    eq_refl (get_and_save_json_adds_entry _ _ _ _ _ _ _) Hj Hnext) as H.
  apply (hoare_run _ _ _ _ s' tt H) in Hrun.
  - destruct Hrun as (c & cs & Hc & _ & Ht & _).
    exists c, cs. split; [done|].
    by apply (update_level_level _ _ _ _ _ Hl Ht).
  - split; [done|]. by split.
Qed.

Lemma next_page_is_first_child_witness :
  ∃ c cs,
    Crawler.url c = acme_page_2
    ∧ Crawler.level [] (Crawler.tree acme_first_run) =
        Some ([] ++ [Crawler.Node acme_issues
                       (Path.rewritten_url acme_rules "repositories/acme/widget/issues" [])
                       (Path.storage_path (Crawler.save_path (acme_start ∅)) acme_rules
                          "repositories/acme/widget/issues" [])
                       false (c :: cs)]).
Proof.
  exact (next_page_is_first_child acme_http (λ _, None) acme_loads acme_dumps
           2 (Crawler.ignore_rules_of "acme" "widget") acme_rules acme_issues
           "repositories/acme/widget/issues" [] acme_body_1 acme_page_2 acme_json_1
           [] [] (acme_start ∅) acme_first_run
           eq_refl eq_refl eq_refl eq_refl eq_refl eq_refl eq_refl acme_first_run_returns).
Defined.

(** C2 (as stated, refuted). On the run over the saved first page, the entry
    of that page is not marked as already processed, no duplicate is
    counted, and the crawl goes below it: the next page is registered under
    it and requested from the service. *)
Lemma saved_page_is_processed_again :
  Crawler.fs (acme_start {[acme_path_1 := acme_body_1]}) !! acme_path_1 = Some acme_body_1
  ∧ map Crawler.endpoint_path (Crawler.tree acme_resumed_run) = [acme_path_1]
  ∧ map Crawler.already_processed (Crawler.tree acme_resumed_run) = [false]
  ∧ map (λ n, map Crawler.url (Crawler.children n)) (Crawler.tree acme_resumed_run)
    = [[acme_page_2; acme_page_2]]
  ∧ Crawler.requests acme_resumed_run = [acme_query_2]
  ∧ Crawler.duplicates_skipped acme_resumed_run = 0%Z.
Proof. vm_compute. repeat split; reflexivity. Qed.

(** C2 (amended). For every URL whose storage path exists on disk,
    [get_and_save_json] sends no request for that entry.  When the path has
    been read before in the same process (it is in the [DummyResponse]
    cache), the entry is marked [already_processed], the counter of
    duplicates skipped goes up by one, and the call returns at once, nothing
    below the entry.  When the path is read for the first time in the
    process, the entry stays unmarked, the counter of files already
    downloaded goes up by one, and the saved file is handled as an answer of
    the service would be, references followed. *)
Theorem saved_file_is_not_fetched
    (http_get : string → Z * string) (fetch_file : string → option string)
    (json_loads : string → option Json.json) (json_dumps : Json.json → string)
    (fuel : nat) (ignore_rules : list Crawler.ignore_rule)
    (rewrite_rules : list Rewrite.rule) (u endpoint content : string) (params : Py.dict)
    (path : list nat) (l : list Crawler.node) (s : Crawler.state) :
  Path.split_url u = (endpoint, params) →
  Crawler.current_tree_location s = path ++ [length l] →
  Crawler.level path (Crawler.tree s) = Some l →
  let endpoint_path := Path.storage_path (Crawler.save_path s) rewrite_rules endpoint params in
  let rewritten := Path.rewritten_url rewrite_rules endpoint params in
  let crawl := Crawler.get_and_save_json http_get fetch_file json_loads json_dumps in
  Crawler.fs s !! endpoint_path = Some content →
  initialised (Crawler.dummy s) →
  (∀ r, DummyResponse.cache (Crawler.dummy s) !! endpoint_path = Some r →
     ∃ s', crawl (S fuel) ignore_rules rewrite_rules u s = Crawler.Ok tt s'
       ∧ Crawler.requests s' = Crawler.requests s
       ∧ Crawler.level path (Crawler.tree s') =
           Some (l ++ [Crawler.Node u rewritten endpoint_path true []])
       ∧ Crawler.current_tree_location s' = Crawler.current_tree_location s
       ∧ Crawler.duplicates_skipped s' = (Crawler.duplicates_skipped s + 1)%Z
       ∧ Crawler.already_downloaded s' = Crawler.already_downloaded s
       ∧ Crawler.files_downloaded s' = Crawler.files_downloaded s
       ∧ Crawler.fs s' = Crawler.fs s)
  ∧ (DummyResponse.cache (Crawler.dummy s) !! endpoint_path = None →
     ∃ s1 r,
       crawl (S fuel) ignore_rules rewrite_rules u s =
         Crawler.handle_response fetch_file json_loads json_dumps
           (crawl fuel ignore_rules rewrite_rules) ignore_rules endpoint_path
           (Crawler.Saved r) s1
       ∧ Crawler.requests s1 = Crawler.requests s
       ∧ Crawler.level path (Crawler.tree s1) =
           Some (l ++ [Crawler.Node u rewritten endpoint_path false []])
       ∧ DummyResponse.getattr_already_processed r (Crawler.dummy s1) = Some false
       ∧ Crawler.already_downloaded s1 = (Crawler.already_downloaded s + 1)%Z
       ∧ Crawler.duplicates_skipped s1 = Crawler.duplicates_skipped s
       ∧ Crawler.files_downloaded s1 = Crawler.files_downloaded s
       ∧ Crawler.fs s1 = Crawler.fs s).
Proof.
  intros Hsplit Hloc Hl endpoint_path rewritten crawl Hfs Hinit.
  assert (Hready : ready path l (Crawler.tree s) s) by (split; [done | by split]).
  split.
  - intros r Hcache.
    destruct (crawl_skips_duplicate http_get fetch_file json_loads json_dumps fuel
      ignore_rules rewrite_rules u endpoint content params path l s r Hsplit Hready)
      as (t1 & Ht1 & Heq); [done | done | done |].
    eexists. split; [exact Heq|].
    split; [done|]. split; [|done].
    exact (update_level_level _ _ _ _ _ Hl Ht1).
  - intros Hcache. subst endpoint_path rewritten crawl.
    destruct (crawl_reads_saved http_get fetch_file json_loads json_dumps fuel
      ignore_rules rewrite_rules u endpoint content params path l s Hsplit Hready)
      as (t1 & Ht1 & Heq); [done | done |].
    pose proof (getattr_after_first _ _ Hcache) as Hflag.
    rewrite (construct_first _ _ Hcache) in Heq, Hflag. cbn [fst snd] in Heq, Hflag.
    eexists _, _. split; [exact Heq|].
    split; [done|].
    split; [exact (update_level_level _ _ _ _ _ Hl Ht1)|].
    split; [exact Hflag|]. done.
Qed.

Lemma saved_file_is_not_fetched_witness :
  ∃ s1 r,
    acme_crawl 3 acme_issues (acme_start {[acme_path_1 := acme_body_1]}) =
      Crawler.handle_response (λ _, None) acme_loads acme_dumps
        (acme_crawl 2) (Crawler.ignore_rules_of "acme" "widget")
        (Path.storage_path acme_raw acme_rules "repositories/acme/widget/issues" [])
        (Crawler.Saved r) s1
    ∧ Crawler.requests s1 = []
    ∧ Crawler.level [] (Crawler.tree s1) =
        Some [Crawler.Node acme_issues
                (Path.rewritten_url acme_rules "repositories/acme/widget/issues" [])
                (Path.storage_path acme_raw acme_rules "repositories/acme/widget/issues" [])
                false []]
    ∧ DummyResponse.getattr_already_processed r (Crawler.dummy s1) = Some false
    ∧ Crawler.already_downloaded s1 = 1%Z.
Proof.
  assert (Hfs : Crawler.fs (acme_start {[acme_path_1 := acme_body_1]})
                  !! Path.storage_path
                       (Crawler.save_path (acme_start {[acme_path_1 := acme_body_1]}))
                       acme_rules "repositories/acme/widget/issues" []
                = Some acme_body_1) by (vm_compute; reflexivity).
  assert (Hcache : DummyResponse.cache
                     (Crawler.dummy (acme_start {[acme_path_1 := acme_body_1]}))
                     !! Path.storage_path
                          (Crawler.save_path (acme_start {[acme_path_1 := acme_body_1]}))
                          acme_rules "repositories/acme/widget/issues" []
                   = None) by (vm_compute; reflexivity).
  destruct (proj2 (saved_file_is_not_fetched acme_http (λ _, None) acme_loads acme_dumps
    2 (Crawler.ignore_rules_of "acme" "widget") acme_rules acme_issues
    "repositories/acme/widget/issues" acme_body_1 [] [] []
    (acme_start {[acme_path_1 := acme_body_1]})
    eq_refl eq_refl eq_refl Hfs initialised_initial) Hcache)
    as (s1 & r & H1 & H2 & H3 & H4 & H5 & _).
  exists s1, r. auto.
Defined.

(* ===================================================================== *)
(** * Part III: further properties *)
(* ===================================================================== *)

(** ** The path of a downloaded file *)

(** [corrected_url_path] of [download_file], before it is joined to the
    save path. *)
Definition corrected_url_path (base_url : string) : string :=
  fold_left (fun p c => PyStr.replace c "" p) Crawler.special_chars
    (PyStr.replace "http://" ""
      (PyStr.replace "https://" ""
        (PyStr.replace bitbucket_api_url ""
          (Url.unquote (PyStr.replace "%2F" "" base_url))))).

Section SpecialChars.

(** The character [c] occurs in [s]. *)
Fixpoint has_char (c : ascii) (s : string) : bool :=
  match s with
  | EmptyString => false
  | String d s' => Ascii.eqb c d || has_char c s'
  end.

Lemma contains_char (c : ascii) (s : string) :
  PyStr.contains (String c EmptyString) s = has_char c s.
Proof.
  induction s as [|d s IH]; cbn; [done|].
  rewrite IH. destruct (Ascii.eqb c d); [|done]. by destruct s.
Qed.

Lemma has_char_replace_same (c : ascii) (s : string) :
  has_char c (PyStr.replace (String c EmptyString) "" s) = false.
Proof.
  cbn. induction s as [|d s IH]; cbn; [done|].
  destruct (Ascii.eqb c d) eqn:E; cbn; [done|]. by rewrite E.
Qed.

Lemma has_char_replace_false (c d : ascii) (s : string) :
  has_char d s = false → has_char d (PyStr.replace (String c EmptyString) "" s) = false.
Proof.
  cbn. induction s as [|e s IH]; cbn; [done|].
  intros [He Hs]%orb_false_elim.
  destruct (Ascii.eqb c e); cbn; [by apply IH|]. rewrite He. by apply IH.
Qed.

Lemma has_char_strip (cs : list ascii) (d : ascii) (s : string) :
  d ∈ cs ∨ has_char d s = false →
  has_char d (fold_left (fun p c => PyStr.replace c "" p)
                (map (fun a => String a EmptyString) cs) s) = false.
Proof.
  revert s. induction cs as [|c cs IH]; intros s; cbn [map fold_left].
  - intros [H|H]; [by apply elem_of_nil in H|done].
  - intros [H|H].
    + apply elem_of_cons in H as [->|H].
      * apply IH. right. apply has_char_replace_same.
      * apply IH. by left.
    + apply IH. right. by apply has_char_replace_false.
Qed.

End SpecialChars.

(** X2. The path under which [download_file] saves a file is the save path
    joined with [corrected_url_path], and none of the eight characters the
    source strips (question mark, colon, backslash, star, angle brackets,
    double quote, bar) is left in [corrected_url_path], whatever the URL. *)
Theorem download_path_has_no_special_char (save_path base_url : string) :
  Crawler.download_path save_path base_url =
    Url.path_join save_path (corrected_url_path base_url)
  ∧ Forall (fun c => PyStr.contains c (corrected_url_path base_url) = false)
      Crawler.special_chars.
Proof.
  split; [reflexivity|].
  unfold corrected_url_path.
  change Crawler.special_chars with
    (map (fun a => String a EmptyString)
       ["?"; ":"; PyStr.bslash_char; "*"; "<"; ">"; PyStr.dquote_char; "|"]%char).
  apply Forall_forall. intros c [a [-> Ha]]%list_elem_of_fmap.
  rewrite contains_char. apply has_char_strip. by left.
Qed.

(** ** Single calls of [download_file] and [get_and_save_json] *)

Section SingleCalls.
Import Crawler.

Variable http_get : string → Z * string.
Variable fetch_file : string → option string.
Variable json_loads : string → option Json.json.
Variable json_dumps : Json.json → string.

(** [tree[-1]['already_processed'] = True] after the append, as an
    equation. *)
Lemma mark_entry_eq (n : node) (path : list nat) (l t t0 : list node) (s : state) :
  level path t = Some l →
  append_at path n t = Some t0 →
  current_tree_location s = path ++ [length l] →
  tree s = t0 →
  ∃ t1, append_at path (with_already_processed n true) t = Some t1
        ∧ on_current_level mark_last s = Ok tt (set_tree t1 s).
Proof.
  intros Hl Ht0 Hloc Ht.
  destruct (update_level_is_Some (λ x, x ++ [with_already_processed n true]) path t l Hl)
    as [t1 Ht1].
  exists t1. split; [done|].
  unfold on_current_level, bind, gets, expect. cbn.
  rewrite Hloc, removelast_last, Ht. unfold append_at in *.
  rewrite (update_level_twice _ mark_last _ _ _ Ht0).
  rewrite (update_level_ext _ (λ x, x ++ [with_already_processed n true]) _ _ l Hl)
    by apply mark_last_snoc.
  by rewrite Ht1.
Qed.

(** X3. A file that is on disk under its save path is not requested again:
    [download_file] appends the entry of the URL, marked as processed,
    counts one more file as already downloaded, and leaves the files and
    the requests as they were. *)
Theorem download_file_skips_saved_file (u content : string)
    (path : list nat) (l : list node) (s : state) :
  ready path l (tree s) s →
  fs s !! download_path (save_path s) u = Some content →
  ∃ t1,
    append_at path (Node u u (download_path (save_path s) u) true []) (tree s) = Some t1
    ∧ download_file fetch_file u s =
        Ok tt (set_counters (files_downloaded s) (duplicates_skipped s)
                 (already_downloaded s + 1) (set_tree t1 s)).
Proof.
  intros Hready Hfs.
  destruct (register_entry_eq
              (Node u u (download_path (save_path s) u) false []) _ _ _ _ Hready)
    as (t0 & Ht0 & Hreg).
  pose proof Hready as (Hloc & _ & Hl).
  destruct (mark_entry_eq _ _ _ _ _ (set_tree t0 s) Hl Ht0 Hloc eq_refl)
    as (t1 & Ht1 & Hmark).
  exists t1. split; [done|].
  unfold download_file.
  unfold bind at 1. unfold gets at 1.
  unfold bind at 1. rewrite Hreg.
  unfold bind at 1. unfold gets at 1. cbn [fs set_tree].
  rewrite (on_disk_file _ _ content) by done.
  unfold bind at 1. rewrite Hmark. done.
Qed.


Local Abbreviation crawl := (get_and_save_json http_get fetch_file json_loads json_dumps).



End SingleCalls.

(** A file of an earlier run, and the exporter over it. *)
Definition logo_url : string := "https://bytebucket.org/acme/logo.png".
Definition logo_path : string := (acme_raw ++ "/bytebucket.org/acme/logo.png")%string.

Lemma download_file_skips_saved_file_witness :
  ∃ t1,
    Crawler.append_at []
      (Crawler.Node logo_url logo_url
         (Crawler.download_path (Crawler.save_path (acme_start {[logo_path := "PNG"]})) logo_url)
         true [])
      (Crawler.tree (acme_start {[logo_path := "PNG"]})) = Some t1
    ∧ Crawler.download_file (λ _, None) logo_url (acme_start {[logo_path := "PNG"]}) =
        Crawler.Ok tt
          (Crawler.set_counters
             (Crawler.files_downloaded (acme_start {[logo_path := "PNG"]}))
             (Crawler.duplicates_skipped (acme_start {[logo_path := "PNG"]}))
             (Crawler.already_downloaded (acme_start {[logo_path := "PNG"]}) + 1)
             (Crawler.set_tree t1 (acme_start {[logo_path := "PNG"]}))).
Proof.
  assert (Hfs : Crawler.fs (acme_start {[logo_path := "PNG"]})
                  !! Crawler.download_path
                       (Crawler.save_path (acme_start {[logo_path := "PNG"]})) logo_url
                = Some "PNG") by (vm_compute; reflexivity).
  assert (Hready : ready [] [] (Crawler.tree (acme_start {[logo_path := "PNG"]}))
                     (acme_start {[logo_path := "PNG"]})) by (by repeat split).
  exact (download_file_skips_saved_file (λ _, None) logo_url "PNG" [] []
           (acme_start {[logo_path := "PNG"]}) Hready Hfs).
Defined.


(** A regular file where the directory of the save path has to be: the
    logo is requested, and [open] leaves the call with the entry in the
    tree and nothing written. *)
Example download_below_a_file :
  let files : gmap string string := {[(acme_raw ++ "/bytebucket.org/acme")%string := "text"]} in
  Crawler.download_file (λ _, Some "PNG") logo_url (acme_start files)
  = Crawler.Raise Crawler.NotADirectoryError
      (Crawler.set_requests [logo_url]
         (Crawler.set_tree [Crawler.Node logo_url logo_url logo_path false []]
            (acme_start files))).
Proof. vm_compute. reflexivity. Qed.

(** A regular file further up: [os.makedirs] leaves the call before the
    request. *)
Example download_far_below_a_file :
  let files : gmap string string := {[(acme_raw ++ "/bytebucket.org")%string := "text"]} in
  Crawler.download_file (λ _, Some "PNG") logo_url (acme_start files)
  = Crawler.Raise Crawler.NotADirectoryError
      (Crawler.set_tree [Crawler.Node logo_url logo_url logo_path false []]
         (acme_start files)).
Proof. vm_compute. reflexivity. Qed.

(** A URL that ends with a slash, its directory not on disk: the
    directory is made, the request is sent, and [open] of the path that
    names a directory leaves the call. *)
Example download_with_final_slash :
  Crawler.download_file (λ _, Some "PNG") "https://bytebucket.org/acme/" (acme_start ∅)
  = Crawler.Raise Crawler.IsADirectoryError
      (Crawler.set_requests ["https://bytebucket.org/acme/"]
         (Crawler.set_tree
            [Crawler.Node "https://bytebucket.org/acme/" "https://bytebucket.org/acme/"
               (acme_raw ++ "/bytebucket.org/acme/") false []]
            (acme_start ∅))).
Proof. vm_compute. reflexivity. Qed.

(** The same URL with its directory on disk: nothing is requested. *)
Example download_with_final_slash_again :
  let files : gmap string string := {[logo_path := "PNG"]} in
  Crawler.download_file (λ _, Some "PNG") "https://bytebucket.org/acme/" (acme_start files)
  = Crawler.Ok tt
      (Crawler.set_counters 0 0 1
         (Crawler.set_tree
            [Crawler.Node "https://bytebucket.org/acme/" "https://bytebucket.org/acme/"
               (acme_raw ++ "/bytebucket.org/acme/") true []]
            (acme_start files))).
Proof. vm_compute. reflexivity. Qed.

(** A directory at the save path (a file below it): nothing is requested. *)
Example download_at_a_directory :
  let files : gmap string string := {[(logo_path ++ "/x")%string := "text"]} in
  Crawler.download_file (λ _, Some "PNG") logo_url (acme_start files)
  = Crawler.Ok tt
      (Crawler.set_counters 0 0 1
         (Crawler.set_tree [Crawler.Node logo_url logo_url logo_path true []]
            (acme_start files))).
Proof. vm_compute. reflexivity. Qed.




(** ** What a crawl leaves in place *)

Section CrawlKeeps.
Import Crawler.

(** From [s] to [s']: the exporter is still on the same repository and save
    path, every file that was on disk is still there, the requests sent
    before are the first of the requests sent, and every path of the
    [DummyResponse] cache still has its object. *)
Definition keeps (s s' : state) : Prop :=
  save_path s' = save_path s
  ∧ owner s' = owner s
  ∧ repository s' = repository s
  ∧ (∀ p, is_Some (fs s !! p) → is_Some (fs s' !! p))
  ∧ requests s `prefix_of` requests s'
  ∧ (∀ p r, DummyResponse.cache (dummy s) !! p = Some r →
            DummyResponse.cache (dummy s') !! p = Some r).

(** A statement all of whose outcomes keep the state in that sense, the
    exceptions too. *)
Definition steady {A} (m : M A) : Prop :=
  ∀ s,
    match m s with
    | Ok _ s' => keeps s s'
    | Raise _ s' => keeps s s'
    | OutOfFuel => True
    end.

Lemma keeps_refl (s : state) : keeps s s.
Proof. by repeat split. Qed.

Lemma keeps_trans (s1 s2 s3 : state) : keeps s1 s2 → keeps s2 s3 → keeps s1 s3.
Proof.
  intros (H1 & H2 & H3 & H4 & H5 & H6) (K1 & K2 & K3 & K4 & K5 & K6).
  split; [congruence|]. split; [congruence|]. split; [congruence|].
  split; [by intros p Hp; apply K4, H4|].
  split; [by etrans|]. intros p r Hp. by apply K6, H6.
Qed.

Lemma steady_ret {A} (a : A) : steady (ret a).
Proof. intros s. apply keeps_refl. Qed.

Lemma steady_raise {A} (e : exn) : steady (@raise A e).
Proof. intros s. apply keeps_refl. Qed.

Lemma steady_gets {A} (f : state → A) : steady (gets f).
Proof. intros s. apply keeps_refl. Qed.

Lemma steady_expect {A} (e : exn) (o : option A) : steady (expect e o).
Proof. destruct o; [apply steady_ret | apply steady_raise]. Qed.

Lemma steady_modify (f : state → state) : (∀ s, keeps s (f s)) → steady (modify f).
Proof. intros H s. apply H. Qed.

Lemma steady_bind {A B} (m : M A) (k : A → M B) :
  steady m → (∀ a, steady (k a)) → steady (bind m k).
Proof.
  intros Hm Hk s. unfold bind. specialize (Hm s).
  destruct (m s) as [a s'|e s'|]; [|done|done].
  specialize (Hk a s'). destruct (k a s') as [b s''|e s''|]; [| |done];
    by eapply keeps_trans.
Qed.

Lemma steady_for_each {A} (l : list A) (body : A → M unit) :
  (∀ x, steady (body x)) → steady (for_each l body).
Proof.
  intros Hbody. induction l as [|x l IH]; cbn.
  - apply steady_ret.
  - apply steady_bind; [apply Hbody | intros ?; apply IH].
Qed.

Lemma steady_tree_new_level : steady tree_new_level.
Proof. apply steady_modify. intros s. by repeat split. Qed.

Lemma steady_tree_finished_level : steady tree_finished_level.
Proof. apply steady_modify. intros s. by repeat split. Qed.

Lemma steady_tree_increment_level : steady tree_increment_level.
Proof.
  unfold tree_increment_level. apply steady_bind; [apply steady_gets|].
  intros [|x loc]; [apply steady_raise|].
  apply steady_modify. intros s. by repeat split.
Qed.

Lemma steady_on_current_level (f : list node → list node) : steady (on_current_level f).
Proof.
  unfold on_current_level. apply steady_bind; [apply steady_gets|]. intros s0.
  apply steady_bind; [apply steady_expect|]. intros t.
  apply steady_modify. intros s. by repeat split.
Qed.

Lemma steady_add_files_downloaded (d : Z) : steady (add_files_downloaded d).
Proof. apply steady_modify. intros s. by repeat split. Qed.

Lemma steady_add_duplicates_skipped (d : Z) : steady (add_duplicates_skipped d).
Proof. apply steady_modify. intros s. by repeat split. Qed.

Lemma steady_add_already_downloaded (d : Z) : steady (add_already_downloaded d).
Proof. apply steady_modify. intros s. by repeat split. Qed.

Lemma steady_path_exists (p : string) : steady (path_exists p).
Proof. apply steady_gets. Qed.

Lemma steady_write_file (p content : string) : steady (write_file p content).
Proof.
  apply steady_modify. intros s. repeat split; try done.
  intros p' Hp'. cbn. destruct (decide (p = p')) as [->|Hne].
  - by rewrite lookup_insert_eq.
  - by rewrite lookup_insert_ne.
Qed.

Lemma steady_read_file (p : string) : steady (read_file p).
Proof.
  unfold read_file. apply steady_bind; [apply steady_gets | intros s; apply steady_expect].
Qed.

Lemma steady_dummy_response (p : string) : steady (dummy_response p).
Proof.
  intros s. unfold dummy_response.
  pose proof (λ q r, construct_keeps p q r (dummy s)) as H.
  destruct (DummyResponse.construct p (dummy s)) as [r d]. cbn in *.
  by repeat split.
Qed.

Lemma steady_dummy_attr {A} (get : DummyResponse.obj → option A) (r : nat) :
  steady (dummy_attr get r).
Proof.
  unfold dummy_attr. apply steady_bind; [apply steady_gets | intros s; apply steady_expect].
Qed.

Lemma steady_status_code (resp : response) : steady (status_code resp).
Proof. destruct resp; [apply steady_ret | apply steady_dummy_attr]. Qed.

Lemma steady_text (resp : response) : steady (text resp).
Proof.
  destruct resp; [apply steady_ret|].
  cbn. apply steady_bind; [apply steady_dummy_attr | intros p; apply steady_read_file].
Qed.

Variable http_get : string → Z * string.
Variable fetch_file : string → option string.
Variable json_loads : string → option Json.json.
Variable json_dumps : Json.json → string.

Lemma steady_bb_query_api (u : string) : steady (bb_query_api http_get u).
Proof.
  intros s. unfold bb_query_api. destruct (http_get u) as [status body].
  repeat split; try done. by exists [u].
Qed.

Lemma steady_fetch (u : string) : steady (fetch fetch_file u).
Proof.
  intros s. unfold fetch.
  destruct (fetch_file u); (repeat split; try done; by exists [u]).
Qed.

Lemma steady_json_of (resp : response) : steady (json_of json_loads resp).
Proof.
  destruct resp; [apply steady_ret|]. cbn.
  apply steady_bind; [apply steady_dummy_attr|]. intros p.
  apply steady_bind; [apply steady_gets|]. intros s. apply steady_ret.
Qed.

Lemma steady_makedirs (head : string) : steady (makedirs head).
Proof.
  destruct head as [|c head]; [apply steady_raise|]. cbn [makedirs].
  apply steady_bind; [apply steady_gets|]. intros s.
  destruct (file_above (fs s) (String c head)); [apply steady_raise | apply steady_ret].
Qed.

Lemma steady_open_and_write (p content : string) : steady (open_and_write p content).
Proof.
  unfold open_and_write. apply steady_bind; [apply steady_gets|]. intros s.
  destruct (file_above (fs s) p); [apply steady_raise|].
  destruct (snd (path_split p)); [apply steady_raise | apply steady_write_file].
Qed.

Lemma steady_download_file (u : string) : steady (download_file fetch_file u).
Proof.
  unfold download_file. apply steady_bind; [apply steady_gets|]. intros sp.
  apply steady_bind; [apply steady_on_current_level|]. intros ?.
  apply steady_bind; [apply steady_gets|]. intros [|].
  - apply steady_bind; [apply steady_on_current_level|]. intros ?.
    apply steady_add_already_downloaded.
  - apply steady_bind; [apply steady_makedirs|]. intros ?.
    apply steady_bind; [apply steady_fetch|]. intros content.
    apply steady_bind; [apply steady_open_and_write|]. intros ?.
    apply steady_add_files_downloaded.
Qed.

Lemma steady_then_increment (m : M unit) : steady m → steady (then_increment m).
Proof.
  intros Hm. unfold then_increment.
  apply steady_bind; [done|]. intros ?. apply steady_tree_increment_level.
Qed.

Lemma steady_handle_response (recurse : string → M unit)
    (ignore_rules : list ignore_rule) (endpoint_path : string) (resp : response) :
  (∀ u, steady (recurse u)) →
  steady (handle_response fetch_file json_loads json_dumps recurse ignore_rules
            endpoint_path resp).
Proof.
  intros Hrec. unfold handle_response.
  apply steady_bind; [apply steady_status_code|]. intros status.
  destruct (status =? 200)%Z; [|apply steady_add_files_downloaded].
  apply steady_bind; [apply steady_json_of|]. intros [j|];
    [|apply steady_add_files_downloaded].
  apply steady_bind; [apply steady_write_file|]. intros ?.
  apply steady_bind; [apply steady_tree_new_level|]. intros ?.
  apply steady_bind.
  { unfold follow_next. apply steady_bind; [apply steady_expect|]. intros [|];
      [|apply steady_ret].
    apply steady_bind; [apply steady_expect|]. intros next.
    by apply steady_then_increment. }
  intros ?. apply steady_bind.
  { unfold download_referenced_files. apply steady_bind; [apply steady_gets|].
    intros regexes. apply steady_for_each. intros rx.
    apply steady_bind; [apply steady_text|]. intros body.
    apply steady_for_each. intros result.
    apply steady_then_increment, steady_download_file. }
  intros ?. apply steady_bind; [|intros ?; apply steady_tree_finished_level].
  unfold follow_references. apply steady_bind; [apply steady_expect|]. intros prog.
  apply steady_bind; [apply steady_text|]. intros body.
  apply steady_for_each. intros result.
  apply steady_bind; [apply steady_gets|]. intros s0.
  apply steady_bind; [apply steady_expect|]. intros issue.
  apply steady_bind.
  { destruct (Re.match_at issue result); [|apply steady_ret].
    by apply steady_then_increment. }
  intros ?. destruct (skipped ignore_rules result false); [apply steady_ret|].
  by apply steady_then_increment.
Qed.

Lemma steady_get_and_save_json (fuel : nat) (ignore_rules : list ignore_rule)
    (rewrite_rules : list Rewrite.rule) (u : string) :
  steady (get_and_save_json http_get fetch_file json_loads json_dumps fuel
            ignore_rules rewrite_rules u).
Proof.
  revert u. induction fuel as [|fuel IH]; intros u; [by intros s|].
  cbn [get_and_save_json]. destruct (Path.split_url u) as [endpoint params].
  apply steady_bind; [apply steady_gets|]. intros sp.
  apply steady_bind; [apply steady_on_current_level|]. intros ?.
  apply steady_bind; [apply steady_path_exists|]. intros [|].
  - apply steady_bind; [apply steady_dummy_response|]. intros r.
    apply steady_bind; [apply steady_dummy_attr|]. intros [|].
    + apply steady_bind; [apply steady_on_current_level|]. intros ?.
      apply steady_add_duplicates_skipped.
    + apply steady_bind; [apply steady_add_already_downloaded|]. intros ?.
      by apply steady_handle_response.
  - apply steady_bind; [apply steady_bb_query_api|]. intros resp.
    apply steady_bind; [apply steady_add_files_downloaded|]. intros ?.
    by apply steady_handle_response.
Qed.

End CrawlKeeps.

(** X7. Whatever the service answers and however a call of
    [get_and_save_json] ends, by returning or by an exception, it has
    deleted no file (every path that was on disk is still on disk), it has
    only added to the requests sent, it has dropped no path from the
    [DummyResponse] cache, and it has left the owner, the repository and
    the save path of the exporter as they were. *)
Theorem crawl_never_deletes
    (http_get : string → Z * string) (fetch_file : string → option string)
    (json_loads : string → option Json.json) (json_dumps : Json.json → string)
    (fuel : nat) (ignore_rules : list Crawler.ignore_rule)
    (rewrite_rules : list Rewrite.rule) (u : string) (s : Crawler.state) :
  match Crawler.get_and_save_json http_get fetch_file json_loads json_dumps fuel
          ignore_rules rewrite_rules u s with
  | Crawler.Ok _ s' | Crawler.Raise _ s' =>
      Crawler.save_path s' = Crawler.save_path s
      ∧ Crawler.owner s' = Crawler.owner s
      ∧ Crawler.repository s' = Crawler.repository s
      ∧ (∀ p, is_Some (Crawler.fs s !! p) → is_Some (Crawler.fs s' !! p))
      ∧ Crawler.requests s `prefix_of` Crawler.requests s'
      ∧ (∀ p r, DummyResponse.cache (Crawler.dummy s) !! p = Some r →
                DummyResponse.cache (Crawler.dummy s') !! p = Some r)
  | Crawler.OutOfFuel => True
  end.
Proof.
  pose proof (steady_get_and_save_json http_get fetch_file json_loads json_dumps fuel
                ignore_rules rewrite_rules u s) as H.
  by destruct (Crawler.get_and_save_json _ _ _ _ _ _ _ _ _).
Qed.

(** ** What the link rewriter writes *)

(** The entries of a tree, at any depth. *)
Inductive entry_of : list Crawler.node → Crawler.node → Prop :=
| entry_here (tree : list Crawler.node) (n : Crawler.node) :
    n ∈ tree → entry_of tree n
| entry_below (tree : list Crawler.node) (m n : Crawler.node) :
    m ∈ tree → entry_of (Crawler.children m) n → entry_of tree n.

Section RewriterWrites.
Import Crawler Rewriter.

Variable save_path save_path_relative : string.
Variable repository_list : list (string * string).
Variable external_URL_rewrites : list (string * (string * string)).
Variable mapping : list string.
Variable html_unescape : string → string.

Local Abbreviation run_item :=
  (make_urls_relative_item save_path save_path_relative repository_list
     external_URL_rewrites mapping html_unescape).
Local Abbreviation run :=
  (make_urls_relative save_path save_path_relative repository_list
     external_URL_rewrites mapping html_unescape).

(** [new_path] of an entry. *)
Definition new_path (item : node) : string :=
  PyStr.replace save_path save_path_relative (endpoint_path item).

(** From [files] to [files'], over the entries of [tree]: no file that was
    there has changed, every entry whose raw file was there has its output
    file, and every new file is the output file of an entry. *)
Definition rewritten (tree : list node) (files files' : gmap string string) : Prop :=
  files ⊆ files'
  ∧ (∀ n, entry_of tree n → is_Some (files !! endpoint_path n) →
          is_Some (files' !! new_path n))
  ∧ (∀ p, is_Some (files' !! p) →
          is_Some (files !! p) ∨ ∃ n, entry_of tree n ∧ p = new_path n).









End RewriterWrites.


(** The raw file of acme/widget and the tree that holds its entry. *)
Definition widget_raw_path : string := (acme_raw ++ "/repositories/acme/widget.json")%string.

Definition widget_tree : list Crawler.node :=
  [Crawler.Node api_url_of_widget api_url_of_widget widget_raw_path false []].

Definition rewrite_widget_tree (files : gmap string string)
    : Rewriter.result (gmap string string) :=
  Rewriter.make_urls_relative acme_raw "/project/gh-pages/data" [("acme", "widget")] []
    ["acme/widget"] (λ s, s) widget_tree files.

Definition widget_output : gmap string string :=
  match rewrite_widget_tree {[widget_raw_path := body_plain]} with
  | Rewriter.Done files => files
  | Rewriter.Raised _ => ∅
  end.



(** The output file of the example holds the body, unchanged here. *)
Example widget_output_file :
  widget_output !! "/project/gh-pages/data/repositories/acme/widget.json" = Some body_plain.
Proof. vm_compute. reflexivity. Qed.

(** ** The objects of the [DummyResponse] cache *)

Section DummyResponseObjects.
Import DummyResponse.

(** Every cached path names an object that was initialised for that very
    path. *)
Definition owns_paths (st : class_state) : Prop :=
  ∀ p r, cache st !! p = Some r →
    ∃ o, heap st !! r = Some o ∧ path o = Some p ∧ status_code o = Some 200%Z
         ∧ is_Some (already_processed o).

Lemma owns_paths_initial : owns_paths initial.
Proof. intros p r H. cbn in H. by rewrite lookup_empty in H. Qed.

Lemma owns_paths_initialised (st : class_state) : owns_paths st → initialised st.
Proof.
  intros H p r Hp. destruct (H p r Hp) as (o & Ho & _ & _ & Hflag).
  unfold getattr_already_processed. by rewrite Ho.
Qed.

Lemma construct_owns_paths (p : string) (st : class_state) :
  owns_paths st → owns_paths (snd (construct p st)).
Proof.
  intros Hown q r.
  destruct (cache st !! p) as [r0|] eqn:Hp.
  - rewrite (construct_again p r0 st (owns_paths_initialised _ Hown) Hp). cbn.
    intros Hq. destruct (Hown q r Hq) as (o & Ho & Hpath & Hstatus & Hflag).
    destruct (decide (r = r0)) as [->|Hne].
    + exists (set_already_processed true o). rewrite list_lookup_alter_eq, Ho.
      repeat split; try done; try by eexists.
    + exists o. by rewrite list_lookup_alter_ne.
  - rewrite (construct_first p st Hp). cbn. intros Hq.
    destruct (decide (p = q)) as [->|Hne].
    + rewrite lookup_insert_eq in Hq. injection Hq as <-.
      eexists. rewrite lookup_app_r by lia. rewrite Nat.sub_diag. cbn.
      repeat split; try done; try by eexists.
    + rewrite lookup_insert_ne in Hq by done.
      destruct (Hown q r Hq) as (o & Ho & H).
      exists o. by rewrite (lookup_app_l_Some _ _ _ _ Ho).
Qed.

Lemma constructs_owns_paths (ps : list string) (st : class_state) :
  owns_paths st → owns_paths (constructs ps st).
Proof.
  revert st. induction ps as [|p ps IH]; intros st H; [done|].
  cbn. apply IH. by apply construct_owns_paths.
Qed.

Lemma constructs_cached (ps : list string) (p : string) (st : class_state) :
  p ∈ ps → is_Some (cache (constructs ps st) !! p).
Proof.
  revert st. induction ps as [|q ps IH]; intros st Hp; [by apply elem_of_nil in Hp|].
  cbn. apply elem_of_cons in Hp as [->|Hp]; [|by apply IH].
  exists (fst (construct q st)). apply constructs_keeps, construct_binds.
Qed.

End DummyResponseObjects.

(** X9. After any run of constructions in a process, every path that was
    constructed is in the cache, with an object that carries this path (so
    that [json()] and [text] read the file of this path) and the status
    200; and no other path of the cache has the same object. *)
Theorem dummy_response_object_reads_its_path (ps : list string) (p : string) :
  p ∈ ps →
  ∃ r o,
    DummyResponse.cache (DummyResponse.constructs ps DummyResponse.initial) !! p = Some r
    ∧ DummyResponse.heap (DummyResponse.constructs ps DummyResponse.initial) !! r = Some o
    ∧ DummyResponse.path o = Some p
    ∧ DummyResponse.status_code o = Some 200%Z
    ∧ ∀ q, DummyResponse.cache (DummyResponse.constructs ps DummyResponse.initial) !! q
             = Some r → q = p.
Proof.
  intros Hp.
  pose proof (constructs_owns_paths ps _ owns_paths_initial) as Hown.
  destruct (constructs_cached ps p DummyResponse.initial Hp) as [r Hr].
  destruct (Hown p r Hr) as (o & Ho & Hpath & Hstatus & _).
  exists r, o. repeat split; try done.
  intros q Hq. destruct (Hown q r Hq) as (o' & Ho' & Hpath' & _). congruence.
Qed.

Lemma dummy_response_object_reads_its_path_witness :
  ∃ r o,
    DummyResponse.cache
      (DummyResponse.constructs ["a.json"; "b.json"; "a.json"] DummyResponse.initial)
      !! "a.json" = Some r
    ∧ DummyResponse.heap
        (DummyResponse.constructs ["a.json"; "b.json"; "a.json"] DummyResponse.initial)
        !! r = Some o
    ∧ DummyResponse.path o = Some "a.json"
    ∧ DummyResponse.status_code o = Some 200%Z
    ∧ ∀ q, DummyResponse.cache
             (DummyResponse.constructs ["a.json"; "b.json"; "a.json"] DummyResponse.initial)
             !! q = Some r → q = "a.json".
Proof.
  apply (dummy_response_object_reads_its_path ["a.json"; "b.json"; "a.json"] "a.json").
  by left.
Defined.

(** ** Comments: the pages written back *)

(** The [values] written to the [k] files of a thread, page by page. *)
Definition pages (k : nat) (reordered : list Comments.comment) : list (list Comments.comment) :=
  map (fun i => Comments.page i reordered) (seq 0 k).

(** X10. The pages written back to the [k] files of a thread are
    consecutive chunks of the reordered comments, of at most 100 each:
    together, in order, they are the first [100 * k] comments. So with
    enough files for the comments nothing is lost or repeated, and with
    fewer the comments after the first [100 * k] are in no file. *)
Theorem pages_are_consecutive_chunks (k : nat) (reordered : list Comments.comment) :
  concat (pages k reordered) = take (k * 100) reordered
  ∧ Forall (fun p => (length p ≤ 100)%nat) (pages k reordered)
  ∧ ((length reordered ≤ k * 100)%nat → concat (pages k reordered) = reordered).
Proof.
  assert (H : concat (pages k reordered) = take (k * 100) reordered).
  { unfold pages. induction k as [|k IH]; [done|].
    rewrite seq_S, map_app, concat_app, IH. cbn [map concat plus].
    rewrite app_nil_r. unfold Comments.page.
    rewrite take_take_drop. f_equal. lia. }
  split; [done|]. split.
  - unfold pages. apply Forall_forall. intros p [i [-> _]]%list_elem_of_fmap.
    unfold Comments.page. rewrite length_take. lia.
  - intros Hlen. rewrite H. by apply take_ge.
Qed.

(** ** Comments: a parent that cannot be placed *)

Section NeverPlaced.
Import Comments.
Variable comments : list comment.

(** What the placement loop keeps whatever the ids: the placed indices are
    distinct, the placed comments have a parent that can be placed, and
    the entries of [comment_flat] are placed comments under their id. *)
Definition placed_ok (st : placement) : Prop :=
  NoDup (done_idxs st)
  ∧ (∀ i, i ∈ done_idxs st → ∃ c, comments !! i = Some c ∧ satisfiable comments c)
  ∧ (∀ k j, comment_flat st !! k = Some j →
       j ∈ done_idxs st ∧ ∃ c, comments !! j = Some c ∧ id c = k).

Lemma placed_ok_start : placed_ok start.
Proof.
  split; [apply NoDup_nil_2|]. split.
  - by intros i ?%elem_of_nil.
  - intros k j H. cbn in H. by rewrite lookup_empty in H.
Qed.

Lemma place_comment_placed_ok (i : nat) (c : comment) (st : placement) :
  comments !! i = Some c → placed_ok st → placed_ok (place_comment i c st).
Proof.
  intros Hc (Hnd & Hdone & Hflat). unfold place_comment.
  case_bool_decide as Hi; [done|].
  assert (Hnd' : NoDup (done_idxs st ++ [i])).
  { apply NoDup_app. split; [done|]. split; [|apply NoDup_singleton].
    intros x Hx ->%list_elem_of_singleton. done. }
  assert (Hstep : satisfiable comments c →
            placed_ok {| done_idxs := done_idxs st ++ [i];
                         comment_flat := <[id c := i]> (comment_flat st);
                         comment_hierarchy := comment_hierarchy st;
                         children := children st |}).
  { intros Hsat. split; [done|]. split; cbn.
    - intros x [Hx| ->%list_elem_of_singleton]%elem_of_app; [by apply Hdone|].
      by exists c.
    - intros k j. destruct (decide (k = id c)) as [->|Hne].
      + rewrite lookup_insert_eq. intros [= <-]. split.
        * apply elem_of_app. right. by left.
        * by exists c.
      + rewrite lookup_insert_ne by done. intros Hk.
        destruct (Hflat k j Hk) as [Hj Hcj]. split; [|done].
        apply elem_of_app. by left. }
  destruct (parent c) as [p|] eqn:Hp.
  - destruct (comment_flat st !! parent_id p) as [j|] eqn:Hj;
      [|by split; [|split]].
    destruct (Hflat _ _ Hj) as (Hjdone & c' & Hc' & Hid).
    destruct (Hdone j Hjdone) as (c'' & Hc'' & Hsat).
    assert (c'' = c') as -> by congruence.
    destruct Hstep as (H1 & H2 & H3).
    { eapply satisfiable_reply; [done| |done|done]. by eapply list_elem_of_lookup_2. }
    by split; [|split].
  - destruct Hstep as (H1 & H2 & H3); [by apply satisfiable_root|].
    by split; [|split].
Qed.

Lemma scan_placed_ok (st : placement) :
  placed_ok st → placed_ok (scan_from 0 comments st).
Proof.
  intros H. apply (scan_from_ind comments (λ _ s, placed_ok s)); [|done].
  intros i c s Hc Hs. by apply place_comment_placed_ok.
Qed.

Lemma placed_ok_unfinished (c : comment) (st : placement) :
  c ∈ comments → ¬ satisfiable comments c → placed_ok st →
  (length (done_idxs st) < length comments)%nat.
Proof.
  intros [i Hi]%list_elem_of_lookup Hunsat (Hnd & Hdone & _).
  assert (Hnot : i ∉ done_idxs st).
  { intros Hin. destruct (Hdone i Hin) as (c' & Hc' & Hsat). congruence. }
  assert (Hsub : i :: done_idxs st ⊆+ seq 0 (length comments)).
  { apply NoDup_submseteq; [by apply NoDup_cons|].
    intros x [->|Hx]%elem_of_cons; apply elem_of_seq; split; try lia; cbn.
    - by eapply lookup_lt_Some.
    - destruct (Hdone x Hx) as (c' & Hc' & _). by eapply lookup_lt_Some. }
  apply submseteq_length in Hsub. rewrite length_seq in Hsub. cbn in Hsub. lia.
Qed.

Lemma place_never_ends (c : comment) (fuel : nat) (st : placement) :
  c ∈ comments → ¬ satisfiable comments c → placed_ok st →
  place fuel comments st = None.
Proof.
  intros Hc Hunsat. revert st. induction fuel as [|fuel IH]; intros st Hst;
    cbn [place];
    pose proof (placed_ok_unfinished c st Hc Hunsat Hst) as Hlt;
    destruct (Nat.ltb_spec (length (done_idxs st)) (length comments)); try lia.
  - done.
  - apply IH. by apply scan_placed_ok.
Qed.

End NeverPlaced.

(** X11. When the parent of some comment of the list cannot be placed (it
    is not in the list, or the chain of parents runs in a circle), the
    [while] loop of the placement does not end: whatever the bound on the
    number of scans, it is used up, and no reordered list is returned.
    The ids need not be distinct for this. *)
Theorem unplaceable_parent_never_ends (comments : list Comments.comment)
    (c : Comments.comment) (fuel : nat) :
  c ∈ comments → ¬ satisfiable comments c →
  Comments.place fuel comments Comments.start = None
  ∧ Comments.reconstruct fuel comments = None.
Proof.
  intros Hc Hunsat.
  assert (H : Comments.place fuel comments Comments.start = None).
  { eapply place_never_ends; [done|done|apply placed_ok_start]. }
  split; [done|]. unfold Comments.reconstruct. by rewrite H.
Qed.

Lemma unplaceable_parent_never_ends_witness :
  Comments.place 100 [root_comment 1; reply_comment 3 2] Comments.start = None
  ∧ Comments.reconstruct 100 [root_comment 1; reply_comment 3 2] = None.
Proof.
  apply (unplaceable_parent_never_ends [root_comment 1; reply_comment 3 2]
           (reply_comment 3 2) 100).
  - right. by left.
  - intros H. inversion H as [? Hroot|? p c' Hp Hin Hid Hsat]; [discriminate Hroot|].
    injection Hp as <-. cbn in Hid.
    apply elem_of_cons in Hin as [->|Hin]; [discriminate Hid|].
    apply elem_of_cons in Hin as [->|Hin]; [discriminate Hid|].
    by apply elem_of_nil in Hin.
Defined.

(** ** Comments: the depth written into a reply *)

(** The nesting of a comment as its depth annotation gives it: a comment
    without parent record counts as 0. *)
Definition nesting (c : Comments.comment) : nat := default 0%nat (depth_annotation c).

Section Depths.
Import Comments.
Variable comments : list comment.
Implicit Types (F : forest) (depth e i j : nat) (c ci cj : comment).

Lemma annotate_root depth F i c :
  i ∈ roots F → comments !! i = Some c → set_depth depth c ∈ annotate comments depth F.
Proof.
  induction F as [|x k _ r IH]; [by intros ?%elem_of_nil|].
  cbn [roots annotate]. intros [->|Hi]%elem_of_cons Hc.
  - rewrite Hc. cbn. by left.
  - apply elem_of_app. right. apply elem_of_app. right. by apply IH.
Qed.

(** A child comes out one level below its parent. *)
Lemma annotate_child depth F j i cj ci :
  NoDup (preorder F) →
  i ∈ roots (below j F) → comments !! j = Some cj → comments !! i = Some ci →
  ∃ e, (depth ≤ e)%nat
       ∧ set_depth e cj ∈ annotate comments depth F
       ∧ set_depth (S e) ci ∈ annotate comments depth F.
Proof.
  revert depth. induction F as [|x k IHk r IHr]; intros depth Hnd;
    [by intros ?%elem_of_nil|].
  pose proof Hnd as [_ (Hk & _ & Hr)%NoDup_app]%NoDup_cons.
  cbn [annotate].
  destruct (decide (x = j)) as [->|Hxj]; [|destruct (decide (j ∈ preorder k))].
  - rewrite (below_here j k r). intros Hi Hj Hc. exists depth. split; [lia|]. split.
    + apply elem_of_app. left. rewrite Hj. cbn. by left.
    + apply elem_of_app. right. apply elem_of_app. left.
      by apply annotate_root with (i := i).
  - rewrite (below_kids _ _ _ j Hnd) by done. intros Hi Hj Hc.
    destruct (IHk (S depth) Hk Hi Hj Hc) as (e' & He & H1 & H2).
    exists e'. split; [lia|].
    split; apply elem_of_app; right; apply elem_of_app; by left.
  - rewrite (below_else _ _ r j) by done. intros Hi Hj Hc.
    destruct (IHr depth Hr Hi Hj Hc) as (e' & He & H1 & H2).
    exists e'. split; [lia|].
    split; apply elem_of_app; right; apply elem_of_app; by right.
Qed.

Lemma depth_annotation_set_depth e c :
  is_Some (parent c) → depth_annotation (set_depth e c) = Some e.
Proof. intros [p Hp]. unfold depth_annotation, set_depth. by rewrite Hp. Qed.

Lemma set_depth_root e c : parent c = None → set_depth e c = c.
Proof. intros Hp. unfold set_depth. by rewrite Hp. Qed.

Lemma payload_set_depth e c : payload (set_depth e c) = payload c.
Proof. unfold set_depth. by destruct (parent c). Qed.

(** Placement and flattening, for a list with distinct ids all of whose
    parents can be placed: what comes out is the annotation of a forest
    of all the comments. *)
Lemma reconstruct_annotate (fuel : nat) :
  NoDup (map id comments) →
  (∀ c, c ∈ comments → satisfiable comments c) →
  (length comments < fuel)%nat →
  ∃ G, reconstruct fuel comments = Some (annotate comments 0 G)
       ∧ NoDup (preorder G)
       ∧ parented comments None G
       ∧ (∀ x, (x < length comments)%nat → x ∈ preorder G).
Proof.
  intros Hids Hsat Hfuel.
  destruct (place_terminates comments Hids Hsat fuel start FNil)
    as (st & G & Hplace & HG & _ & Hlen).
  { apply represents_start. }
  { intros _. split; [done|]. by exists 0%nat. }
  { cbn. lia. }
  pose proof (rep_nodup _ _ _ HG) as Hnd.
  pose proof (rep_parented _ _ _ HG) as Hpar.
  assert (Hlt : ∀ x, x ∈ preorder G → (x < length comments)%nat)
    by (intros x; by apply parented_lt with (po := None)).
  assert (Hperm : preorder G ≡ₚ seq 0 (length comments)).
  { apply submseteq_length_Permutation.
    - apply NoDup_submseteq; [done|]. intros x Hx. apply elem_of_seq. split; [lia|].
      cbn. by apply Hlt.
    - rewrite length_seq, <- (rep_done _ _ _ HG). done. }
  exists G. split; [|split; [done|split; [done|]]].
  - unfold reconstruct. rewrite Hplace. cbn.
    rewrite (rep_hierarchy _ _ _ HG).
    rewrite (flatten_annotate comments fuel _ G [] 0);
      [done|apply (rep_children _ _ _ HG)|done|].
    pose proof (height_le_size G) as Hh. rewrite Hperm, length_seq in Hh. lia.
  - intros x Hx. rewrite Hperm. apply elem_of_seq. lia.
Qed.

End Depths.

(** X12. For a list of comments with distinct ids all of whose parents can
    be placed, the reconstruction returns the comments without parent as
    they are, and every reply with the depth of the comment it replies to
    plus one (a comment without parent counting as depth 0): a reply to a
    top-level comment gets depth 1, a reply to a reply of depth [d] gets
    depth [d + 1]. Nothing but the depth is changed. *)
Theorem reply_depth_is_parent_depth_plus_one (comments : list Comments.comment)
    (fuel : nat) :
  NoDup (map Comments.id comments) →
  (∀ c, c ∈ comments → satisfiable comments c) →
  (length comments < fuel)%nat →
  ∃ reordered,
    Comments.reconstruct fuel comments = Some reordered
    ∧ (∀ c, c ∈ comments → Comments.parent c = None → c ∈ reordered)
    ∧ (∀ c p, c ∈ comments → p ∈ comments → reply_to c p →
         ∃ c' p', c' ∈ reordered ∧ p' ∈ reordered
           ∧ Comments.id c' = Comments.id c ∧ Comments.payload c' = Comments.payload c
           ∧ Comments.id p' = Comments.id p
           ∧ depth_annotation c' = Some (S (nesting p'))).
Proof.
  intros Hids Hsat Hfuel.
  destruct (reconstruct_annotate comments fuel Hids Hsat Hfuel)
    as (G & Hrun & Hnd & Hpar & Hall).
  exists (annotate comments 0 G). split; [done|]. split.
  - intros c [i Hi]%list_elem_of_lookup Hroot.
    assert (HiG : i ∈ preorder G) by (by eapply Hall, lookup_lt_Some).
    destruct (parented_cases comments None G i Hnd Hpar HiG)
      as [[Hr _]|(j & _ & _ & Hp)].
    + rewrite <- (set_depth_root 0 c Hroot). by apply annotate_root with (i := i).
    + rewrite (parent_at_lookup _ _ _ Hi), Hroot in Hp. discriminate Hp.
  - intros c p [ic Hc]%list_elem_of_lookup [ip Hp]%list_elem_of_lookup (r & Hr & Hid).
    assert (HcG : ic ∈ preorder G) by (by eapply Hall, lookup_lt_Some).
    assert (HpG : ip ∈ preorder G) by (by eapply Hall, lookup_lt_Some).
    assert (Hchild : ic ∈ roots (below ip G)).
    { apply (reply_is_child comments Hids G Hnd Hpar); [done|done|].
      rewrite (parent_at_lookup _ _ _ Hc), Hr, (id_at_lookup _ _ _ Hp). cbn.
      by rewrite Hid. }
    destruct (annotate_child comments 0 G ip ic p c Hnd Hchild Hp Hc)
      as (e & _ & Hpe & Hce).
    destruct (Comments.parent p) as [rp|] eqn:Hparent.
    + exists (Comments.set_depth (S e) c), (Comments.set_depth e p).
      split; [done|]. split; [done|].
      split; [apply id_set_depth|]. split; [apply payload_set_depth|].
      split; [apply id_set_depth|].
      unfold nesting. rewrite !depth_annotation_set_depth; [done|by eexists|by eexists].
    + destruct (parented_cases comments None G ip Hnd Hpar HpG)
        as [[Hroot _]|(j & _ & _ & Hpj)].
      2:{ rewrite (parent_at_lookup _ _ _ Hp), Hparent in Hpj. discriminate Hpj. }
      clear e Hpe Hce.
      assert (Hce : Comments.set_depth 1 c ∈ annotate comments 0 G).
      { clear -Hroot Hchild Hc Hnd.
        induction G as [|x k _ rest IH]; [by apply elem_of_nil in Hroot|].
        pose proof Hnd as [_ (_ & _ & Hrest)%NoDup_app]%NoDup_cons.
        cbn [annotate]. apply elem_of_cons in Hroot as [->|Hroot].
        - rewrite below_here in Hchild.
          apply elem_of_app. right. apply elem_of_app. left. by apply annotate_root with (i := ic).
        - rewrite (below_rest _ _ _ ip Hnd) in Hchild by (by apply roots_preorder).
          apply elem_of_app. right. apply elem_of_app. right. by apply IH. }
      exists (Comments.set_depth 1 c), p.
      split; [done|].
      split; [rewrite <- (set_depth_root 0 p Hparent); by apply annotate_root with (i := ip)|].
      split; [apply id_set_depth|]. split; [apply payload_set_depth|]. split; [done|].
      unfold nesting, depth_annotation at 2. rewrite Hparent. cbn.
      apply depth_annotation_set_depth. by eexists.
Qed.

Lemma reply_depth_is_parent_depth_plus_one_witness :
  ∃ reordered,
    Comments.reconstruct 6 late_parent_thread = Some reordered
    ∧ (∀ c, c ∈ late_parent_thread → Comments.parent c = None → c ∈ reordered)
    ∧ (∀ c p, c ∈ late_parent_thread → p ∈ late_parent_thread → reply_to c p →
         ∃ c' p', c' ∈ reordered ∧ p' ∈ reordered
           ∧ Comments.id c' = Comments.id c ∧ Comments.payload c' = Comments.payload c
           ∧ Comments.id p' = Comments.id p
           ∧ depth_annotation c' = Some (S (nesting p'))).
Proof.
  apply (reply_depth_is_parent_depth_plus_one late_parent_thread 6).
  - apply (bool_decide_unpack _). vm_compute. exact I.
  - apply late_parent_thread_satisfiable.
  - cbn. lia.
Defined.

(** The depths in the example: 1 at depth 0 (none written), 3 and 2 at
    depth 1, 5 and 4 at depth 2. *)
Example late_parent_thread_depths :
  (map (fun c => (Comments.id c, depth_annotation c))
     <$> Comments.reconstruct 6 late_parent_thread)
    = Some [(1%Z, None); (3%Z, Some 1%nat); (5%Z, Some 2%nat); (2%Z, Some 1%nat);
            (4%Z, Some 2%nat)].
Proof. by vm_compute. Qed.

(** ** The declared rewrite rules, on any endpoint *)

Section DeclaredRules.
Import Py Rewrite.

Lemma set_same (k : string) (v : value) (d : dict) : get k d = Some v → set k v d = d.
Proof.
  induction d as [|[k' v'] d IH]; cbn; [done|].
  destruct (String.eqb_spec k k') as [->|Hne].
  - by intros [= ->].
  - intros H. by rewrite IH.
Qed.

Lemma mem_set (k k' : string) (v : value) (d : dict) :
  mem k' d = true → mem k' (set k v d) = true.
Proof.
  intros H. destruct (decide (k = k')) as [->|Hne].
  - apply mem_set_eq.
  - by rewrite mem_set_ne.
Qed.

(** A parameter that has a value: it is there, and not [None]. *)
Definition given (k : string) (d : dict) : Prop :=
  ∃ v, get k d = Some v ∧ v ≠ VNone.

(** One declared rewrite: no key is removed, a value given for a key other
    than [sort] stays, and [sort], once forced, stays forced. *)
Lemma declared_rewrite_keeps (rw : rewrite) (p : dict) :
  declared_shape rw →
  (∀ k, mem k p = true → mem k (apply_rewrite p rw) = true)
  ∧ (∀ k v, k ≠ "sort" → get k p = Some v → v ≠ VNone →
            get k (apply_rewrite p rw) = Some v)
  ∧ (get "sort" p = Some (VStr "created_on") →
     get "sort" (apply_rewrite p rw) = Some (VStr "created_on")).
Proof.
  intros [->|(k0 & v0 & -> & Hv0 & Hs & Hc)].
  - rewrite apply_sort_by_creation. split; [|split].
    + intros k. apply mem_set.
    + intros k v Hk Hget Hv. by rewrite get_set_ne.
    + intros _. apply get_set_eq.
  - rewrite apply_default by done. split; [|split].
    + intros k Hk. destruct (get k0 p) as [[]|]; by try apply mem_set.
    + intros k v Hk Hget Hv. destruct (decide (k0 = k)) as [->|Hne].
      * rewrite Hget. by destruct v.
      * destruct (get k0 p) as [[]|]; by rewrite ?get_set_ne.
    + intros Hsort. destruct (get k0 p) as [[]|]; by rewrite ?get_set_ne.
Qed.

(** What a declared rewrite sets is given afterwards. *)
Lemma declared_rewrite_sets (rw : rewrite) (p : dict) :
  declared_shape rw →
  (rw = sort_by_creation ∧ get "sort" (apply_rewrite p rw) = Some (VStr "created_on"))
  ∨ (∃ k v, rw = default k v ∧ v ≠ VNone ∧ k ≠ "sort" ∧ given k (apply_rewrite p rw)).
Proof.
  intros [->|(k0 & v0 & -> & Hv0 & Hs & Hc)].
  - left. split; [done|]. rewrite apply_sort_by_creation. apply get_set_eq.
  - right. exists k0, v0. split; [done|]. split; [done|]. split; [done|].
    rewrite apply_default by done.
    destruct (get k0 p) as [x|] eqn:Hx.
    + destruct x; try (eexists; split; [exact Hx|discriminate]);
        (exists v0; split; [apply get_set_eq|done]).
    + exists v0. split; [apply get_set_eq|done].
Qed.

(** A rewrite whose effect is already there changes nothing. *)
Lemma declared_rewrite_settled (rw : rewrite) (q : dict) :
  (rw = sort_by_creation ∧ get "sort" q = Some (VStr "created_on"))
  ∨ (∃ k v, rw = default k v ∧ v ≠ VNone ∧ given k q) →
  apply_rewrite q rw = q.
Proof.
  intros [[-> Hsort]|(k & v & -> & Hv & x & Hx & Hne)].
  - rewrite apply_sort_by_creation. by apply set_same.
  - rewrite apply_default, Hx by done. by destruct x.
Qed.

Lemma fold_declared_keeps (rws : list rewrite) (p : dict) :
  Forall declared_shape rws →
  (∀ k, mem k p = true → mem k (fold_left apply_rewrite rws p) = true)
  ∧ (∀ k v, k ≠ "sort" → get k p = Some v → v ≠ VNone →
            get k (fold_left apply_rewrite rws p) = Some v)
  ∧ (get "sort" p = Some (VStr "created_on") →
     get "sort" (fold_left apply_rewrite rws p) = Some (VStr "created_on")).
Proof.
  intros Hall. revert p. induction Hall as [|rw rws Hrw _ IH]; intros p; cbn; [done|].
  destruct (declared_rewrite_keeps rw p Hrw) as (A1 & A2 & A3).
  destruct (IH (apply_rewrite p rw)) as (B1 & B2 & B3).
  split; [|split]; auto.
Qed.

Lemma fold_declared_settled (rws : list rewrite) (p : dict) :
  Forall declared_shape rws →
  Forall (fun rw => apply_rewrite (fold_left apply_rewrite rws p) rw
                    = fold_left apply_rewrite rws p) rws.
Proof.
  intros Hall. revert p. induction Hall as [|rw rws Hrw Hall IH]; intros p; cbn; [done|].
  constructor; [|apply IH].
  destruct (fold_declared_keeps rws (apply_rewrite p rw) Hall) as (_ & B2 & B3).
  apply declared_rewrite_settled.
  destruct (declared_rewrite_sets rw p Hrw)
    as [[-> Hsort]|(k & v & -> & Hv & Hk & x & Hx & Hne)].
  - left. split; [done|]. by apply B3.
  - right. exists k, v. split; [done|]. split; [done|].
    exists x. split; [|done]. by apply B2.
Qed.

Lemma fold_settled (rws : list rewrite) (q : dict) :
  Forall (fun rw => apply_rewrite q rw = q) rws → fold_left apply_rewrite rws q = q.
Proof.
  induction 1 as [|rw rws Hrw _ IH]; cbn; [done|]. by rewrite Hrw.
Qed.

End DeclaredRules.

(** X13. With the rules [__backup_api] declares, for any repository, any
    endpoint and any parameters: [rewrite_url] returns the endpoint as it
    is; it removes no parameter; a parameter other than [sort] that comes
    with a value keeps that value (the defaults for state, pagelen and
    page never replace what the URL gives); and rewriting the result
    again changes nothing. *)
Theorem declared_rules_keep_given_parameters (owner repo : string)
    (rules : list Rewrite.rule) (endpoint : string) (params : Py.dict) :
  Rewrite.rewrite_rules owner repo = Some rules →
  fst (Rewrite.rewrite_url endpoint params rules) = endpoint
  ∧ (∀ k, Py.mem k params = true →
          Py.mem k (snd (Rewrite.rewrite_url endpoint params rules)) = true)
  ∧ (∀ k v, k ≠ "sort" → Py.get k params = Some v → v ≠ Py.VNone →
            Py.get k (snd (Rewrite.rewrite_url endpoint params rules)) = Some v)
  ∧ Rewrite.rewrite_url endpoint (snd (Rewrite.rewrite_url endpoint params rules)) rules
      = Rewrite.rewrite_url endpoint params rules.
Proof.
  intros Hrules.
  assert (Hshape : Forall declared_shape (Rewrite.matching_rewrites endpoint rules))
    by (eapply matching_rewrites_shape, rewrite_rules_shape, Hrules).
  rewrite !rewrite_url_matching. cbn [fst snd].
  destruct (fold_declared_keeps _ params Hshape) as (H1 & H2 & _).
  split; [done|]. split; [done|]. split; [done|].
  f_equal. apply fold_settled. by apply fold_declared_settled.
Qed.

Lemma declared_rules_keep_given_parameters_witness :
  ∃ rules,
    Rewrite.rewrite_rules "acme" "widget" = Some rules
    ∧ Rewrite.rewrite_url "repositories/acme/widget/issues"
        (snd (Rewrite.rewrite_url "repositories/acme/widget/issues"
                [("pagelen", Py.VList ["10"])] rules)) rules
      = Rewrite.rewrite_url "repositories/acme/widget/issues"
          [("pagelen", Py.VList ["10"])] rules.
Proof.
  destruct (Rewrite.rewrite_rules "acme" "widget") as [rules|] eqn:Hrules;
    [|vm_compute in Hrules; discriminate Hrules].
  exists rules. split; [reflexivity|].
  exact (proj2 (proj2 (proj2 (declared_rules_keep_given_parameters "acme" "widget" rules
           "repositories/acme/widget/issues" [("pagelen", Py.VList ["10"])] Hrules)))).
Defined.

(** On the issue list, a page length given in the URL stays, and page and
    sort are added. *)
Example issues_with_pagelen :
  (fun rules => snd (Rewrite.rewrite_url "repositories/acme/widget/issues"
                       [("pagelen", Py.VList ["10"])] rules))
    <$> Rewrite.rewrite_rules "acme" "widget"
  = Some [("pagelen", Py.VList ["10"]); ("page", Py.VInt 1);
          ("sort", Py.VStr "created_on")].
Proof. vm_compute. reflexivity. Qed.

(** ** Where a JSON answer is stored, and how its URL is read *)

Section StringFacts.

Lemma append_cons (c : ascii) (a b : string) :
  (String c a ++ b = String c (a ++ b))%string.
Proof. reflexivity. Qed.

Lemma append_nil (b : string) : (EmptyString ++ b = b)%string.
Proof. reflexivity. Qed.

Local Ltac by_chars a :=
  induction a as [|? a ?]; rewrite ?append_cons, ?append_nil; cbn.

Lemma len_app (a b : string) : PyStr.len (a ++ b) = (PyStr.len a + PyStr.len b)%nat.
Proof. unfold PyStr.len. by_chars a; [done|]. by rewrite IHa. Qed.

Lemma drop_app_len (a b : string) : PyStr.drop (PyStr.len a) (a ++ b) = b.
Proof. by_chars a; [by destruct b|]. exact IHa. Qed.

Lemma append_assoc (a b c : string) : ((a ++ b) ++ c = a ++ (b ++ c))%string.
Proof. by_chars a; [done|]. by rewrite IHa. Qed.

Lemma endswith_app (a p : string) : PyStr.endswith p (a ++ p) = true.
Proof.
  unfold PyStr.endswith. rewrite len_app.
  replace (PyStr.len a + PyStr.len p - PyStr.len p)%nat with (PyStr.len a) by lia.
  rewrite drop_app_len, String.eqb_refl, andb_true_r.
  apply Nat.leb_le. lia.
Qed.

Lemma startswith_app (a b : string) : PyStr.startswith a (a ++ b) = true.
Proof. by_chars a; [done|]. by rewrite Ascii.eqb_refl. Qed.

Lemma startswith_refl (a : string) : PyStr.startswith a a = true.
Proof. induction a as [|c a IH]; cbn; [done|]. by rewrite Ascii.eqb_refl. Qed.

Lemma startswith_app_l (p s t : string) :
  PyStr.startswith p s = true → PyStr.startswith p (s ++ t) = true.
Proof.
  revert s. induction p as [|c p IH]; intros s; [done|].
  destruct s as [|d s]; rewrite ?append_cons; cbn; [done|].
  destruct (Ascii.eqb c d); [apply IH|done].
Qed.

Lemma has_char_app (c : ascii) (a b : string) :
  has_char c (a ++ b) = has_char c a || has_char c b.
Proof. by_chars a; [done|]. by rewrite IHa, orb_assoc. Qed.

Lemma before_char_absent (c : ascii) (s : string) :
  has_char c s = false → PyStr.before_char c s = s.
Proof.
  induction s as [|d s IH]; cbn; [done|].
  intros [Hd Hs]%orb_false_elim. rewrite Ascii.eqb_sym, Hd. by rewrite IH.
Qed.

Lemma after_char_absent (c : ascii) (s : string) :
  has_char c s = false → PyStr.after_char c s = None.
Proof.
  induction s as [|d s IH]; cbn; [done|].
  intros [Hd Hs]%orb_false_elim. rewrite Ascii.eqb_sym, Hd. by apply IH.
Qed.

Lemma before_char_app (c : ascii) (a b : string) :
  has_char c a = false → PyStr.before_char c (a ++ String c b) = a.
Proof.
  by_chars a.
  - intros _. by rewrite Ascii.eqb_refl.
  - intros [Hd Ha]%orb_false_elim. rewrite Ascii.eqb_sym, Hd. by rewrite IHa.
Qed.

Lemma after_char_app (c : ascii) (a b : string) :
  has_char c a = false → PyStr.after_char c (a ++ String c b) = Some b.
Proof.
  by_chars a.
  - intros _. by rewrite Ascii.eqb_refl.
  - intros [Hd Ha]%orb_false_elim. rewrite Ascii.eqb_sym, Hd. by apply IHa.
Qed.

(** Nothing to replace: the string is returned as it is. *)
Lemma replace_absent (old new s : string) :
  old ≠ EmptyString → PyStr.contains old s = false → PyStr.replace old new s = s.
Proof.
  intros Hold. destruct old as [|o old]; [done|]. clear Hold. cbn [PyStr.replace].
  induction s as [|c s IH]; [done|].
  cbn [PyStr.contains]. intros [Hstart Hrest]%orb_false_elim.
  cbn [PyStr.replace_from]. rewrite Hstart. by rewrite IH.
Qed.

End StringFacts.

(** X14. The storage path of a JSON answer always ends in [.json]. When
    the endpoint does not begin with a slash the path begins with the save
    path; when it does begin with a slash, [os.path.join] drops the save
    path: the path is the one computed for an empty save path, and begins
    with the endpoint itself. *)
Theorem storage_path_shape (save_path : string) (rules : list Rewrite.rule)
    (endpoint : string) (params : Py.dict) :
  PyStr.endswith ".json" (Path.storage_path save_path rules endpoint params) = true
  ∧ (PyStr.startswith "/" endpoint = false →
     PyStr.startswith save_path (Path.storage_path save_path rules endpoint params) = true)
  ∧ (PyStr.startswith "/" endpoint = true →
     Path.storage_path save_path rules endpoint params =
       Path.storage_path "" rules endpoint params
     ∧ PyStr.startswith endpoint (Path.storage_path save_path rules endpoint params) = true).
Proof.
  unfold Path.storage_path, Rewrite.rewrite_url, Path.endpoint_path_of.
  set (suffix := Url.urlencode _).
  split; [apply endswith_app|]. split.
  - intros Hrel. apply startswith_app_l.
    assert (Hbase : PyStr.startswith save_path (Url.path_join save_path endpoint) = true).
    { unfold Url.path_join. rewrite Hrel. destruct save_path as [|c sp]; [done|].
      destruct (PyStr.endswith "/" (String c sp)); apply startswith_app. }
    destruct suffix; [done|]. by apply startswith_app_l.
  - intros Habs. unfold Url.path_join. rewrite Habs. split; [done|].
    apply startswith_app_l. destruct suffix; [|apply startswith_app].
    apply startswith_refl.
Qed.

(** ** The tree lists every file a crawl writes *)

Section CrawlTracks.
Import Crawler.

(** Two entries for the same URL: same URL, same queried URL, same path. *)
Definition same_entry (n n' : node) : Prop :=
  url n' = url n ∧ rewritten_url n' = rewritten_url n ∧ endpoint_path n' = endpoint_path n.

(** Every entry of [t], at any depth, has its entry in [t']. *)
Definition kept (t t' : list node) : Prop :=
  ∀ n, entry_of t n → ∃ n', entry_of t' n' ∧ same_entry n n'.

(** The path [p] is the path of an entry of [t]. *)
Definition listed (p : string) (t : list node) : Prop :=
  ∃ n, entry_of t n ∧ endpoint_path n = p.

(** From [s] to [s']: no entry has left the tree, and every file that was
    written, new or not, is the file of an entry. *)
Definition tracks (s s' : state) : Prop :=
  kept (tree s) (tree s')
  ∧ ∀ p, fs s' !! p ≠ fs s !! p → listed p (tree s').

Lemma same_entry_refl (n : node) : same_entry n n.
Proof. done. Qed.

Lemma kept_refl (t : list node) : kept t t.
Proof. intros n Hn. by exists n. Qed.

Lemma kept_trans (t1 t2 t3 : list node) : kept t1 t2 → kept t2 t3 → kept t1 t3.
Proof.
  intros H12 H23 n Hn.
  destruct (H12 n Hn) as (n2 & Hn2 & E1 & E2 & E3).
  destruct (H23 n2 Hn2) as (n3 & Hn3 & F1 & F2 & F3).
  exists n3. split; [done|]. unfold same_entry. by rewrite F1, F2, F3.
Qed.

Lemma kept_listed (p : string) (t t' : list node) : kept t t' → listed p t → listed p t'.
Proof.
  intros Hk (n & Hn & Hp). destruct (Hk n Hn) as (n' & Hn' & _ & _ & E).
  exists n'. split; [done|]. by rewrite E.
Qed.

(** An entry replaced in place by one for the same URL whose children
    keep the entries of the old one. *)
Lemma kept_insert (t : list node) (i : nat) (n n' : node) :
  t !! i = Some n → same_entry n n' → kept (children n) (children n') →
  kept t (<[i := n']> t).
Proof.
  intros Hi Hsame Hkids m Hm.
  assert (Hlt : (i < length t)%nat) by (by eapply lookup_lt_Some).
  inversion Hm as [? ? Hin|? m0 ? Hin Hbelow]; subst.
  - apply list_elem_of_lookup in Hin as [j Hj].
    destruct (decide (j = i)) as [->|Hne].
    + exists n'. split.
      * apply entry_here. apply list_elem_of_lookup. exists i.
        by apply list_lookup_insert_eq.
      * by replace m with n by congruence.
    + exists m. split; [|done]. apply entry_here. apply list_elem_of_lookup.
      exists j. by rewrite list_lookup_insert_ne.
  - apply list_elem_of_lookup in Hin as [j Hj].
    destruct (decide (j = i)) as [->|Hne].
    + replace m0 with n in Hbelow by congruence.
      destruct (Hkids m Hbelow) as (m' & Hm' & Hs).
      exists m'. split; [|done]. eapply entry_below; [|exact Hm'].
      apply list_elem_of_lookup. exists i. by apply list_lookup_insert_eq.
    + exists m. split; [|done]. eapply entry_below; [|exact Hbelow].
      apply list_elem_of_lookup. exists j. by rewrite list_lookup_insert_ne.
Qed.

Lemma kept_snoc (l : list node) (x : node) : kept l (l ++ [x]).
Proof.
  intros n Hn. exists n. split; [|done].
  inversion Hn as [? ? Hin|? m ? Hin Hbelow]; subst.
  - apply entry_here. apply elem_of_app. by left.
  - eapply entry_below; [|exact Hbelow]. apply elem_of_app. by left.
Qed.

Lemma kept_mark_last (l : list node) : kept l (mark_last l).
Proof.
  unfold mark_last. destruct l as [|a l]; [apply kept_refl|].
  set (l' := a :: l).
  assert (Hlast : l' !! (length l' - 1)%nat = Some (List.last l' (Node "" "" "" false []))).
  { destruct (exists_last (l := l') ltac:(done)) as (front & z & ->).
    rewrite last_last, length_app. cbn.
    replace (length front + 1 - 1)%nat with (length front + 0)%nat by lia.
    by rewrite lookup_app_r, Nat.add_0_r, Nat.sub_diag by lia. }
  eapply kept_insert; [exact Hlast|done|apply kept_refl].
Qed.

(** A change made to one list of the tree that keeps the entries of that
    list keeps the entries of the tree. *)
Lemma kept_update_level (f : list node → list node) (path : list nat) :
  (∀ l, kept l (f l)) →
  ∀ t t', update_level f path t = Some t' → kept t t'.
Proof.
  intros Hf. induction path as [|i path IH]; intros t t' Ht; cbn in Ht.
  - injection Ht as <-. apply Hf.
  - destruct (t !! i) as [n|] eqn:Hi; [|done]. cbn in Ht.
    destruct (update_level f path (children n)) as [cs|] eqn:Hcs; [|done].
    cbn in Ht. injection Ht as <-.
    eapply kept_insert; [exact Hi|done|]. cbn. by apply IH.
Qed.

(** [tree.append(x)] puts [x] in the tree. *)
Lemma append_at_entry (x : node) (path : list nat) :
  ∀ t t', append_at path x t = Some t' → entry_of t' x.
Proof.
  unfold append_at. induction path as [|i path IH]; intros t t' Ht; cbn in Ht.
  - injection Ht as <-. apply entry_here. apply elem_of_app. right. by left.
  - destruct (t !! i) as [n|] eqn:Hi; [|done]. cbn in Ht.
    destruct (update_level _ path (children n)) as [cs|] eqn:Hcs; [|done].
    cbn in Ht. injection Ht as <-.
    apply entry_below with (m := with_children n cs); [|by apply IH with (t := children n)].
    apply list_elem_of_lookup. exists i. apply list_lookup_insert_eq.
    by eapply lookup_lt_Some.
Qed.

Lemma tracks_refl (s : state) : tracks s s.
Proof. split; [apply kept_refl | by intros p Hp]. Qed.

Lemma tracks_trans (s1 s2 s3 : state) : tracks s1 s2 → tracks s2 s3 → tracks s1 s3.
Proof.
  intros [K12 F12] [K23 F23]. split; [by eapply kept_trans|].
  intros p Hp. destruct (decide (fs s2 !! p = fs s1 !! p)) as [Heq|Hne].
  - apply F23. by rewrite Heq.
  - eapply kept_listed; [exact K23|]. by apply F12.
Qed.

(** A step that leaves tree and files alone. *)
Lemma tracks_same (s s' : state) : tree s' = tree s → fs s' = fs s → tracks s s'.
Proof. intros Ht Hf. split; [rewrite Ht; apply kept_refl | by rewrite Hf]. Qed.

(** [tracked P m]: from a state in [P], however [m] ends, the tree has
    kept its entries and lists the files written. *)
Definition tracked {A} (P : state → Prop) (m : M A) : Prop :=
  ∀ s, P s →
    match m s with
    | Ok _ s' => tracks s s'
    | Raise _ s' => tracks s s'
    | OutOfFuel => True
    end.

(** Conditions on the tree that later steps cannot undo. *)
Definition lasting (P : state → Prop) : Prop := ∀ s s', P s → tracks s s' → P s'.

Lemma lasting_listed (p : string) : lasting (λ s, listed p (tree s)).
Proof. intros s s' Hp [Hk _]. by eapply kept_listed. Qed.

Lemma lasting_True : lasting (λ _, True).
Proof. done. Qed.

Lemma tracked_ret {A} (P : state → Prop) (a : A) : tracked P (ret a).
Proof. intros s _. apply tracks_refl. Qed.

Lemma tracked_raise {A} (P : state → Prop) (e : exn) : tracked P (@raise A e).
Proof. intros s _. apply tracks_refl. Qed.

Lemma tracked_gets {A} (P : state → Prop) (f : state → A) : tracked P (gets f).
Proof. intros s _. apply tracks_refl. Qed.

Lemma tracked_expect {A} (P : state → Prop) (e : exn) (o : option A) :
  tracked P (expect e o).
Proof. destruct o; [apply tracked_ret | apply tracked_raise]. Qed.

Lemma tracked_modify (P : state → Prop) (f : state → state) :
  (∀ s, P s → tracks s (f s)) → tracked P (modify f).
Proof. intros H s HP. by apply H. Qed.

Lemma tracked_bind {A B} (P : state → Prop) (m : M A) (k : A → M B) :
  lasting P → tracked P m → (∀ a, tracked P (k a)) → tracked P (bind m k).
Proof.
  intros HP Hm Hk s Hs. unfold bind. specialize (Hm s Hs).
  destruct (m s) as [a s'|e s'|]; [|done|done].
  specialize (Hk a s' (HP s s' Hs Hm)).
  destruct (k a s') as [b s''|e s''|]; [| |done]; by eapply tracks_trans.
Qed.

Lemma tracked_for_each {A} (P : state → Prop) (l : list A) (body : A → M unit) :
  lasting P → (∀ x, tracked P (body x)) → tracked P (for_each l body).
Proof.
  intros HP Hbody. induction l as [|x l IH]; cbn.
  - apply tracked_ret.
  - apply tracked_bind; [done | apply Hbody | intros ?; apply IH].
Qed.

Lemma tracked_weaken {A} (P : state → Prop) (m : M A) :
  tracked (λ _, True) m → tracked P m.
Proof. intros H s _. by apply H. Qed.

Lemma tracked_tree_new_level P : tracked P tree_new_level.
Proof. apply tracked_modify. intros s _. by apply tracks_same. Qed.

Lemma tracked_tree_finished_level P : tracked P tree_finished_level.
Proof. apply tracked_modify. intros s _. by apply tracks_same. Qed.

Lemma tracked_tree_increment_level P : lasting P → tracked P tree_increment_level.
Proof.
  intros HP. unfold tree_increment_level. apply tracked_bind; [done|apply tracked_gets|].
  intros [|x loc]; [apply tracked_raise|].
  apply tracked_modify. intros s _. by apply tracks_same.
Qed.

Lemma tracked_counters P (f : state → state) :
  (∀ s, ∃ a b c, f s = set_counters a b c s) → tracked P (modify f).
Proof.
  intros Hf. apply tracked_modify. intros s _.
  destruct (Hf s) as (a & b & c & ->). by apply tracks_same.
Qed.

Lemma tracked_add_files_downloaded P (d : Z) : tracked P (add_files_downloaded d).
Proof. apply tracked_counters. intros s. by eexists _, _, _. Qed.

Lemma tracked_add_duplicates_skipped P (d : Z) : tracked P (add_duplicates_skipped d).
Proof. apply tracked_counters. intros s. by eexists _, _, _. Qed.

Lemma tracked_add_already_downloaded P (d : Z) : tracked P (add_already_downloaded d).
Proof. apply tracked_counters. intros s. by eexists _, _, _. Qed.

(** A change to the current list that keeps its entries. *)
Lemma tracked_on_current_level P (f : list node → list node) :
  (∀ l, kept l (f l)) → tracked P (on_current_level f).
Proof.
  intros Hf s _. unfold on_current_level, bind, gets, expect. cbn.
  destruct (update_level f _ (tree s)) as [t|] eqn:Ht; cbn; [|apply tracks_refl].
  split; [|done]. cbn. by eapply kept_update_level.
Qed.

(** The entry is appended first: whatever follows runs with the path of
    the entry in the tree. *)
Lemma tracked_register {A} (x : node) (k : M A) :
  tracked (λ s, listed (endpoint_path x) (tree s)) k →
  tracked (λ _, True) (let! _ := on_current_level (λ l, l ++ [x]) in k).
Proof.
  intros Hk s _. unfold on_current_level, bind at 1, bind at 1, gets, expect. cbn.
  destruct (update_level _ _ (tree s)) as [t|] eqn:Ht; cbn; [|apply tracks_refl].
  unfold bind, modify.
  set (s1 := set_tree t s).
  assert (H1 : tracks s s1).
  { split; [|done]. cbn. eapply kept_update_level; [|exact Ht]. intros l. apply kept_snoc. }
  assert (Hx : listed (endpoint_path x) (tree s1)).
  { exists x. split; [|done]. by eapply append_at_entry. }
  specialize (Hk s1 Hx). destruct (k s1) as [a s2|e s2|]; [| |done];
    by eapply tracks_trans.
Qed.

(** A file is written under a path of the tree. *)
Lemma tracked_write_file (p content : string) :
  tracked (λ s, listed p (tree s)) (write_file p content).
Proof.
  apply tracked_modify. intros s Hp. split; [apply kept_refl|].
  intros p' Hne. cbn in *. destruct (decide (p = p')) as [<-|Hp']; [done|].
  by rewrite lookup_insert_ne in Hne.
Qed.

Lemma tracked_path_exists P (p : string) : tracked P (path_exists p).
Proof. apply tracked_gets. Qed.

Lemma tracked_makedirs P (head : string) : lasting P → tracked P (makedirs head).
Proof.
  intros HP. destruct head as [|c head]; [apply tracked_raise|]. cbn [makedirs].
  apply tracked_bind; [done | apply tracked_gets |]. intros s.
  destruct (file_above (fs s) (String c head)); [apply tracked_raise | apply tracked_ret].
Qed.

Lemma tracked_open_and_write (p content : string) :
  tracked (λ s, listed p (tree s)) (open_and_write p content).
Proof.
  unfold open_and_write.
  apply tracked_bind; [apply lasting_listed | apply tracked_gets |]. intros s.
  destruct (file_above (fs s) p); [apply tracked_raise|].
  destruct (snd (path_split p)); [apply tracked_raise | apply tracked_write_file].
Qed.

Lemma tracked_read_file P (p : string) : lasting P → tracked P (read_file p).
Proof.
  intros HP. unfold read_file.
  apply tracked_bind; [done | apply tracked_gets | intros s; apply tracked_expect].
Qed.

Lemma tracked_dummy_response P (p : string) : tracked P (dummy_response p).
Proof.
  intros s _. unfold dummy_response.
  destruct (DummyResponse.construct p (dummy s)) as [r d]. by apply tracks_same.
Qed.

Lemma tracked_dummy_attr {A} P (get : DummyResponse.obj → option A) (r : nat) :
  lasting P → tracked P (dummy_attr get r).
Proof.
  intros HP. unfold dummy_attr.
  apply tracked_bind; [done | apply tracked_gets | intros s; apply tracked_expect].
Qed.

Lemma tracked_status_code P (resp : response) : lasting P → tracked P (status_code resp).
Proof. intros HP. destruct resp; [apply tracked_ret | by apply tracked_dummy_attr]. Qed.

Lemma tracked_text P (resp : response) : lasting P → tracked P (text resp).
Proof.
  intros HP. destruct resp; [apply tracked_ret|]. cbn.
  apply tracked_bind; [done | by apply tracked_dummy_attr |].
  intros p. by apply tracked_read_file.
Qed.

Variable http_get : string → Z * string.
Variable fetch_file : string → option string.
Variable json_loads : string → option Json.json.
Variable json_dumps : Json.json → string.

Lemma tracked_bb_query_api P (u : string) : tracked P (bb_query_api http_get u).
Proof.
  intros s _. unfold bb_query_api. destruct (http_get u) as [status body].
  by apply tracks_same.
Qed.

Lemma tracked_fetch P (u : string) : tracked P (fetch fetch_file u).
Proof. intros s _. unfold fetch. destruct (fetch_file u); by apply tracks_same. Qed.

Lemma tracked_json_of P (resp : response) : lasting P → tracked P (json_of json_loads resp).
Proof.
  intros HP. destruct resp; [apply tracked_ret|]. cbn.
  apply tracked_bind; [done | by apply tracked_dummy_attr |]. intros p.
  apply tracked_bind; [done | apply tracked_gets |]. intros s. apply tracked_ret.
Qed.

Lemma tracked_download_file (u : string) :
  tracked (λ _, True) (download_file fetch_file u).
Proof.
  unfold download_file.
  apply tracked_bind; [apply lasting_True | apply tracked_gets |]. intros sp.
  apply tracked_register. cbn [endpoint_path].
  pose proof (lasting_listed (download_path sp u)) as HP.
  apply tracked_bind; [done | apply tracked_gets |]. intros [|].
  - apply tracked_bind; [done | apply tracked_on_current_level, kept_mark_last |].
    intros ?. apply tracked_add_already_downloaded.
  - apply tracked_bind; [done | by apply tracked_makedirs |]. intros ?.
    apply tracked_bind; [done | apply tracked_fetch |]. intros content.
    apply tracked_bind; [done | apply tracked_open_and_write |]. intros ?.
    apply tracked_add_files_downloaded.
Qed.

Lemma tracked_then_increment P (m : M unit) :
  lasting P → tracked P m → tracked P (then_increment m).
Proof.
  intros HP Hm. unfold then_increment.
  apply tracked_bind; [done | done |]. intros ?. by apply tracked_tree_increment_level.
Qed.

Lemma tracked_handle_response (recurse : string → M unit)
    (ignore_rules : list ignore_rule) (p : string) (resp : response) :
  (∀ u, tracked (λ _, True) (recurse u)) →
  tracked (λ s, listed p (tree s))
    (handle_response fetch_file json_loads json_dumps recurse ignore_rules p resp).
Proof.
  intros Hrec. pose proof (lasting_listed p) as HP.
  assert (Hcall : ∀ u, tracked (λ s, listed p (tree s)) (then_increment (recurse u))).
  { intros u. apply tracked_then_increment; [done|]. apply tracked_weaken, Hrec. }
  unfold handle_response.
  apply tracked_bind; [done | by apply tracked_status_code |]. intros status.
  destruct (status =? 200)%Z; [|apply tracked_add_files_downloaded].
  apply tracked_bind; [done | by apply tracked_json_of |]. intros [j|];
    [|apply tracked_add_files_downloaded].
  apply tracked_bind; [done | apply tracked_write_file |]. intros ?.
  apply tracked_bind; [done | apply tracked_tree_new_level |]. intros ?.
  apply tracked_bind; [done | |].
  { unfold follow_next. apply tracked_bind; [done | apply tracked_expect |].
    intros [|]; [|apply tracked_ret].
    apply tracked_bind; [done | apply tracked_expect |]. intros next. apply Hcall. }
  intros ?. apply tracked_bind; [done | |].
  { unfold download_referenced_files. apply tracked_bind; [done | apply tracked_gets |].
    intros regexes. apply tracked_for_each; [done|]. intros rx.
    apply tracked_bind; [done | by apply tracked_text |]. intros body.
    apply tracked_for_each; [done|]. intros result.
    apply tracked_then_increment; [done|]. apply tracked_weaken, tracked_download_file. }
  intros ?. apply tracked_bind; [done | | intros ?; apply tracked_tree_finished_level].
  unfold follow_references. apply tracked_bind; [done | apply tracked_expect |].
  intros prog. apply tracked_bind; [done | by apply tracked_text |]. intros body.
  apply tracked_for_each; [done|]. intros result.
  apply tracked_bind; [done | apply tracked_gets |]. intros s0.
  apply tracked_bind; [done | apply tracked_expect |]. intros issue.
  apply tracked_bind; [done | |].
  { destruct (Re.match_at issue result); [apply Hcall | apply tracked_ret]. }
  intros ?. destruct (skipped ignore_rules result false); [apply tracked_ret | apply Hcall].
Qed.

Lemma tracked_get_and_save_json (fuel : nat) (ignore_rules : list ignore_rule)
    (rewrite_rules : list Rewrite.rule) (u : string) :
  tracked (λ _, True)
    (get_and_save_json http_get fetch_file json_loads json_dumps fuel
       ignore_rules rewrite_rules u).
Proof.
  revert u. induction fuel as [|fuel IH]; intros u; [by intros s|].
  cbn [get_and_save_json]. destruct (Path.split_url u) as [endpoint params].
  apply tracked_bind; [apply lasting_True | apply tracked_gets |]. intros sp.
  apply tracked_register. cbn [endpoint_path].
  set (p := Path.storage_path sp rewrite_rules endpoint params).
  pose proof (lasting_listed p) as HP.
  apply tracked_bind; [done | apply tracked_path_exists |]. intros [|].
  - apply tracked_bind; [done | apply tracked_dummy_response |]. intros r.
    apply tracked_bind; [done | by apply tracked_dummy_attr |]. intros [|].
    + apply tracked_bind; [done | apply tracked_on_current_level, kept_mark_last |].
      intros ?. apply tracked_add_duplicates_skipped.
    + apply tracked_bind; [done | apply tracked_add_already_downloaded |]. intros ?.
      by apply tracked_handle_response.
  - apply tracked_bind; [done | apply tracked_bb_query_api |]. intros resp.
    apply tracked_bind; [done | apply tracked_add_files_downloaded |]. intros ?.
    by apply tracked_handle_response.
Qed.

End CrawlTracks.

(** X15. However a call of [get_and_save_json] ends, by returning or by an
    exception: every entry that was in the tree, at any depth, still has an
    entry with the same URL, queried URL and path; and every file the call
    has written or changed is at the path of an entry of the tree (the
    entry is appended before the file is written), so that a later pass
    over the tree reaches every file of the crawl. *)
Theorem crawl_files_are_in_the_tree
    (http_get : string → Z * string) (fetch_file : string → option string)
    (json_loads : string → option Json.json) (json_dumps : Json.json → string)
    (fuel : nat) (ignore_rules : list Crawler.ignore_rule)
    (rewrite_rules : list Rewrite.rule) (u : string) (s : Crawler.state) :
  match Crawler.get_and_save_json http_get fetch_file json_loads json_dumps fuel
          ignore_rules rewrite_rules u s with
  | Crawler.Ok _ s' | Crawler.Raise _ s' =>
      (∀ n, entry_of (Crawler.tree s) n →
         ∃ n', entry_of (Crawler.tree s') n'
           ∧ Crawler.url n' = Crawler.url n
           ∧ Crawler.rewritten_url n' = Crawler.rewritten_url n
           ∧ Crawler.endpoint_path n' = Crawler.endpoint_path n)
      ∧ (∀ p, Crawler.fs s' !! p ≠ Crawler.fs s !! p →
           ∃ n, entry_of (Crawler.tree s') n ∧ Crawler.endpoint_path n = p)
  | Crawler.OutOfFuel => True
  end.
Proof.
  pose proof (tracked_get_and_save_json http_get fetch_file json_loads json_dumps fuel
                ignore_rules rewrite_rules u s I) as H.
  by destruct (Crawler.get_and_save_json _ _ _ _ _ _ _ _ _).
Qed.

(** ** [backup_api]: the repositories of an export, one after the other *)

(** The URL [__backup_api] starts the crawl of a repository with. *)
Definition repository_url (r : string * string) : string :=
  (bitbucket_api_url ++ Rewrite.repo_prefix (fst r) (snd r))%string.

Section BackupEntries.
Import Crawler.

Variable http_get : string → Z * string.
Variable fetch_file : string → option string.
Variable json_loads : string → option Json.json.
Variable json_dumps : Json.json → string.

(** One repository: one entry more at the top of the tree, and the
    position one further. *)
Lemma backup_repository_adds_entry (fuel : nat) (o r : string) (s s' : state) :
  current_tree_location s = [length (tree s)] →
  backup_repository http_get fetch_file json_loads json_dumps fuel o r s = Ok tt s' →
  ∃ n, url n = repository_url (o, r)
     ∧ tree s' = tree s ++ [n]
     ∧ current_tree_location s' = [length (tree s')].
Proof.
  intros Hloc. unfold backup_repository, bind at 1.
  destruct (mapM Re.compile _) as [regexes|]; [|done]. cbn [expect ret].
  unfold bind at 1. destruct (Rewrite.rewrite_rules o r) as [rules|]; [|done].
  cbn [expect ret]. unfold bind at 1, modify.
  set (s1 := set_counters 0 0 0 (set_repository o r regexes s)).
  unfold bind.
  destruct (get_and_save_json _ _ _ _ _ _ _ _ s1) as [[] s2|e s2|] eqn:Hrun; [|done|done].
  pose proof (get_and_save_json_adds_entry http_get fetch_file json_loads json_dumps
                fuel (ignore_rules_of o r) rules
                (bitbucket_api_url ++ Rewrite.repo_prefix o r) [] (tree s) (tree s)) as H.
  apply (hoare_run _ _ _ s1 s2 tt H) in Hrun; [|by repeat split].
  destruct Hrun as (n & Hu & Hloc2 & Ht & _). cbn in Hloc2, Ht.
  injection Ht as Ht.
  unfold tree_increment_level, bind, gets. rewrite Hloc2. cbn.
  intros [= <-]. exists n. split; [done|]. split; [done|]. cbn.
  rewrite <- Ht, length_app. cbn. done.
Qed.

Lemma backup_api_adds_entries (fuel : nat) (repositories : list (string * string)) :
  ∀ s s',
    current_tree_location s = [length (tree s)] →
    backup_api http_get fetch_file json_loads json_dumps fuel repositories s = Ok tt s' →
    ∃ entries,
      tree s' = tree s ++ entries
      ∧ map url entries = map repository_url repositories
      ∧ current_tree_location s' = [length (tree s')].
Proof.
  unfold backup_api. induction repositories as [|[o r] repositories IH]; intros s s' Hloc.
  - cbn. intros [= <-]. exists []. by rewrite app_nil_r.
  - cbn [for_each fst snd]. unfold bind.
    destruct (backup_repository _ _ _ _ fuel o r s) as [[] s1|e s1|] eqn:Hfirst; [|done|done].
    intros Hrest.
    destruct (backup_repository_adds_entry fuel o r s s1 Hloc Hfirst) as (n & Hu & Ht & Hloc1).
    destruct (IH s1 s' Hloc1 Hrest) as (entries & Ht' & Hurls & Hloc').
    exists (n :: entries). split; [by rewrite Ht', Ht, <- app_assoc|].
    split; [|done]. cbn. by rewrite Hu, Hurls.
Qed.

End BackupEntries.

(** X16. When [backup_api] returns, from an exporter whose position is the
    end of the top list of its tree (as [__init__] leaves it), the tree is
    the tree before with one entry more at the top for each repository of
    the export, in the order of the export, each for the URL
    [https://api.bitbucket.org/2.0/repositories/<owner>/<repo>]; whatever
    the crawl of a repository finds is below its entry. The position is
    again the end of the top list. *)
Theorem backup_api_one_entry_per_repository
    (http_get : string → Z * string) (fetch_file : string → option string)
    (json_loads : string → option Json.json) (json_dumps : Json.json → string)
    (fuel : nat) (repositories : list (string * string)) (s s' : Crawler.state) :
  Crawler.current_tree_location s = [length (Crawler.tree s)] →
  Crawler.backup_api http_get fetch_file json_loads json_dumps fuel repositories s
    = Crawler.Ok tt s' →
  ∃ entries,
    Crawler.tree s' = Crawler.tree s ++ entries
    ∧ map Crawler.url entries = map repository_url repositories
    ∧ Crawler.current_tree_location s' = [length (Crawler.tree s) + length repositories]%nat.
Proof.
  intros Hloc Hrun.
  destruct (backup_api_adds_entries http_get fetch_file json_loads json_dumps fuel
              repositories s s' Hloc Hrun) as (entries & Ht & Hurls & Hloc').
  exists entries. split; [done|]. split; [done|].
  rewrite Hloc', Ht, length_app. do 2 f_equal.
  by rewrite <- (length_map Crawler.url), Hurls, length_map.
Qed.

(** An export of two repositories of acme; the service knows neither
    repository URL and answers 404. *)
Definition acme_export : list (string * string) := [("acme", "widget"); ("acme", "gadget")].

Definition acme_backup : Crawler.res unit :=
  Crawler.backup_api acme_http (λ _, None) acme_loads acme_dumps 3 acme_export
    (Crawler.init acme_raw ∅ DummyResponse.initial).

Lemma acme_backup_returns :
  acme_backup = Crawler.Ok tt (final_state acme_backup).
Proof. vm_compute. reflexivity. Qed.

Lemma backup_api_one_entry_per_repository_witness :
  ∃ entries,
    Crawler.tree (final_state acme_backup) = [] ++ entries
    ∧ map Crawler.url entries = map repository_url acme_export
    ∧ Crawler.current_tree_location (final_state acme_backup) = [0 + 2]%nat.
Proof.
  apply (backup_api_one_entry_per_repository acme_http (λ _, None) acme_loads acme_dumps
           3 acme_export (Crawler.init acme_raw ∅ DummyResponse.initial)
           (final_state acme_backup)).
  - reflexivity.
  - exact acme_backup_returns.
Defined.

(** The two entries of that export. *)
Example acme_backup_tree :
  map Crawler.url (Crawler.tree (final_state acme_backup)) =
    [ "https://api.bitbucket.org/2.0/repositories/acme/widget";
      "https://api.bitbucket.org/2.0/repositories/acme/gadget" ]
  ∧ map Crawler.children (Crawler.tree (final_state acme_backup)) = [ []; [] ].
Proof. vm_compute. split; reflexivity. Qed.

(** ** A saved file that holds no JSON *)

Section SavedWithoutJson.
Import Crawler.

Variable http_get : string → Z * string.
Variable fetch_file : string → option string.
Variable json_loads : string → option Json.json.
Variable json_dumps : Json.json → string.

Local Abbreviation crawl := (get_and_save_json http_get fetch_file json_loads json_dumps).

(** X17. A file of an earlier run that holds no JSON: when the storage
    path is on disk, is read for the first time in the process, and its
    content does not parse, [get_and_save_json] sends no request, leaves
    the file as it is, appends the entry of the URL unmarked, counts the
    file as already downloaded, and takes one off the counter of files
    downloaded, which this call never added to: the counter ends one
    below its value at entry. *)
Theorem saved_file_without_json_lowers_downloads (fuel : nat)
    (ignore_rules : list ignore_rule) (rewrite_rules : list Rewrite.rule)
    (u endpoint content : string) (params : Py.dict)
    (path : list nat) (l : list node) (s : state) :
  Path.split_url u = (endpoint, params) →
  ready path l (tree s) s →
  let endpoint_path := Path.storage_path (save_path s) rewrite_rules endpoint params in
  let rewritten := Path.rewritten_url rewrite_rules endpoint params in
  fs s !! endpoint_path = Some content →
  DummyResponse.cache (dummy s) !! endpoint_path = None →
  json_loads content = None →
  ∃ t1,
    append_at path (Node u rewritten endpoint_path false []) (tree s) = Some t1
    ∧ crawl (S fuel) ignore_rules rewrite_rules u s =
        Ok tt
          (set_counters (files_downloaded s - 1) (duplicates_skipped s)
             (already_downloaded s + 1)
             (set_dummy (snd (DummyResponse.construct endpoint_path (dummy s)))
                (set_tree t1 s))).
Proof.
  intros Hsplit Hready endpoint_path rewritten Hfs Hcache Hjson.
  destruct (crawl_reads_saved http_get fetch_file json_loads json_dumps fuel ignore_rules
              rewrite_rules u endpoint content params path l s Hsplit Hready Hfs Hcache)
    as (t1 & Ht1 & Hrun).
  exists t1. split; [done|].
  fold endpoint_path rewritten in Hrun. rewrite Hrun.
  rewrite (construct_first _ _ Hcache). cbn [snd].
  unfold handle_response. cbn [status_code].
  unfold bind at 1. unfold dummy_attr at 1. unfold bind at 1, gets at 1, expect at 1.
  cbn [dummy set_dummy set_counters DummyResponse.heap id].
  rewrite lookup_app_r by lia. rewrite Nat.sub_diag. cbn [lookup list_lookup mbind option_bind
    DummyResponse.status_code ret].
  simpl (200 =? 200)%Z. cbv iota.
  cbn [json_of]. unfold bind at 1. unfold bind at 1.
  unfold dummy_attr at 1. unfold bind at 1, gets at 1, expect at 1.
  cbn [dummy set_dummy set_counters DummyResponse.heap id].
  rewrite lookup_app_r by lia. rewrite Nat.sub_diag. cbn [lookup list_lookup mbind option_bind
    DummyResponse.path ret].
  unfold bind at 1, gets at 1. cbn [id fs set_counters set_dummy set_tree].
  unfold ret at 1. rewrite Hfs. cbn [mbind option_bind]. rewrite Hjson.
  unfold add_files_downloaded, modify, set_counters. cbn.
  reflexivity.
Qed.

End SavedWithoutJson.

(** The export page of acme/widget, saved by an earlier run: no JSON. *)
Definition acme_export_url : string := (acme_issues ++ "/export")%string.
Definition acme_export_path : string :=
  (acme_raw ++ "/repositories/acme/widget/issues/export.json")%string.

Lemma saved_file_without_json_lowers_downloads_witness :
  ∃ t1,
    Crawler.append_at []
      (Crawler.Node acme_export_url acme_export_url acme_export_path false [])
      (Crawler.tree (acme_start {[acme_export_path := "<html>not JSON</html>"]})) = Some t1
    ∧ acme_crawl 1 acme_export_url (acme_start {[acme_export_path := "<html>not JSON</html>"]}) =
        Crawler.Ok tt
          (Crawler.set_counters (0 - 1) 0 (0 + 1)
             (Crawler.set_dummy
                (snd (DummyResponse.construct acme_export_path DummyResponse.initial))
                (Crawler.set_tree t1
                   (acme_start {[acme_export_path := "<html>not JSON</html>"]})))).
Proof.
  assert (Hfs : Crawler.fs (acme_start {[acme_export_path := "<html>not JSON</html>"]})
                  !! acme_export_path = Some "<html>not JSON</html>")
    by (vm_compute; reflexivity).
  assert (Hcache : DummyResponse.cache
                     (Crawler.dummy (acme_start {[acme_export_path := "<html>not JSON</html>"]}))
                     !! acme_export_path = None)
    by (vm_compute; reflexivity).
  exact (saved_file_without_json_lowers_downloads acme_http (λ _, None) acme_loads acme_dumps
           0 (Crawler.ignore_rules_of "acme" "widget") acme_rules acme_export_url
           "repositories/acme/widget/issues/export" "<html>not JSON</html>" []
           [] [] (acme_start {[acme_export_path := "<html>not JSON</html>"]})
           eq_refl (conj eq_refl (conj eq_refl eq_refl)) Hfs Hcache eq_refl).
Defined.

(** ** From an endpoint to its URL and back *)

(** The characters of an endpoint as the service writes them: printable,
    no space, and neither [?] nor [#]. *)
Definition endpoint_char (c : ascii) : bool :=
  (33 <=? nat_of_ascii c)%nat && (nat_of_ascii c <=? 126)%nat
  && negb (Ascii.eqb c "?") && negb (Ascii.eqb c "#").

Definition is_endpoint (e : string) : bool :=
  forallb endpoint_char (list_ascii_of_string e).

Section EndpointRoundTrip.

Lemma is_endpoint_has_char (c : ascii) (e : string) :
  endpoint_char c = false → is_endpoint e = true → has_char c e = false.
Proof.
  intros Hc. unfold is_endpoint. induction e as [|d e IH]; cbn; [done|].
  intros [Hd He]%andb_prop. rewrite (IH He), orb_false_r.
  destruct (Ascii.eqb_spec c d) as [->|]; [congruence|done].
Qed.

(** The characters of a matched occurrence are dropped. *)
Lemma replace_from_skip (old new a e : string) :
  PyStr.replace_from old new (a ++ e) (PyStr.len a) = PyStr.replace_from old new e 0.
Proof.
  induction a as [|c a IH]; rewrite ?append_cons, ?append_nil; cbn; [|exact IH].
  by destruct e.
Qed.

Lemma replace_prefix (old new e : string) :
  old ≠ EmptyString →
  PyStr.replace old new (old ++ e) = (new ++ PyStr.replace old new e)%string.
Proof.
  destruct old as [|o old]; [done|]. intros _. cbn [PyStr.replace].
  change (String o old ++ e)%string with (String o (old ++ e)).
  cbn [PyStr.replace_from].
  change (String o (old ++ e)) with (String o old ++ e)%string.
  rewrite (startswith_app (String o old) e).
  replace (PyStr.len (String o old) - 1)%nat with (PyStr.len old)
    by (unfold PyStr.len; cbn; lia).
  by rewrite replace_from_skip.
Qed.

(** The endpoint read off the URL of an endpoint. *)
Lemma split_endpoint (e : string) :
  has_char "?" e = false →
  PyStr.contains bitbucket_api_url e = false →
  PyStr.before_char "?" (PyStr.replace bitbucket_api_url "" (bitbucket_api_url ++ e)) = e.
Proof.
  intros Hq Hapi. rewrite replace_prefix by done. rewrite append_nil.
  rewrite replace_absent by done. by apply before_char_absent.
Qed.

End EndpointRoundTrip.

(** An endpoint that holds the API base URL is not read back: [replace]
    takes every occurrence away. *)
Example endpoint_with_api_url :
  Path.split_url (bb_endpoint_to_full_url "users/https://api.bitbucket.org/2.0/x")
    = ("users/x", []).
Proof. vm_compute. reflexivity. Qed.

(** ** A comment thread, from its page files and back

    The part of the export that reorders one thread: the loop that loads
    the comments of the thread from its page files, following [next]; the
    placement and flattening above; and the loop that writes the reordered
    comments back to the same files, a hundred to a file. *)

Module Thread.
Import Comments.

(** A page file as the loops read it: the keys [values], [next] and [size],
    each of which may be missing ([next], when there, is a path), and the
    rest of the document. *)
Record comment_data : Type := {
  values : option (list comment);
  next : option string;
  size : option Z;
  others : string;
}.

Abbreviation store := (gmap string comment_data).

(** [open(path, 'r')] and [json.load]: there is no file of the empty path. *)
Definition open_file (files : store) (path : string) : option comment_data :=
  match path with
  | EmptyString => None
  | String _ _ => files !! path
  end.

(** The truth value of a path: the empty string ends the loop as [None]
    does. *)
Definition truthy (path : string) : bool :=
  match path with
  | EmptyString => false
  | String _ _ => true
  end.

Inductive error : Type :=
| FileNotFoundError
| KeyError.

Inductive loaded : Type :=
| Loaded (comment_files : list string) (comments : list comment)
| LoadRaised (e : error)
| LoadUnfinished.

(** [while pull_request_file: ...]; [fuel] bounds the number of files
    opened. *)
Fixpoint load (fuel : nat) (files : store) (pull_request_file : string)
    (comment_files : list string) (comments : list comment) : loaded :=
  if truthy pull_request_file then
    match fuel with
    | O => LoadUnfinished
    | S fuel' =>
        match open_file files pull_request_file with
        | None => LoadRaised FileNotFoundError
        | Some data =>
            let comments := comments ++ default [] (values data) in
            match next data with
            | Some n => load fuel' files n (comment_files ++ [n]) comments
            | None => Loaded comment_files comments
            end
        end
    end
  else Loaded comment_files comments.

(** However the write-back ends, the files as it leaves them. *)
Inductive written : Type :=
| Written (files : store)
| WriteRaised (e : error) (files : store).

(** [for i, pull_request_file in enumerate(comment_files): ...], from
    index [i] on. *)
Fixpoint write_pages (i : nat) (comment_files : list string)
    (reordered_comments : list comment) (files : store) : written :=
  match comment_files with
  | [] => Written files
  | pull_request_file :: comment_files' =>
      match open_file files pull_request_file with
      | None => WriteRaised FileNotFoundError files
      | Some data =>
          match size data with
          | None => WriteRaised KeyError files
          | Some _ =>
              write_pages (S i) comment_files' reordered_comments
                (<[pull_request_file :=
                     {| values := Some (page i reordered_comments);
                        next := next data; size := size data; others := others data |}]>
                   files)
          end
      end
  end.

Inductive outcome : Type :=
| Reordered (files : store)
| Raised (e : error) (files : store)
| Unfinished.

(** One thread, from the first of its page files. *)
Definition reorder_thread (fuel : nat) (files : store) (pull_request_file : string)
    : outcome :=
  match load fuel files pull_request_file [pull_request_file] [] with
  | Loaded comment_files comments =>
      match reconstruct fuel comments with
      | Some reordered_comments =>
          match write_pages 0 comment_files reordered_comments files with
          | Written files' => Reordered files'
          | WriteRaised e files' => Raised e files'
          end
      | None => Unfinished
      end
  | LoadRaised e => Raised e files
  | LoadUnfinished => Unfinished
  end.

(** The comments a file holds. *)
Definition file_values (files : store) (path : string) : list comment :=
  default [] (open_file files path ≫= values).

End Thread.

Section ThreadFacts.
Import Comments Thread.

Variable files : store.

(** What a run of the loading loop adds to the lists it was given. *)
Definition extends (r : loaded) (comment_files : list string) (comments : list comment)
    (r' : loaded) : Prop :=
  match r with
  | Loaded a b => r' = Loaded (comment_files ++ a) (comments ++ b)
  | LoadRaised e => r' = LoadRaised e
  | LoadUnfinished => r' = LoadUnfinished
  end.

Lemma load_extends (fuel : nat) (f : string) (cf : list string) (cs : list comment) :
  extends (load fuel files f [] []) cf cs (load fuel files f cf cs).
Proof.
  revert f cf cs. induction fuel as [|fuel IH]; intros f cf cs; cbn [load].
  - destruct (truthy f); cbn; [done|]. by rewrite !app_nil_r.
  - destruct (truthy f); cbn; [|by rewrite !app_nil_r].
    destruct (open_file files f) as [data|]; cbn; [|done].
    destruct (next data) as [n|]; cbn; [|by rewrite app_nil_r].
    pose proof (IH n (cf ++ [n]) (cs ++ default [] (values data))) as H1.
    pose proof (IH n [n] (default [] (values data))) as H2.
    destruct (load fuel files n [] []) as [a b| |]; cbn in *.
    + rewrite H2, H1. cbn. by rewrite <- !app_assoc.
    + by rewrite H2, H1.
    + by rewrite H2, H1.
Qed.

(** The files after [f] and the comments from [f] on, when the loop ends
    within [fuel]. *)
Definition chain (fuel : nat) (f : string) (a : list string) (b : list comment) : Prop :=
  load fuel files f [] [] = Loaded a b.

Lemma chain_step (fuel : nat) (f n : string) (data : comment_data)
    (a : list string) (b : list comment) :
  truthy f = true → open_file files f = Some data → next data = Some n →
  chain fuel n a b →
  chain (S fuel) f (n :: a) (default [] (values data) ++ b).
Proof.
  intros Hf Hopen Hnext Hn. unfold chain in *. cbn [load]. rewrite Hf, Hopen, Hnext.
  pose proof (load_extends fuel n ([] ++ [n]) ([] ++ default [] (values data))) as H.
  rewrite Hn in H. exact H.
Qed.

(** The cases of a run that ends. *)
Lemma chain_inv (fuel : nat) (f : string) (a : list string) (b : list comment) :
  chain fuel f a b →
  (truthy f = false ∧ a = [] ∧ b = [])
  ∨ (∃ data, truthy f = true ∧ open_file files f = Some data ∧ next data = None
       ∧ a = [] ∧ b = default [] (values data))
  ∨ (∃ fuel' data n a' b', fuel = S fuel' ∧ truthy f = true
       ∧ open_file files f = Some data ∧ next data = Some n
       ∧ chain fuel' n a' b' ∧ a = n :: a' ∧ b = default [] (values data) ++ b').
Proof.
  unfold chain. destruct fuel as [|fuel]; cbn [load].
  - destruct (truthy f); [done|]. intros [= <- <-]. by left.
  - destruct (truthy f); [|intros [= <- <-]; by left].
    destruct (open_file files f) as [data|] eqn:Hopen; [|done].
    destruct (next data) as [n|] eqn:Hnext.
    + intros Hrun. right. right.
      pose proof (load_extends fuel n ([] ++ [n]) ([] ++ default [] (values data))) as H.
      rewrite Hrun in H.
      destruct (load fuel files n [] []) as [a' b'| |] eqn:Hn; cbn in H; [|done|done].
      injection H as -> ->. by exists fuel, data, n, a', b'.
    + intros [= <- <-]. right. left. by exists data.
Qed.

(** More fuel changes nothing for a run that ends. *)
Lemma chain_more_fuel (fuel : nat) (f : string) (a : list string) (b : list comment) :
  chain fuel f a b → chain (S fuel) f a b.
Proof.
  revert f a b. induction fuel as [|fuel IH]; intros f a b Hrun.
  - unfold chain in *. cbn [load] in *. by destruct (truthy f).
  - destruct (chain_inv _ _ _ _ Hrun)
      as [(Hf & -> & ->)|[(data & Hf & Hopen & Hnext & -> & ->)
         |(fuel' & data & n & a' & b' & [= <-] & Hf & Hopen & Hnext & Hn & -> & ->)]].
    + unfold chain. cbn [load]. by rewrite Hf.
    + unfold chain. cbn [load]. by rewrite Hf, Hopen, Hnext.
    + by apply chain_step, IH.
Qed.

(** From any file of the run on, the run is the rest of the run. *)
Lemma chain_from (fuel : nat) (f g : string) (a : list string) (b : list comment) :
  chain fuel f a b → g ∈ a →
  ∃ a1 a2 b2, a = a1 ++ g :: a2 ∧ chain fuel g a2 b2.
Proof.
  revert f a b. induction fuel as [|fuel IH]; intros f a b Hrun Hg.
  - destruct (chain_inv _ _ _ _ Hrun)
      as [(_ & -> & _)|[(data & _ & _ & _ & -> & _)|(? & ? & ? & ? & ? & ? & _)]];
      [by apply elem_of_nil in Hg|by apply elem_of_nil in Hg|done].
  - destruct (chain_inv _ _ _ _ Hrun)
      as [(_ & -> & _)|[(data & _ & _ & _ & -> & _)
         |(fuel' & data & n & a' & b' & [= <-] & Hf & Hopen & Hnext & Hn & -> & ->)]];
      [by apply elem_of_nil in Hg|by apply elem_of_nil in Hg|].
    apply elem_of_cons in Hg as [->|Hg].
    + exists [], a', b'. split; [done|]. by apply chain_more_fuel.
    + destruct (IH n a' b' Hn Hg) as (a1 & a2 & b2 & -> & Hg2).
      exists (n :: a1), a2, b2. split; [done|]. by apply chain_more_fuel.
Qed.

(** A run that ends opens no file twice. *)
Lemma chain_NoDup (fuel : nat) (f : string) (a : list string) (b : list comment) :
  chain fuel f a b → (f ∉ a) ∧ NoDup a.
Proof.
  revert f a b. induction fuel as [|fuel IH]; intros f a b Hrun.
  - destruct (chain_inv _ _ _ _ Hrun)
      as [(_ & -> & _)|[(data & _ & _ & _ & -> & _)|(? & ? & ? & ? & ? & ? & _)]];
      [| |done]; (split; [by intros ?%elem_of_nil | constructor]).
  - assert (Hnotin : f ∉ a).
    { intros Hin. destruct (chain_from _ _ _ _ _ Hrun Hin) as (a1 & a2 & b2 & Ha & Hf).
      unfold chain in *. rewrite Hrun in Hf. injection Hf as Ha2 _.
      apply (f_equal length) in Ha. rewrite length_app in Ha. cbn in Ha.
      rewrite <- Ha2 in Ha. lia. }
    split; [done|].
    destruct (chain_inv _ _ _ _ Hrun)
      as [(_ & -> & _)|[(data & _ & _ & _ & -> & _)
         |(fuel' & data & n & a' & b' & [= <-] & Hf & Hopen & Hnext & Hn & -> & ->)]];
      [constructor|constructor|].
    destruct (IH n a' b' Hn) as [Hn' Hnd]. by constructor.
Qed.

(** The comments of a run are those of its files, in the order of the
    files. *)
Lemma chain_values (fuel : nat) (f : string) (a : list string) (b : list comment) :
  chain fuel f a b → b = concat (map (file_values files) (f :: a)).
Proof.
  revert f a b. induction fuel as [|fuel IH]; intros f a b Hrun;
    destruct (chain_inv _ _ _ _ Hrun)
      as [(Hf & -> & ->)|[(data & Hf & Hopen & Hnext & -> & ->)
         |(fuel' & data & n & a' & b' & Hfuel & Hf & Hopen & Hnext & Hn & -> & ->)]];
    try done.
  - by destruct f.
  - cbn. unfold file_values. rewrite Hopen. cbn. by rewrite app_nil_r.
  - by destruct f.
  - cbn. unfold file_values. rewrite Hopen. cbn. by rewrite app_nil_r.
  - injection Hfuel as <-. rewrite (IH n a' b' Hn). cbn.
    unfold file_values at 3. by rewrite Hopen.
Qed.

(** Every file of a run but the last has been opened. *)
Lemma chain_opened (fuel : nat) (f : string) (a : list string) (b : list comment) :
  chain fuel f a b → truthy f = true →
  ∀ g, g ∈ removelast (f :: a) → is_Some (open_file files g).
Proof.
  revert f a b. induction fuel as [|fuel IH]; intros f a b Hrun Hf;
    destruct (chain_inv _ _ _ _ Hrun)
      as [(Hf' & -> & ->)|[(data & _ & Hopen & Hnext & -> & ->)
         |(fuel' & data & n & a' & b' & Hfuel & _ & Hopen & Hnext & Hn & -> & ->)]];
    try congruence; try (by intros g ?%elem_of_nil).
  injection Hfuel as <-. intros g. cbn [removelast].
  intros [->|Hg]%elem_of_cons; [by eexists|].
  destruct (truthy n) eqn:Htn; [by apply (IH n a' b' Hn Htn)|].
  destruct (chain_inv _ _ _ _ Hn)
    as [(_ & -> & _)|[(? & ? & _)|(? & ? & ? & ? & ? & _ & ? & _)]]; try congruence.
  by apply elem_of_nil in Hg.
Qed.

(** The page file [data] with the comments [l] for its [values]. *)
Definition with_values (l : list comment) (data : comment_data) : comment_data :=
  {| values := Some l; next := next data; size := size data; others := others data |}.

(** The files as a write-back leaves them, however it ends. *)
Definition left_by (w : written) : store :=
  match w with
  | Written files' => files'
  | WriteRaised _ files' => files'
  end.

Lemma open_file_insert_ne (st : store) (f g : string) (data : comment_data) :
  f ≠ g → open_file (<[f := data]> st) g = open_file st g.
Proof. intros Hne. destruct g; [done|]. cbn. by rewrite lookup_insert_ne. Qed.

Lemma open_file_lookup (st : store) (f : string) (data : comment_data) :
  open_file st f = Some data → st !! f = Some data.
Proof. by destruct f. Qed.

(** The write-back touches the files of its list only. *)
Lemma write_pages_other (cf : list string) (r : list comment) (g : string) :
  g ∉ cf → ∀ i st, left_by (write_pages i cf r st) !! g = st !! g.
Proof.
  induction cf as [|f cf IH]; intros Hg i st; cbn [write_pages]; [done|].
  apply not_elem_of_cons in Hg as [Hne Hg].
  destruct (open_file st f) as [data|]; [|done].
  destruct (size data); [|done].
  rewrite (IH Hg). by rewrite lookup_insert_ne.
Qed.

(** Over distinct files that are all there with their [size], the
    write-back ends, and each file holds its page. *)
Lemma write_pages_written (cf : list string) (r : list comment) :
  NoDup cf →
  ∀ i st,
    (∀ f, f ∈ cf → ∃ data, open_file st f = Some data ∧ is_Some (size data)) →
    ∃ st', write_pages i cf r st = Written st'
         ∧ ∀ j f, cf !! j = Some f →
             ∃ data, open_file st f = Some data
                   ∧ st' !! f = Some (with_values (page (i + j) r) data).
Proof.
  induction 1 as [|f cf Hf Hnd IH]; intros i st Hall; cbn [write_pages].
  - exists st. split; [done|]. by intros j f ?.
  - destruct (Hall f) as (data & Hopen & [z Hz]); [by left|].
    rewrite Hopen, Hz.
    set (st1 := <[f := _]> st).
    destruct (IH (S i) st1) as (st' & Hrun & Hpages).
    { intros g Hg. destruct (Hall g) as (dg & Hdg & Hsz); [by right|].
      exists dg. split; [|done]. rewrite <- Hdg. apply open_file_insert_ne.
      by intros ->. }
    exists st'. split; [done|]. intros [|j] g Hj; cbn in Hj.
    + injection Hj as <-. exists data. split; [done|].
      pose proof (write_pages_other cf r f Hf (S i) st1) as Hkeep.
      rewrite Hrun in Hkeep. cbn in Hkeep. rewrite Hkeep. unfold st1.
      rewrite lookup_insert_eq, Nat.add_0_r. unfold with_values. by rewrite Hz.
    + destruct (Hpages j g Hj) as (dg & Hdg & Hg). exists dg.
      assert (f ≠ g) by (intros ->; apply Hf; by eapply list_elem_of_lookup_2).
      split; [rewrite <- Hdg; symmetry; by apply open_file_insert_ne|].
      by replace (i + S j)%nat with (S i + j)%nat by lia.
Qed.

Lemma write_pages_app (pre post : list string) (r : list comment) :
  ∀ i st,
    write_pages i (pre ++ post) r st =
      match write_pages i pre r st with
      | Written st1 => write_pages (i + length pre) post r st1
      | WriteRaised e st1 => WriteRaised e st1
      end.
Proof.
  induction pre as [|f pre IH]; intros i st; cbn [write_pages app length].
  - by rewrite Nat.add_0_r.
  - destruct (open_file st f) as [data|]; [|done].
    destruct (size data); [|done].
    rewrite IH. by replace (S i + length pre)%nat with (i + S (length pre))%nat by lia.
Qed.

(** The pages of [k] files, one after the other. *)
Lemma concat_pages (k : nat) (r : list comment) :
  concat (map (λ i, page i r) (seq 0 k)) = take (k * 100) r.
Proof.
  induction k as [|k IH]; [done|].
  rewrite seq_S, map_app, concat_app, IH. cbn [map concat plus].
  rewrite app_nil_r. unfold page. rewrite take_take_drop. f_equal. lia.
Qed.

Lemma file_values_written (st' : store) (f : string) (l : list comment)
    (data : comment_data) :
  truthy f = true → st' !! f = Some (with_values l data) → file_values st' f = l.
Proof. intros Hf Hst. unfold file_values. destruct f; [done|]. cbn. by rewrite Hst. Qed.

End ThreadFacts.

Section ThreadRuns.
Import Comments Thread.

Lemma load_chain (fuel : nat) (files : store) (first : string)
    (comment_files : list string) (comments : list comment) :
  load fuel files first [first] [] = Loaded comment_files comments →
  ∃ rest, comment_files = first :: rest ∧ chain files fuel first rest comments.
Proof.
  intros Hrun. pose proof (load_extends files fuel first [first] []) as H.
  rewrite Hrun in H. unfold chain.
  destruct (load fuel files first [] []) as [a b| |]; cbn in H; [|done|done].
  injection H as -> ->. by exists a.
Qed.

Lemma chain_load (fuel : nat) (files : store) (first : string)
    (rest : list string) (comments : list comment) :
  chain files fuel first rest comments →
  load fuel files first [first] [] = Loaded (first :: rest) comments.
Proof.
  intros Hrun. pose proof (load_extends files fuel first [first] []) as H.
  unfold chain in Hrun. rewrite Hrun in H. exact H.
Qed.

Lemma length_concat_le {A} (ls : list (list A)) (n : nat) :
  Forall (λ l, (length l ≤ n)%nat) ls → (length (concat ls) ≤ length ls * n)%nat.
Proof.
  induction 1 as [|l ls Hl _ IH]; cbn; [done|]. rewrite length_app. lia.
Qed.

(** What placement and flattening return holds the comments it was given,
    each once. *)
Lemma reconstruct_same_comments (comments : list comment) (fuel : nat) :
  NoDup (map id comments) →
  (∀ c, c ∈ comments → satisfiable comments c) →
  (length comments < fuel)%nat →
  ∃ reordered,
    reconstruct fuel comments = Some reordered
    ∧ length reordered = length comments
    ∧ map id reordered ≡ₚ map id comments.
Proof.
  intros Hids Hsat Hfuel.
  destruct (reconstruct_annotate comments fuel Hids Hsat Hfuel)
    as (G & Hrun & Hnd & Hpar & Hall).
  assert (Hlt : ∀ x, x ∈ preorder G → (x < length comments)%nat)
    by (intros x; by apply parented_lt with (po := None)).
  assert (Hperm : preorder G ≡ₚ seq 0 (length comments)).
  { apply NoDup_Permutation; [done|apply NoDup_seq|].
    intros x. rewrite elem_of_seq. split; [intros ?%Hlt; lia|intros ?; apply Hall; lia]. }
  assert (Hids' : map id (annotate comments 0 G) = map (id_at comments) (preorder G))
    by (by apply annotate_ids).
  exists (annotate comments 0 G). split; [done|]. split.
  - by rewrite <- (length_map id), Hids', length_map, Hperm, length_seq.
  - rewrite Hids', <- ids_of_all. by apply Permutation_map.
Qed.

End ThreadRuns.

(** X19. When the loop that loads a thread ends, it has opened no file
    twice (a chain of [next] that comes back to one of its files never
    ends); the files are listed from the first one on, in the order of
    the chain; the comments are the [values] of these files, in that
    order; and a larger bound on the number of files gives the same
    result. *)
Theorem thread_files_are_opened_once (fuel : nat) (files : Thread.store) (first : string)
    (comment_files : list string) (comments : list Comments.comment) :
  Thread.load fuel files first [first] [] = Thread.Loaded comment_files comments →
  NoDup comment_files
  ∧ head comment_files = Some first
  ∧ comments = concat (map (Thread.file_values files) comment_files)
  ∧ Thread.load (S fuel) files first [first] [] = Thread.Loaded comment_files comments.
Proof.
  intros Hrun. destruct (load_chain _ _ _ _ _ Hrun) as (rest & -> & Hchain).
  destruct (chain_NoDup _ _ _ _ _ Hchain) as [Hfirst Hnd].
  split; [by constructor|]. split; [done|]. split.
  - by eapply chain_values.
  - by apply chain_load, chain_more_fuel.
Qed.

(** A thread of two page files; the first one holds a reply before the
    comment it replies to. *)
Definition thread_page (l : list Comments.comment) (next : option string)
    : Thread.comment_data :=
  {| Thread.values := Some l; Thread.next := next; Thread.size := Some 5%Z;
     Thread.others := "pagelen" |}.

Definition thread_files : Thread.store :=
  {[ "comments_page=1.json" :=
       thread_page [reply_comment 2 1; root_comment 1; reply_comment 3 1]
         (Some "comments_page=2.json");
     "comments_page=2.json" :=
       thread_page [reply_comment 4 2; reply_comment 5 3] None ]}.

Lemma thread_files_load :
  Thread.load 6 thread_files "comments_page=1.json" ["comments_page=1.json"] [] =
    Thread.Loaded ["comments_page=1.json"; "comments_page=2.json"] late_parent_thread.
Proof. vm_compute. reflexivity. Qed.

Lemma thread_files_are_opened_once_witness :
  NoDup ["comments_page=1.json"; "comments_page=2.json"]
  ∧ head ["comments_page=1.json"; "comments_page=2.json"] = Some "comments_page=1.json"
  ∧ late_parent_thread =
      concat (map (Thread.file_values thread_files)
                ["comments_page=1.json"; "comments_page=2.json"])
  ∧ Thread.load 7 thread_files "comments_page=1.json" ["comments_page=1.json"] [] =
      Thread.Loaded ["comments_page=1.json"; "comments_page=2.json"] late_parent_thread.
Proof.
  exact (thread_files_are_opened_once 6 thread_files "comments_page=1.json"
           ["comments_page=1.json"; "comments_page=2.json"] late_parent_thread
           thread_files_load).
Defined.

(** A page file whose [next] is the file itself: the loop does not end. *)
Example page_that_is_its_own_next :
  Thread.load 50 {[ "comments.json" := thread_page [] (Some "comments.json") ]}
    "comments.json" ["comments.json"] [] = Thread.LoadUnfinished.
Proof. vm_compute. reflexivity. Qed.

(** X20. No comment is lost between the page files and back: when the
    loading of a thread ends with files that each hold at most 100
    comments and a [size], and the comments have distinct ids and parents
    that can be placed, the thread is reordered and written back; the
    [values] of the files, read in the order of the files, are then the
    reordered comments, as many as were loaded and with the same ids; each
    file keeps its [next], its [size] and the rest of its document; and no
    other file is touched. *)
Theorem thread_is_written_back_whole (fuel : nat) (files : Thread.store) (first : string)
    (comment_files : list string) (comments : list Comments.comment) :
  Thread.load fuel files first [first] [] = Thread.Loaded comment_files comments →
  (∀ f, f ∈ comment_files →
     ∃ data, Thread.open_file files f = Some data
           ∧ is_Some (Thread.size data)
           ∧ (length (default [] (Thread.values data)) ≤ 100)%nat) →
  NoDup (map Comments.id comments) →
  (∀ c, c ∈ comments → satisfiable comments c) →
  (length comments < fuel)%nat →
  ∃ reordered files',
    Comments.reconstruct fuel comments = Some reordered
    ∧ Thread.reorder_thread fuel files first = Thread.Reordered files'
    ∧ concat (map (Thread.file_values files') comment_files) = reordered
    ∧ length reordered = length comments
    ∧ map Comments.id reordered ≡ₚ map Comments.id comments
    ∧ (∀ f, f ∈ comment_files →
         ∃ data l, files !! f = Some data
                 ∧ files' !! f =
                     Some {| Thread.values := Some l; Thread.next := Thread.next data;
                             Thread.size := Thread.size data;
                             Thread.others := Thread.others data |})
    ∧ (∀ g, g ∉ comment_files → files' !! g = files !! g).
Proof.
  intros Hload Hall Hids Hsat Hfuel.
  destruct (load_chain _ _ _ _ _ Hload) as (rest & Hcf & Hchain).
  assert (Hnd : NoDup comment_files).
  { rewrite Hcf. destruct (chain_NoDup _ _ _ _ _ Hchain). by constructor. }
  destruct (reconstruct_same_comments comments fuel Hids Hsat Hfuel)
    as (reordered & Hrec & Hlen & Hperm).
  destruct (write_pages_written comment_files reordered Hnd 0 files)
    as (files' & Hwrite & Hpages).
  { intros f Hf. destruct (Hall f Hf) as (data & Hopen & Hsize & _). by exists data. }
  exists reordered, files'. split; [done|]. split.
  { unfold Thread.reorder_thread. by rewrite Hload, Hrec, Hwrite. }
  assert (Hvalues : map (Thread.file_values files') comment_files =
                    map (λ i, Comments.page i reordered) (seq 0 (length comment_files))).
  { apply list_eq. intros j. change (map ?f ?l) with (f <$> l).
    rewrite !list_lookup_fmap.
    destruct (comment_files !! j) as [f|] eqn:Hj.
    - rewrite (lookup_seq_lt 0) by (by eapply lookup_lt_Some). cbn. f_equal.
      destruct (Hpages j f Hj) as (data & Hopen & Hf).
      apply (file_values_written files' f _ data); [|done].
      by destruct f.
    - rewrite lookup_seq_ge; [done|]. by apply lookup_ge_None. }
  split.
  { rewrite Hvalues, concat_pages. apply take_ge. rewrite Hlen.
    rewrite (chain_values _ _ _ _ _ Hchain), <- Hcf.
    etrans; [apply (length_concat_le _ 100)|by rewrite length_map].
    apply Forall_forall. intros l [f [-> Hf]]%list_elem_of_fmap.
    destruct (Hall f Hf) as (data & Hopen & _ & Hle).
    unfold Thread.file_values. by rewrite Hopen. }
  split; [done|]. split; [done|]. split.
  - intros f [j Hj]%list_elem_of_lookup.
    destruct (Hpages j f Hj) as (data & Hopen & Hf).
    exists data, (Comments.page (0 + j) reordered). split; [|done].
    by apply open_file_lookup.
  - intros g Hg. pose proof (write_pages_other comment_files reordered g Hg 0 files) as H.
    by rewrite Hwrite in H.
Qed.

Lemma thread_is_written_back_whole_witness :
  ∃ reordered files',
    Comments.reconstruct 6 late_parent_thread = Some reordered
    ∧ Thread.reorder_thread 6 thread_files "comments_page=1.json" = Thread.Reordered files'
    ∧ concat (map (Thread.file_values files')
                ["comments_page=1.json"; "comments_page=2.json"]) = reordered
    ∧ length reordered = length late_parent_thread
    ∧ map Comments.id reordered ≡ₚ map Comments.id late_parent_thread
    ∧ (∀ f, f ∈ ["comments_page=1.json"; "comments_page=2.json"] →
         ∃ data l, thread_files !! f = Some data
                 ∧ files' !! f =
                     Some {| Thread.values := Some l; Thread.next := Thread.next data;
                             Thread.size := Thread.size data;
                             Thread.others := Thread.others data |})
    ∧ (∀ g, g ∉ ["comments_page=1.json"; "comments_page=2.json"] →
         files' !! g = thread_files !! g).
Proof.
  apply (thread_is_written_back_whole 6 thread_files "comments_page=1.json"
           ["comments_page=1.json"; "comments_page=2.json"] late_parent_thread).
  - exact thread_files_load.
  - intros f Hf.
    apply elem_of_cons in Hf as [->|Hf]; [|apply elem_of_cons in Hf as [->|Hf]].
    + eexists. split; [vm_compute; reflexivity|]. split; [by eexists|]. cbn. lia.
    + eexists. split; [vm_compute; reflexivity|]. split; [by eexists|]. cbn. lia.
    + by apply elem_of_nil in Hf.
  - apply (bool_decide_unpack _). vm_compute. exact I.
  - apply late_parent_thread_satisfiable.
  - cbn. lia.
Defined.

(** The two files of the example after the write-back: the comments in
    depth-first order, all in the first file (five are fewer than 100),
    and none left in the second. *)
Example thread_files_reordered :
  match Thread.reorder_thread 6 thread_files "comments_page=1.json" with
  | Thread.Reordered files' =>
      map (λ f, map Comments.id (Thread.file_values files' f))
        ["comments_page=1.json"; "comments_page=2.json"]
  | _ => []
  end = [[1; 3; 5; 2; 4]%Z; []].
Proof. vm_compute. reflexivity. Qed.

(** X21. A page file without [size] stops the write-back half way: when
    the files before it are distinct and have their [size], the loop
    raises [KeyError] at that file, after it has written their pages to
    the files before it; that file, the files after it and every other
    file are as they were, so the thread is left partly in the new order
    and partly in the old one. *)
Theorem write_back_stops_at_file_without_size (pre post : list string) (f : string)
    (data : Thread.comment_data) (reordered : list Comments.comment)
    (files : Thread.store) :
  NoDup (pre ++ f :: post) →
  (∀ g, g ∈ pre →
     ∃ d, Thread.open_file files g = Some d ∧ is_Some (Thread.size d)) →
  Thread.open_file files f = Some data →
  Thread.size data = None →
  ∃ files',
    Thread.write_pages 0 (pre ++ f :: post) reordered files
      = Thread.WriteRaised Thread.KeyError files'
    ∧ (∀ j g, pre !! j = Some g →
         Thread.file_values files' g = Comments.page j reordered)
    ∧ (∀ g, g ∉ pre → files' !! g = files !! g).
Proof.
  intros Hnd Hpre Hopen Hsize.
  apply NoDup_app in Hnd as (Hndpre & Hdisj & _).
  destruct (write_pages_written pre reordered Hndpre 0 files Hpre)
    as (files1 & Hwrite & Hpages).
  assert (Hother : ∀ g, g ∉ pre → files1 !! g = files !! g).
  { intros g Hg. pose proof (write_pages_other pre reordered g Hg 0 files) as H.
    by rewrite Hwrite in H. }
  assert (Hf : Thread.open_file files1 f = Some data).
  { destruct f as [|a f]; [done|]. cbn in *. rewrite Hother; [done|].
    intros Hin. apply (Hdisj _ Hin). by left. }
  exists files1. split; [|split; [|done]].
  - rewrite write_pages_app, Hwrite. cbn [Thread.write_pages]. by rewrite Hf, Hsize.
  - intros j g Hj. destruct (Hpages j g Hj) as (d & Hd & Hg).
    apply (file_values_written files1 g _ d); [|done]. by destruct g.
Qed.

(** The two files of the thread, the second one without its [size]. *)
Definition thread_files_without_size : Thread.store :=
  <["comments_page=2.json" :=
      {| Thread.values := Some [reply_comment 4 2; reply_comment 5 3];
         Thread.next := None; Thread.size := None; Thread.others := "pagelen" |}]>
    thread_files.

Lemma write_back_stops_at_file_without_size_witness :
  ∃ files',
    Thread.write_pages 0 (["comments_page=1.json"] ++ "comments_page=2.json" :: [])
      [root_comment 1; reply_comment 3 1; reply_comment 5 3; reply_comment 2 1;
       reply_comment 4 2] thread_files_without_size
      = Thread.WriteRaised Thread.KeyError files'
    ∧ (∀ j g, ["comments_page=1.json"] !! j = Some g →
         Thread.file_values files' g =
           Comments.page j [root_comment 1; reply_comment 3 1; reply_comment 5 3;
                            reply_comment 2 1; reply_comment 4 2])
    ∧ (∀ g, g ∉ ["comments_page=1.json"] → files' !! g = thread_files_without_size !! g).
Proof.
  apply (write_back_stops_at_file_without_size ["comments_page=1.json"] []
           "comments_page=2.json"
           {| Thread.values := Some [reply_comment 4 2; reply_comment 5 3];
              Thread.next := None; Thread.size := None; Thread.others := "pagelen" |}).
  - apply (bool_decide_unpack _). vm_compute. exact I.
  - intros g Hg. apply elem_of_cons in Hg as [->|Hg]; [|by apply elem_of_nil in Hg].
    eexists. split; [vm_compute; reflexivity|]. by eexists.
  - vm_compute. reflexivity.
  - reflexivity.
Defined.

(** After that failure the first file holds all five comments and the
    second still holds 4 and 5: they are in the thread twice. *)
Example thread_left_half_written :
  map (λ f, map Comments.id
              (Thread.file_values
                 (left_by (Thread.write_pages 0
                             ["comments_page=1.json"; "comments_page=2.json"]
                             [root_comment 1; reply_comment 3 1; reply_comment 5 3;
                              reply_comment 2 1; reply_comment 4 2]
                             thread_files_without_size)) f))
    ["comments_page=1.json"; "comments_page=2.json"]
  = [[1; 3; 5; 2; 4]%Z; [4; 5]%Z].
Proof. vm_compute. reflexivity. Qed.

(** ** The malformed-link step of the rewriter, on any body *)











Section ReFacts.
Context {R : Type}.
Implicit Types (r : Re.regex) (s a w pre post : string) (cs : Re.caps)
  (k : string → Re.caps → option R).









End ReFacts.

Section LinkMatch.
Context {R : Type}.
Implicit Types (s a w pre post owner repo rest : string) (cs : Re.caps)
  (k : string → Re.caps → option R).








End LinkMatch.


Section LinkSub.
Implicit Types (r : Re.regex) (s a w pre post owner repo rest : string) (cs : Re.caps).





End LinkSub.


Section RewriterOnBodies.
Import Rewriter.







End RewriterOnBodies.

Section RewriterOnLinks.
Import Rewriter.




End RewriterOnLinks.


(** The two escaped links of the running example, through the whole
    rewriter. *)
Example escaped_links_of_widget :
  rewrite_widget_json [] (body_escaped "https://api.bitbucket.org/acme/widget") =
    Rewriter.Done (body_escaped "#!/acme/widget")
  ∧ rewrite_widget_json [] (body_escaped "https://api.bitbucket.org/acme/widget/issues/3") =
      Rewriter.Done (body_escaped "#!/acme/widget/issues/3").
Proof. vm_compute. split; reflexivity. Qed.

(** ** The ignore rules of [__backup_api] *)

Section IgnoreRules.

Lemma startswith_longer (p s : string) :
  (PyStr.len s < PyStr.len p)%nat → PyStr.startswith p s = false.
Proof.
  unfold PyStr.len. revert s. induction p as [|c p IH]; intros s; cbn; [lia|].
  destruct s as [|d s]; [done|]. cbn. intros H.
  destruct (Ascii.eqb c d); [apply IH; lia|done].
Qed.

Lemma contains_longer (p s : string) :
  (PyStr.len s < PyStr.len p)%nat → PyStr.contains p s = false.
Proof.
  induction s as [|d s IH]; intros H; cbn [PyStr.contains].
  - by rewrite startswith_longer.
  - rewrite startswith_longer by done. apply IH.
    unfold PyStr.len in *. cbn in H. lia.
Qed.

(** The last character of a string. *)
Fixpoint last_char (s : string) : option ascii :=
  match s with
  | EmptyString => None
  | String c EmptyString => Some c
  | String _ s' => last_char s'
  end.

Lemma last_char_app (a : string) (c : ascii) :
  last_char (a ++ String c EmptyString) = Some c.
Proof.
  induction a as [|d a IH]; [done|]. rewrite append_cons.
  cbn [last_char]. rewrite IH. by destruct (a ++ String c EmptyString)%string.
Qed.

Lemma last_char_drop (n : nat) (s : string) :
  PyStr.drop n s ≠ EmptyString → last_char (PyStr.drop n s) = last_char s.
Proof.
  revert s. induction n as [|n IH]; intros s; [done|].
  destruct s as [|c s]; [done|]. cbn [PyStr.drop]. intros H.
  rewrite (IH s H). cbn [last_char]. destruct s; [|done].
  by destruct n.
Qed.

(** A string does not end with a suffix whose last character is another. *)
Lemma endswith_other_last (p s : string) (c d : ascii) :
  last_char p = Some c → last_char s = Some d → c ≠ d → PyStr.endswith p s = false.
Proof.
  intros Hp Hs Hne. unfold PyStr.endswith.
  destruct (PyStr.len p <=? PyStr.len s)%nat; [|done]. cbn.
  destruct (String.eqb_spec (PyStr.drop (PyStr.len s - PyStr.len p) s) p) as [Heq|]; [|done].
  assert (Hdrop : PyStr.drop (PyStr.len s - PyStr.len p) s ≠ EmptyString).
  { rewrite Heq. by destruct p. }
  apply last_char_drop in Hdrop. rewrite Heq in Hdrop. congruence.
Qed.

End IgnoreRules.

(** X1. With the ignore rules [__backup_api] declares, the loop over the
    rules skips a reference exactly when one of the rules applies to it:
    the reference holds one of the five excluded paths of the repository,
    or does not start with the path of the repository, or starts with
    one of the three excluded prefixes, or ends with one of the five
    action names; the order of the rules plays no part.  So a reference
    that is followed starts with [repositories/owner/repo].  That is a
    test of the first characters, with no slash after the name of the
    repository: the endpoint of a repository of the same owner whose name
    is this name and more, [repositories/owner/repo2], is followed too. *)
Theorem declared_ignore_rules_skip (owner repo : string) :
  (∀ result,
     Crawler.skipped (Crawler.ignore_rules_of owner repo) result false =
       PyStr.contains (Rewrite.repo_prefix owner repo ++ "/patch") result
       || PyStr.contains (Rewrite.repo_prefix owner repo ++ "/diff") result
       || PyStr.contains (Rewrite.repo_prefix owner repo ++ "/src") result
       || PyStr.contains (Rewrite.repo_prefix owner repo ++ "/filehistory") result
       || PyStr.contains (Rewrite.repo_prefix owner repo ++ "/downloads") result
       || negb (PyStr.startswith (Rewrite.repo_prefix owner repo) result)
       || PyStr.startswith (Rewrite.repo_prefix owner repo ++ "/issues/import") result
       || PyStr.startswith (Rewrite.repo_prefix owner repo ++ "/issues/export") result
       || PyStr.startswith (Rewrite.repo_prefix owner repo ++ "/hooks") result
       || PyStr.endswith "/approve" result
       || PyStr.endswith "/decline" result
       || PyStr.endswith "/merge" result
       || PyStr.endswith "/vote" result
       || PyStr.endswith "/watch" result)
  ∧ (∀ result,
       Crawler.skipped (Crawler.ignore_rules_of owner repo) result false = false →
       PyStr.startswith (Rewrite.repo_prefix owner repo) result = true)
  ∧ Crawler.skipped (Crawler.ignore_rules_of owner repo)
      (Rewrite.repo_prefix owner repo ++ "2") false = false.
Proof.
  assert (Hskip : ∀ result,
     Crawler.skipped (Crawler.ignore_rules_of owner repo) result false =
       PyStr.contains (Rewrite.repo_prefix owner repo ++ "/patch") result
       || PyStr.contains (Rewrite.repo_prefix owner repo ++ "/diff") result
       || PyStr.contains (Rewrite.repo_prefix owner repo ++ "/src") result
       || PyStr.contains (Rewrite.repo_prefix owner repo ++ "/filehistory") result
       || PyStr.contains (Rewrite.repo_prefix owner repo ++ "/downloads") result
       || negb (PyStr.startswith (Rewrite.repo_prefix owner repo) result)
       || PyStr.startswith (Rewrite.repo_prefix owner repo ++ "/issues/import") result
       || PyStr.startswith (Rewrite.repo_prefix owner repo ++ "/issues/export") result
       || PyStr.startswith (Rewrite.repo_prefix owner repo ++ "/hooks") result
       || PyStr.endswith "/approve" result
       || PyStr.endswith "/decline" result
       || PyStr.endswith "/merge" result
       || PyStr.endswith "/vote" result
       || PyStr.endswith "/watch" result).
  { intros result. unfold Crawler.ignore_rules_of.
    generalize (Rewrite.repo_prefix owner repo). intros base.
    cbn [Crawler.skipped Crawler.rule_type Crawler.rule_not Crawler.rule_string].
    change (String.eqb "in" "in") with true.
    change (String.eqb "startswith" "in") with false.
    change (String.eqb "startswith" "startswith") with true.
    change (String.eqb "endswith" "in") with false.
    change (String.eqb "endswith" "startswith") with false.
    change (String.eqb "endswith" "endswith") with true.
    cbv iota.
    repeat match goal with
           | |- context [if ?b then true else _] => destruct b; [reflexivity|]; cbn [orb negb]
           end.
    reflexivity. }
  split; [exact Hskip|]. split.
  - intros result. rewrite Hskip. intros H.
    do 8 (apply orb_false_elim in H as [H _]).
    apply orb_false_elim in H as [_ H]. by apply negb_false_iff in H.
  - rewrite Hskip. generalize (Rewrite.repo_prefix owner repo). intros base.
    assert (Hlen : ∀ tail, (1 < PyStr.len tail)%nat →
              (PyStr.len (base ++ "2") < PyStr.len (base ++ tail))%nat).
    { intros tail Htail. rewrite !len_app. unfold PyStr.len in *. cbn. lia. }
    rewrite !contains_longer by (apply Hlen; cbn; lia).
    rewrite (startswith_longer (base ++ "/issues/import")),
            (startswith_longer (base ++ "/issues/export")),
            (startswith_longer (base ++ "/hooks")) by (apply Hlen; cbn; lia).
    rewrite startswith_app.
    rewrite !(endswith_other_last _ (base ++ "2") _ "2") by
      first [ reflexivity | apply last_char_app | discriminate ].
    reflexivity.
Qed.

(** The characters of a plain query: letters, digits, and [=], [&], [-],
    [_], [.] and [~]. *)
Definition plain_query_char (c : ascii) : bool :=
  Re.is_alnum c || Ascii.eqb c "=" || Ascii.eqb c "&" || Ascii.eqb c "-"
  || Ascii.eqb c "_" || Ascii.eqb c "." || Ascii.eqb c "~".

Definition is_plain_query (q : string) : bool :=
  forallb plain_query_char (list_ascii_of_string q).

Section UrlPrologue.

Lemma all_chars_has_char (P : ascii → bool) (c : ascii) (s : string) :
  P c = false → forallb P (list_ascii_of_string s) = true → has_char c s = false.
Proof.
  intros Hc. induction s as [|d s IH]; cbn; [done|].
  intros [Hd Hs]%andb_prop. rewrite (IH Hs), orb_false_r.
  destruct (Ascii.eqb_spec c d) as [->|]; [congruence|done].
Qed.

Lemma remove_unsafe_app (a b : string) :
  Url.remove_unsafe (a ++ b) = (Url.remove_unsafe a ++ Url.remove_unsafe b)%string.
Proof.
  induction a as [|c a IH]; [done|]. rewrite append_cons. cbn [Url.remove_unsafe].
  rewrite IH. by destruct (Url.is_unsafe c).
Qed.

Lemma remove_unsafe_all (P : ascii → bool) (s : string) :
  (∀ c, P c = true → Url.is_unsafe c = false) →
  forallb P (list_ascii_of_string s) = true → Url.remove_unsafe s = s.
Proof.
  intros HP. induction s as [|c s IH]; cbn; [done|].
  intros [Hc Hs]%andb_prop. by rewrite (HP c Hc), (IH Hs).
Qed.

Lemma endpoint_char_safe (c : ascii) : endpoint_char c = true → Url.is_unsafe c = false.
Proof.
  unfold endpoint_char, Url.is_unsafe.
  intros [[[Hlo%Nat.leb_le _]%andb_prop _]%andb_prop _]%andb_prop.
  repeat (apply orb_false_intro); apply Nat.eqb_neq; lia.
Qed.

Lemma plain_query_char_safe (c : ascii) :
  plain_query_char c = true → Url.is_unsafe c = false.
Proof.
  unfold plain_query_char, Re.is_alnum, Re.is_digit, Url.is_unsafe. intros H.
  repeat (apply orb_prop in H as [H|H]);
    try (apply Ascii.eqb_eq in H; subst c; reflexivity);
    apply andb_prop in H as [H%Nat.leb_le _];
    repeat (apply orb_false_intro); apply Nat.eqb_neq; lia.
Qed.

(** The first steps of [urlsplit] leave the URL of an endpoint as it is. *)
Lemma api_url_prologue (x : string) :
  Url.remove_unsafe x = x →
  Url.lower_scheme (Url.remove_unsafe (Url.lstrip_c0 (bitbucket_api_url ++ x))) =
    (bitbucket_api_url ++ x)%string.
Proof.
  intros Hx.
  change (Url.lstrip_c0 (bitbucket_api_url ++ x)) with (bitbucket_api_url ++ x)%string.
  rewrite remove_unsafe_app, Hx. reflexivity.
Qed.

End UrlPrologue.

(** X18. The URL [bb_endpoint_to_full_url] builds for an endpoint is read
    back by the first lines of [get_and_save_json] as that endpoint: for
    an endpoint of printable characters without space, [?] and [#] that
    does not hold the API base URL itself, the URL of the endpoint splits
    into the endpoint and no parameters, and the URL of the endpoint with
    a plain query (letters, digits, [=], [&], [-], [_], [.], [~]) splits
    into the endpoint and the parsed query. So a reference the crawl
    follows is stored and rewritten under the endpoint the ignore rules
    were tested on. *)
Theorem endpoint_url_round_trip (e q : string) :
  is_endpoint e = true →
  PyStr.contains bitbucket_api_url e = false →
  is_plain_query q = true →
  Path.split_url (bb_endpoint_to_full_url e) = (e, [])
  ∧ Path.split_url (bb_endpoint_to_full_url (e ++ "?" ++ q)) = (e, Url.parse_qs q).
Proof.
  intros He Hapi Hq.
  assert (Hmark : has_char "?" e = false) by (by apply is_endpoint_has_char).
  assert (Hhash : has_char "#" e = false) by (by apply is_endpoint_has_char).
  assert (Hqhash : has_char "#" q = false)
    by (by apply (all_chars_has_char plain_query_char)).
  assert (Hsafe : Url.remove_unsafe e = e)
    by (apply (remove_unsafe_all endpoint_char); [apply endpoint_char_safe|done]).
  assert (Hqsafe : Url.remove_unsafe q = q)
    by (apply (remove_unsafe_all plain_query_char); [apply plain_query_char_safe|done]).
  unfold Path.split_url, bb_endpoint_to_full_url, Url.full_url_to_query. cbv zeta. split.
  - rewrite api_url_prologue by done.
    rewrite (before_char_absent "#") by (by rewrite has_char_app, Hhash).
    rewrite (before_char_absent "?" (bitbucket_api_url ++ e))
      by (by rewrite has_char_app, Hmark).
    rewrite (after_char_absent "?") by (by rewrite has_char_app, Hmark).
    by rewrite split_endpoint.
  - change (e ++ "?" ++ q)%string with (e ++ String "?" q)%string.
    rewrite api_url_prologue.
    2:{ rewrite remove_unsafe_app, Hsafe. cbn [Url.remove_unsafe].
        change (Url.is_unsafe "?") with false. cbv iota. by rewrite Hqsafe. }
    rewrite (before_char_absent "#").
    2:{ rewrite !has_char_app, Hhash. cbn. by rewrite Hqhash. }
    rewrite <- append_assoc.
    rewrite (before_char_app "?" (bitbucket_api_url ++ e))
      by (by rewrite has_char_app, Hmark).
    rewrite after_char_app by (by rewrite has_char_app, Hmark).
    by rewrite split_endpoint.
Qed.

Lemma endpoint_url_round_trip_witness :
  Path.split_url (bb_endpoint_to_full_url "repositories/acme/widget/issues")
    = ("repositories/acme/widget/issues", [])
  ∧ Path.split_url (bb_endpoint_to_full_url ("repositories/acme/widget/issues" ++ "?" ++ "page=2"))
    = ("repositories/acme/widget/issues", Url.parse_qs "page=2").
Proof.
  apply (endpoint_url_round_trip "repositories/acme/widget/issues" "page=2");
    vm_compute; reflexivity.
Defined.

(** What the first steps of [urlsplit] take away: the tab in the query, the
    spaces before the URL, the capitals of the scheme. *)
Example urlsplit_prologue :
  Url.full_url_to_query
    ("  HTTPS://api.bitbucket.org/2.0/user?q=" ++ String (ascii_of_nat 9) "x")
  = ("https://api.bitbucket.org/2.0/user", [("q", Py.VList ["x"])]).
Proof. vm_compute. reflexivity. Qed.

(** [unquote] on escapes that spell text, on escapes that spell none, and
    on what is no escape. *)
Example unquote_replaces_ill_formed_bytes :
  let b (n : nat) := String (ascii_of_nat n) EmptyString in
  let r := Url.replacement_character in
  map Url.unquote ["a%20b"; "%41%zz%4"; "%%41"; "%FF"; "a%C3%A9b"; "%C3x"; "%E2%82%ACx";
                   "%E2%82"; "%ED%A0%80"; "%F0%9F%98%80"; "%F0%9Fx"; "%C0%AF"]
  = ["a b"; "A%zz%4"; "%A"; r; "a" ++ b 195 ++ b 169 ++ "b"; r ++ "x";
     b 226 ++ b 130 ++ b 172 ++ "x"; r; r ++ r ++ r; b 240 ++ b 159 ++ b 152 ++ b 128;
     r ++ "x"; r ++ r]%string.
Proof. vm_compute. reflexivity. Qed.

